(** * PreREISE: solar (NSRDB naive estimator) and wind (te_wind) data gathering

    A shallow embedding of
    - [prereise/gather/winddata/te_wind/te_wind.py] (module [TeWind]) and
    - [prereise/gather/solardata/NSRDB/naive.py] (module [Naive]),
    followed by the properties of the two pipelines.

    Numbers.  In module [TeWind] coordinates and distances are real numbers
    ([R]): the distance function uses [sin], [cos], [sqrt] and [asin], and
    the values it returns are studied in exact arithmetic.  Module [TeWind64]
    evaluates the same function and the matcher on IEEE 754 binary64, where
    rounding decides whether [math.sqrt] raises.  Every other float64 of the
    program (irradiance, power, wind speed, capacities) is an exact rational
    ([Qc]); a table cell is an [option Qc] whose [None] is pandas' [nan];
    the rounding of these numbers, overflow and infinities are outside the
    model, as are [nan] coordinates. *)

From Stdlib Require Import Reals Lra Lia List ZArith QArith Qcanon.
From Stdlib Require Import Ascii String DecimalString DecimalPos DecimalZ.
From Stdlib Require Import Permutation Sorted Bool.
From Stdlib Require Floats.
Import ListNotations.

(** ** Exceptions as [option]: a raised exception is [None] *)

Definition bind {A B : Type} (m : option A) (k : A -> option B) : option B :=
  match m with
  | Some a => k a
  | None => None
  end.

Notation "x <- m ;; k" := (bind m (fun x => k))
  (at level 61, m at next level, right associativity).

(** [for x in l: acc = body(acc, x)] where the body may raise. *)
Fixpoint for_each {A S : Type} (body : S -> A -> option S) (l : list A) (acc : S)
  : option S :=
  match l with
  | [] => Some acc
  | x :: rest => acc' <- body acc x ;; for_each body rest acc'
  end.

(** [[f(x) for x in l]] where [f] may raise. *)
Fixpoint map_each {A B : Type} (f : A -> option B) (l : list A) : option (list B) :=
  match l with
  | [] => Some []
  | x :: rest => y <- f x ;; ys <- map_each f rest ;; Some (y :: ys)
  end.

(** ** float64 cells *)

Definition cell : Type := option Qc.

Definition nan : cell := None.

Definition Qc_eqb (a b : Qc) : bool := Qeq_bool (this a) (this b).

Definition Qc_leb (a b : Qc) : bool := Qle_bool (this a) (this b).

Definition cell_eqb (a b : cell) : bool :=
  match a, b with
  | Some x, Some y => Qc_eqb x y
  | None, None => true
  | _, _ => false
  end.

Fixpoint cells_eqb (a b : list cell) : bool :=
  match a, b with
  | [], [] => true
  | x :: a', y :: b' => cell_eqb x y && cells_eqb a' b'
  | _, _ => false
  end.

(** [x * k] for a float cell and a number: [nan] stays [nan]. *)
Definition cell_mul (x : cell) (k : Qc) : cell :=
  match x with
  | Some q => Some (q * k)%Qc
  | None => None
  end.

(** [x / d] in numpy: no exception; a zero (or [nan]) divisor leaves the
    finite numbers, which the model records as [nan]. *)
Definition cell_div (x d : cell) : cell :=
  match x, d with
  | Some q, Some k => if Qc_eqb k 0 then None else Some (q / k)%Qc
  | _, _ => None
  end.

(** [Series.max()]: the largest value, [nan] entries skipped; [nan] when
    there is none. *)
Fixpoint series_max (s : list cell) : cell :=
  match s with
  | [] => None
  | x :: rest =>
      match x, series_max rest with
      | Some q, Some m => Some (if Qc_leb q m then m else q)
      | Some q, None => Some q
      | None, m => m
      end
  end.

Definition Qc_of_nat (n : nat) : Qc := Q2Qc (inject_Z (Z.of_nat n)).

Definition Qc_of_Z (z : Z) : Qc := Q2Qc (inject_Z z).

(** [Series.mean()]: arithmetic mean of the entries that are not [nan];
    [nan] when there is none. *)
Definition present (s : list cell) : list Qc :=
  flat_map (fun c => match c with Some q => [q] | None => [] end) s.

Definition Qc_sum (l : list Qc) : Qc := fold_right Qcplus 0%Qc l.

Definition series_mean (s : list cell) : cell :=
  match present s with
  | [] => None
  | q :: qs => Some (Qc_sum (q :: qs) / Qc_of_nat (List.length (q :: qs)))%Qc
  end.

(** [str(n)] and ["%d" % n] for a Python integer. *)
Definition str_int (z : Z) : string := NilEmpty.string_of_int (Z.to_int z).

(** The number of minus signs of a text. *)
Fixpoint dashes (s : string) : nat :=
  match s with
  | EmptyString => 0
  | String c rest => (if Ascii.eqb c "-" then 1 else 0) + dashes rest
  end.

(** ** Insertion-ordered dictionaries (Python [dict]) *)

Section Dict.
Context {K V : Type}.
Variable eqb : K -> K -> bool.

(** [d[k]]; [KeyError] when the key is absent. *)
Fixpoint dict_get (d : list (K * V)) (k : K) : option V :=
  match d with
  | [] => None
  | (k', v) :: rest => if eqb k' k then Some v else dict_get rest k
  end.

(** [d[k] = v]: replaces in place, or appends a new key at the end. *)
Fixpoint dict_set (d : list (K * V)) (k : K) (v : V) : list (K * V) :=
  match d with
  | [] => [(k, v)]
  | (k', v') :: rest =>
      if eqb k' k then (k, v) :: rest else (k', v') :: dict_set rest k v
  end.

End Dict.

(** [Index.unique()]: the distinct values in order of first appearance. *)
Fixpoint unique (l : list Z) : list Z :=
  match l with
  | [] => []
  | x :: rest => x :: filter (fun y => negb (y =? x)%Z) (unique rest)
  end.

(** ** Timestamps

    A pandas [Timestamp] (UTC) is its number of seconds since 1970-01-01.
    [year_of] and [month_of] are [Timestamp.year] and [Timestamp.month] of the
    proleptic Gregorian calendar; [hour_floor] numbers the clock hours. *)

Definition civil_from_days (days : Z) : Z * Z * Z :=
  let z := (days + 719468)%Z in
  let era := (z / 146097)%Z in
  let doe := (z - era * 146097)%Z in
  let yoe := ((doe - doe / 1460 + doe / 36524 - doe / 146096) / 365)%Z in
  let doy := (doe - (365 * yoe + yoe / 4 - yoe / 100))%Z in
  let mp := ((5 * doy + 2) / 153)%Z in
  let d := (doy - (153 * mp + 2) / 5 + 1)%Z in
  let m := (if mp <? 10 then mp + 3 else mp - 9)%Z in
  let y := (yoe + era * 400 + (if m <=? 2 then 1 else 0))%Z in
  (y, m, d).

Definition year_of (t : Z) : Z := fst (fst (civil_from_days (t / 86400))).

Definition month_of (t : Z) : Z := snd (fst (civil_from_days (t / 86400))).

Definition hour_floor (t : Z) : Z := (t / 3600)%Z.

(** ** Frames: a table with a timestamp index and labelled float columns *)

Record frame : Type := {
  index : list Z;
  columns : list (Z * list cell)
}.

Definition shape (f : frame) : nat * nat :=
  (List.length (index f), List.length (columns f)).

Definition labels (f : frame) : list Z := map fst (columns f).

(** [pd.DataFrame(index=idx, columns=cols, dtype=float)]: every cell unset. *)
Definition empty_frame (idx cols : list Z) : frame :=
  {| index := idx;
     columns := map (fun c => (c, repeat nan (List.length idx))) cols |}.

(** [f[label]]: the column; [KeyError] when there is none. *)
Definition get_column (f : frame) (label : Z) : option (list cell) :=
  dict_get Z.eqb (columns f) label.

(** [f[label] = values] for a label among the columns: every column carrying
    the label takes the values. *)
Definition set_column (f : frame) (label : Z) (values : list cell) : frame :=
  {| index := index f;
     columns := map (fun c => if (fst c =? label)%Z then (fst c, values) else c)
                    (columns f) |}.

(** * te_wind.py *)

Module TeWind.

Local Open Scope Z_scope.

(** ** [_greatCircleDistance] *)

(** [math.sqrt] raises [ValueError] on a negative argument, [math.asin]
    outside [[-1, 1]]. *)
Definition math_sqrt (x : R) : option R :=
  if Rlt_dec x 0 then None else Some (sqrt x).

Definition math_asin (x : R) : option R :=
  if Rlt_dec x (-1) then None
  else if Rlt_dec 1 x then None
  else Some (asin x).

(** The local constant [R] of the source, in km. *)
Definition R_earth : R := 6368%R.

Definition haversin (x : R) : R := (sin (x / 2) ^ 2)%R.

Definition _greatCircleDistance (lat1 lon1 lat2 lon2 : R) : option R :=
  root <- math_sqrt (haversin (lat2 - lat1) +
                     cos lat1 * cos lat2 * haversin (lon2 - lon1))%R ;;
  angle <- math_asin root ;;
  Some (R_earth * 2 * angle)%R.

(** The argument the call passes to [math.sqrt]. *)
Definition sqrt_arg (lat1 lon1 lat2 lon2 : R) : R :=
  (haversin (lat2 - lat1) + cos lat1 * cos lat2 * haversin (lon2 - lon1))%R.

(** The formula of the specification, for comparison with the code:
    [2 R asin (sqrt (sin^2 (dlat/2) + cos lat1 cos lat2 sin^2 (dlon/2)))]
    with [R = 6368]. *)
Definition haversine_formula (lat1 lon1 lat2 lon2 : R) : R :=
  (2 * 6368 *
   asin (sqrt (Rsqr (sin ((lat2 - lat1) / 2)) +
               cos lat1 * cos lat2 * Rsqr (sin ((lon2 - lon1) / 2)))))%R.

(** ** [find_NREL_siteID_closest_to_windfarm] *)

(** A row of [nrel_sites] (columns site_id, lat, lon, capacity,
    capacity_factor). *)
Record nrel_site : Type := {
  site_id : Z;
  site_lat : R;
  site_lon : R;
  site_capacity : Qc;
  site_capacity_factor : Qc
}.

(** A row of [wind_farm_bus]: index plantID, columns lat, lon (in that order
    for the matcher) and GenMWMax (for the scaler). *)
Record wind_farm : Type := {
  plantID : Z;
  bus_lat : R;
  bus_lon : R;
  GenMWMax : Qc
}.

(** A row of [closest_NREL_siteID]: index plantID, columns siteID (int),
    capacity (float), dist (float), as the three [astype] calls leave them. *)
Record site_match : Type := {
  closest_plantID : Z;
  siteID : Z;
  capacity : Qc;
  dist : R
}.

Definition float_eqb (a b : R) : bool :=
  if Req_dec_T a b then true else false.

(** [dist.min()]: [nan] ([None]) on an empty series. *)
Definition series_min (d : list R) : option R :=
  match d with
  | [] => None
  | x :: rest => Some (fold_left Rmin rest x)
  end.

(** [dist == dist.min()]: elementwise; [nan] equals nothing. *)
Definition eq_mask (d : list R) (m : option R) : list bool :=
  map (fun x => match m with
                | Some v => float_eqb x v
                | None => false
                end) d.

(** [values[mask]]: the entries where the mask holds, in order. *)
Fixpoint boolean_index {A : Type} (values : list A) (mask : list bool) : list A :=
  match values, mask with
  | v :: vs, b :: bs =>
      if b then v :: boolean_index vs bs else boolean_index vs bs
  | _, _ => []
  end.

(** [a[0]]: [IndexError] on an empty array. *)
Definition values0 {A : Type} (a : list A) : option A := hd_error a.

(** The body of the loop over the wind farms: the row written at [iloc[i]].
    [dist.min()] is [nan] only for an empty catalog, and there the selection
    of the site identifier has already raised. *)
Definition closest_row (nrel_sites : list nrel_site) (row : wind_farm)
  : option site_match :=
  dist <- map_each (fun row_sites =>
                      _greatCircleDistance (site_lat row_sites) (site_lon row_sites)
                                           (bus_lat row) (bus_lon row))
                   nrel_sites ;;
  let dmin := series_min dist in
  sid <- values0 (boolean_index (map site_id nrel_sites) (eq_mask dist dmin)) ;;
  cap <- values0 (boolean_index (map site_capacity nrel_sites) (eq_mask dist dmin)) ;;
  d <- dmin ;;
  Some {| closest_plantID := plantID row; siteID := sid; capacity := cap; dist := d |}.

(** The distance the matcher computes between a catalog site and a wind farm:
    the site first, the farm second, coordinates passed as they are stored. *)
Definition site_distance (row_sites : nrel_site) (row : wind_farm) : R :=
  match _greatCircleDistance (site_lat row_sites) (site_lon row_sites)
                             (bus_lat row) (bus_lon row) with
  | Some d => d
  | None => 0%R
  end.

(** The specification of the row [m] recorded for the farm [row]: the matched
    site is the first catalog site at minimum distance. *)
Definition nearest_match (nrel_sites : list nrel_site) (row : wind_farm)
  (m : site_match) : Prop :=
  closest_plantID m = plantID row /\
  exists before s after,
    nrel_sites = before ++ s :: after /\
    Forall (fun s' => (site_distance s row < site_distance s' row)%R) before /\
    Forall (fun s' => (site_distance s row <= site_distance s' row)%R) after /\
    siteID m = site_id s /\
    capacity m = site_capacity s /\
    dist m = site_distance s row.

Definition find_NREL_siteID_closest_to_windfarm
  (nrel_sites : list nrel_site) (wind_farm_bus : list wind_farm)
  : option (list site_match) :=
  map_each (closest_row nrel_sites) wind_farm_bus.

(** ** [get_data_from_NREL_server] *)

(** The table the provider returns for one site and one month: a timestamp
    index and the columns power and wind_speed. *)
Record site_data : Type := {
  data_index : list Z;
  power : list cell;
  wind_speed : list cell
}.

(** [DataFrame / scalar]: every column is divided. *)
Definition frame_div (d : site_data) (c : Qc) : site_data :=
  {| data_index := data_index d;
     power := map (fun x => cell_div x (Some c)) (power d);
     wind_speed := map (fun x => cell_div x (Some c)) (wind_speed d) |}.

Definition month_label (y m : Z) : string :=
  if m <? 10 then (str_int y ++ "-0" ++ str_int m)%string
  else (str_int y ++ "-" ++ str_int m)%string.

(** Partial string indexing of a DatetimeIndex, for the two kinds of label
    the program builds: a year ([str(y)]) and a month ([month_label]). *)
Definition in_period (label : string) (t : Z) : bool :=
  String.eqb label (str_int (year_of t))
  || String.eqb label (month_label (year_of t) (month_of t)).

Definition select_rows (label : string) (idx : list Z) : list Z :=
  filter (in_period label) idx.

(** [a[-1]]: [IndexError] on an empty array. *)
Definition values_last {A : Type} (a : list A) : option A := hd_error (rev a).

(** [siteIDs.drop_duplicates(subset='siteID')]: the first row of each site. *)
Fixpoint drop_duplicates (rows : list site_match) : list site_match :=
  match rows with
  | [] => []
  | r :: rest =>
      r :: filter (fun r' => negb (siteID r' =? siteID r)) (drop_duplicates rest)
  end.

Section Fetcher.

(** [get_nc_data_from_url(wtk_url + "/met", site_id, start, end, attributes,
    utc, leap_day)]: the provider, as a function of the arguments that vary. *)
Variable get_nc_data_from_url : Z -> Z -> Z -> site_data.

(** The loop over the rows of the de-duplicated match table, for one month. *)
Definition fetch_sites (siteIDs : list site_match) (start end_ : Z)
  : list (Z * site_data) :=
  fold_left
    (fun month_dict row =>
       let site_id_i := siteID row in
       let capacity_i := capacity row in
       dict_set Z.eqb month_dict site_id_i
                (frame_div (get_nc_data_from_url site_id_i start end_) capacity_i))
    (drop_duplicates siteIDs) [].

(** The body of the loop over the months [m] of year [y]. *)
Definition fetch_month (siteIDs : list site_match) (data_range : list Z) (y : Z)
  (sites_dict : list (string * list (Z * site_data))) (m : Z)
  : option (list (string * list (Z * site_data))) :=
  let month := month_label y m in
  start <- values0 (select_rows month data_range) ;;
  end_ <- values_last (select_rows month data_range) ;;
  Some (dict_set String.eqb sites_dict month (fetch_sites siteIDs start end_)).

Definition fetch_year (siteIDs : list site_match) (data_range : list Z)
  (sites_dict : list (string * list (Z * site_data))) (y : Z)
  : option (list (string * list (Z * site_data))) :=
  for_each (fetch_month siteIDs data_range y)
           (unique (map month_of (select_rows (str_int y) data_range)))
           sites_dict.

Definition get_data_from_NREL_server (siteIDs : list site_match)
  (data_range : list Z) : option (list (string * list (Z * site_data))) :=
  for_each (fetch_year siteIDs data_range)
           (unique (map year_of data_range)) [].

(** The specification of the table stored for [site] under [month], as the
    code has it: it is the provider's table for the first
    and last timestamp of the month, every column divided by the capacity of
    the site's first row in the match table. *)
Definition normalized_entry (siteIDs : list site_match) (data_range : list Z)
  (month : string) (site : Z) (table : site_data) : Prop :=
  exists start end_ row,
    values0 (select_rows month data_range) = Some start /\
    values_last (select_rows month data_range) = Some end_ /\
    In row (drop_duplicates siteIDs) /\
    siteID row = site /\
    data_index table = data_index (get_nc_data_from_url site start end_) /\
    power table =
      map (fun x => cell_div x (Some (capacity row)))
          (power (get_nc_data_from_url site start end_)) /\
    wind_speed table =
      map (fun x => cell_div x (Some (capacity row)))
          (wind_speed (get_nc_data_from_url site start end_)).

End Fetcher.

(** ** [dict_to_DataFrame] *)

Definition count_true (mask : list bool) : nat :=
  List.length (filter (fun b => b) mask).

(** Writes [values], in order, at the positions the mask selects. *)
Fixpoint scatter (mask : list bool) (old values : list cell) : list cell :=
  match mask, old with
  | true :: mask', x :: old' =>
      match values with
      | v :: values' => v :: scatter mask' old' values'
      | [] => x :: scatter mask' old' []
      end
  | false :: mask', x :: old' => x :: scatter mask' old' values
  | _, _ => old
  end.

(** [f.loc[month, siteID] = values]: the rows of the month in the column of
    the site, for values that come one per row of the month.  A label that is
    not a column adds the column (setting with enlargement).  Two cases are
    outside the model, which stops there ([None]) although pandas goes on: a
    single value for a month of several rows, which pandas repeats on every
    row, and a month without a timestamp in the index, for which pandas adds
    a row to the index.  The theorems about the reshaper are for data with
    one value per timestamp of a month that has timestamps
    ([fetched_shape]). *)
Definition loc_set (f : frame) (month : string) (site : Z) (values : list cell)
  : option frame :=
  let mask := map (in_period month) (index f) in
  if (count_true mask =? 0)%nat then None
  else if negb (List.length values =? count_true mask)%nat then None
  else if existsb (Z.eqb site) (labels f) then
    Some {| index := index f;
            columns := map (fun c => if fst c =? site
                                     then (fst c, scatter mask (snd c) values)
                                     else c) (columns f) |}
  else
    Some {| index := index f;
            columns := columns f ++
                       [(site, scatter mask (repeat nan (List.length (index f)))
                                       values)] |}.

Definition reshape_site (month : string) (tables : frame * frame)
  (entry : Z * site_data) : option (frame * frame) :=
  NREL_power <- loc_set (fst tables) month (fst entry) (power (snd entry)) ;;
  NREL_windspeed <- loc_set (snd tables) month (fst entry)
                            (wind_speed (snd entry)) ;;
  Some (NREL_power, NREL_windspeed).

Definition reshape_month (tables : frame * frame)
  (entry : string * list (Z * site_data)) : option (frame * frame) :=
  for_each (reshape_site (fst entry)) (snd entry) tables.

Definition dict_to_DataFrame (data : list (string * list (Z * site_data)))
  (data_range : list Z) (closest_NREL_siteID : list site_match)
  : option (frame * frame) :=
  let cols := unique (map siteID closest_NREL_siteID) in
  for_each reshape_month data
           (empty_frame data_range cols, empty_frame data_range cols).

(** Every column has one cell per timestamp of the index. *)
Definition rectangular (f : frame) : Prop :=
  Forall (fun c => List.length (snd c) = List.length (index f)) (columns f).

(** [data] has the shape of the fetcher's output for the range and the match
    table: every site is a matched site, every month has timestamps in the
    range, and every table has one value per timestamp of its month. *)
Definition fetched_shape (data : list (string * list (Z * site_data)))
  (data_range : list Z) (closest_NREL_siteID : list site_match) : Prop :=
  Forall (fun month_entry =>
            Forall (fun entry =>
                      In (fst entry) (map siteID closest_NREL_siteID) /\
                      select_rows (fst month_entry) data_range <> [] /\
                      List.length (power (snd entry)) =
                      List.length (select_rows (fst month_entry) data_range) /\
                      List.length (wind_speed (snd entry)) =
                      List.length (select_rows (fst month_entry) data_range))
                   (snd month_entry))
         data.

(** The cell of timestamp [t] and site [s] is populated by [data]: some
    month of [data] that holds a table for [s] contains [t]. *)
Definition populated (data : list (string * list (Z * site_data))) (t s : Z)
  : Prop :=
  exists month tables table,
    In (month, tables) data /\ In (s, table) tables /\ in_period month t = true.

(** Every cell that [data] does not populate is unset. *)
Definition unset_elsewhere (data : list (string * list (Z * site_data)))
  (f : frame) : Prop :=
  forall i t s column,
    nth_error (index f) i = Some t ->
    In (s, column) (columns f) ->
    ~ populated data t s ->
    nth_error column i = Some nan.

(** What both tables satisfy all along the two loops of the reshaper: the
    index and the column labels are those of the start, the table is
    rectangular, and a cell that holds a number is populated by [data]. *)
Definition table_inv (data : list (string * list (Z * site_data)))
  (data_range cols : list Z) (f : frame) : Prop :=
  index f = data_range /\
  labels f = cols /\
  rectangular f /\
  forall i s column q,
    In (s, column) (columns f) ->
    nth_error column i = Some (Some q) ->
    exists t, nth_error data_range i = Some t /\ populated data t s.

(** ** [scale_power_to_plant_capacity] *)

(** [closest_NREL_siteID.loc[plantID, 'siteID']]; [KeyError] for a plant
    without a row. *)
Definition loc_siteID (closest_NREL_siteID : list site_match) (plant : Z)
  : option Z :=
  option_map siteID
    (find (fun r => closest_plantID r =? plant) closest_NREL_siteID).

Definition scale_plant (NREL_power : frame) (closest_NREL_siteID : list site_match)
  (wind_farm_power : frame) (plant : wind_farm) : option frame :=
  site <- loc_siteID closest_NREL_siteID (plantID plant) ;;
  series <- get_column NREL_power site ;;
  Some (set_column wind_farm_power (plantID plant)
                   (map (fun x => cell_mul x (GenMWMax plant)) series)).

(** The clock hours from the first to the last hour of the index. *)
Definition hours_range (idx : list Z) : list Z :=
  match map hour_floor idx with
  | [] => []
  | h :: hs =>
      let lo := fold_left Z.min hs h in
      let hi := fold_left Z.max hs h in
      map (fun k => lo + Z.of_nat k) (seq 0 (Z.to_nat (hi - lo + 1)))
  end.

(** The cells of a column whose timestamp falls in clock hour [h]. *)
Definition hour_values (idx : list Z) (col : list cell) (h : Z) : list cell :=
  map snd (filter (fun tc => hour_floor (fst tc) =? h) (combine idx col)).

(** [f.resample('H').mean()] *)
Definition resample_H_mean (f : frame) : frame :=
  {| index := map (fun h => h * 3600) (hours_range (index f));
     columns := map (fun c =>
                       (fst c, map (fun h => series_mean (hour_values (index f) (snd c) h))
                                   (hours_range (index f))))
                    (columns f) |}.

Definition scale_power_to_plant_capacity (NREL_power : frame)
  (wind_farm_bus : list wind_farm) (closest_NREL_siteID : list site_match)
  : option frame :=
  wind_farm_power <-
    for_each (scale_plant NREL_power closest_NREL_siteID) wind_farm_bus
             (empty_frame (index NREL_power) (map plantID wind_farm_bus)) ;;
  Some (resample_H_mean wind_farm_power).

(** The same wind farm with twice the rated capacity. *)
Definition double_capacity (plant : wind_farm) : wind_farm :=
  {| plantID := plantID plant;
     bus_lat := bus_lat plant;
     bus_lon := bus_lon plant;
     GenMWMax := (GenMWMax plant * Q2Qc 2)%Qc |}.

(** A column and the column it becomes when the values of the plant [pid]
    are doubled and every other column is kept. *)
Definition doubled_for (pid : Z) (c c' : Z * list cell) : Prop :=
  fst c' = fst c /\
  snd c' = if fst c =? pid
           then map (fun x => cell_mul x (Q2Qc 2)) (snd c)
           else snd c.

(** ** A concrete catalog: three sites on the meridian of a farm at (0, 0),
    at 500 km, 5 km and 50 km from it. *)

Definition farm0 : wind_farm :=
  {| plantID := 7; bus_lat := 0; bus_lon := 0; GenMWMax := Q2Qc 100 |}.

Definition site_on_meridian (i : Z) (km : R) (cap : Qc) : nrel_site :=
  {| site_id := i; site_lat := (km / 6368)%R; site_lon := 0;
     site_capacity := cap; site_capacity_factor := Q2Qc (2 # 5) |}.

Definition site_far : nrel_site := site_on_meridian 1 500 (Q2Qc 12).

Definition site_near : nrel_site := site_on_meridian 2 5 (Q2Qc 16).


(** A provider for the examples: the same two-column table for every site
    and month. *)
Definition sample_provider (site start end_ : Z) : site_data :=
  {| data_index := [start; end_];
     power := [Some (Q2Qc 30); Some (Q2Qc 10)];
     wind_speed := [Some (Q2Qc 8); Some (Q2Qc 6)] |}.

(** 2016-01-01 00:00:00 UTC and 2016-01-01 00:05:00 UTC. *)
Definition sample_range : list Z := [1451606400; 1451606700].

Definition sample_match : list site_match :=
  [ {| closest_plantID := 7; siteID := 2; capacity := Q2Qc 2; dist := 5 |} ].

(** The output of the fetcher on the sample provider, match table and range. *)
Definition sample_data : list (string * list (Z * site_data)) :=
  [ ("2016-01"%string,
     [ (2, frame_div (sample_provider 2 1451606400 1451606700) (Q2Qc 2)) ]) ].

(** A normalized power table for the sample range: one site, two values in
    the same clock hour. *)
Definition sample_power : frame :=
  {| index := sample_range;
     columns := [ (2, [Some (Q2Qc (3 # 20)); Some (Q2Qc (1 # 20))]) ] |}.

(** ** [get_all_NREL_siteID_for_states] *)

Section CatalogBuilder.

(** [states[state]]: the boundary of a state as its lists ['lons'] and
    ['lats']; [KeyError] for an unknown abbreviation. *)
Variable states : string -> option (list Qc * list Qc).

(** [str] of a coordinate. *)
Variable str_float : Qc -> string.

(** [get_3tiersites_from_wkt], followed by [reset_index] and the selection of
    the five columns: the rows of the registry inside a polygon. *)
Variable get_3tiersites_from_wkt : string -> list nrel_site.

(** [np.column_stack((lons, lats))]: [ValueError] when the lengths differ. *)
Definition column_stack (lons lats : list Qc) : option (list (Qc * Qc)) :=
  if (List.length lons =? List.length lats)%nat
  then Some (combine lons lats) else None.

(** The text of one vertex, longitude first. *)
Definition vertex (i : Qc * Qc) : string :=
  (str_float (fst i) ++ " " ++ str_float (snd i))%string.

(** The polygon literal: every vertex followed by a comma, then the first
    vertex again; [coords[0]] raises [IndexError] on an empty boundary. *)
Definition wkt_polygon (coords : list (Qc * Qc)) : option string :=
  let out_tot := map (fun i => (vertex i ++ ",")%string) coords in
  first <- values0 coords ;;
  let out_tot := out_tot ++ [vertex first] in
  let str1 := String.concat EmptyString out_tot in
  Some ("POLYGON((" ++ str1 ++ "))")%string.

(** The polygon queried for a state. *)
Definition state_polygon (state : string) : option string :=
  boundary <- states state ;;
  coords <- column_stack (fst boundary) (snd boundary) ;;
  wkt_polygon coords.

(** The body of the loop over the states; [nrel_sites] is [None] until the
    first state has been read. *)
Definition catalog_step (nrel_sites : option (list nrel_site)) (state : string)
  : option (option (list nrel_site)) :=
  str_final <- state_polygon state ;;
  let site_df := get_3tiersites_from_wkt str_final in
  match nrel_sites with
  | Some sites => Some (Some (sites ++ site_df))
  | None => Some (Some site_df)
  end.

(** The result is Python's [None] ([Some None] here) for an empty list of
    states. *)
Definition get_all_NREL_siteID_for_states (states_list : list string)
  : option (option (list nrel_site)) :=
  for_each catalog_step states_list None.

(** The sites the registry answers for a state. *)
Definition state_sites (state : string) : list nrel_site :=
  match state_polygon state with
  | Some str_final => get_3tiersites_from_wkt str_final
  | None => []
  end.

End CatalogBuilder.

(** ** Reading the results *)

(** The first row of a site in the match table. *)
Definition first_row (siteIDs : list site_match) (site : Z) : option site_match :=
  find (fun r => siteID r =? site) siteIDs.

(** The part of a month label after the year. *)
Definition month_suffix (m : Z) : string :=
  if m <? 10 then ("-0" ++ str_int m)%string else ("-" ++ str_int m)%string.

(** The cells a table holds for a site on the rows of a month, in order. *)
Definition month_cells (f : frame) (month : string) (site : Z)
  : option (list cell) :=
  option_map (fun column => boolean_index column (map (in_period month) (index f)))
             (get_column f site).

(** Two distinct month keys of [data] share no timestamp of the range. *)
Definition months_apart (data : list (string * list (Z * site_data)))
  (data_range : list Z) : Prop :=
  forall month month' t,
    In month (map fst data) -> In month' (map fst data) -> month <> month' ->
    In t data_range ->
    in_period month t = true -> in_period month' t = true -> False.

(** Both tables are rectangular and indexed by the range. *)
Definition tables_inv (data_range : list Z) (tables : frame * frame) : Prop :=
  rectangular (fst tables) /\ rectangular (snd tables) /\
  index (fst tables) = data_range /\ index (snd tables) = data_range.

(** Both tables hold the columns of [table] on the rows of [month], in the
    column of [site]. *)
Definition tables_hold (month : string) (site : Z) (table : site_data)
  (tables : frame * frame) : Prop :=
  month_cells (fst tables) month site = Some (power table) /\
  month_cells (snd tables) month site = Some (wind_speed table).

(** The normalized power column the scaler reads for a plant: the column of
    the plant's matched site. *)
Definition plant_series (NREL_power : frame)
  (closest_NREL_siteID : list site_match) (plant : wind_farm)
  : option (list cell) :=
  site <- loc_siteID closest_NREL_siteID (plantID plant) ;;
  get_column NREL_power site.

(** A registry of boundaries for the examples: one state with a triangle. *)
Definition sample_states (state : string) : option (list Qc * list Qc) :=
  if String.eqb state "WA"
  then Some ([Q2Qc (-124); Q2Qc (-117); Q2Qc (-120)],
             [Q2Qc 46; Q2Qc 46; Q2Qc 49])
  else None.

(** A coordinate text for the examples: the numerator of an integral value. *)
Definition sample_str_float (q : Qc) : string := str_int (Qnum (this q)).

(** A registry for the examples: the near site, whatever the polygon. *)
Definition sample_registry (polygon : string) : list nrel_site := [site_near].

End TeWind.

(** * te_wind.py on binary64

    [_greatCircleDistance] and the matcher once more, in the arithmetic the
    interpreter runs them in: a Python float is an IEEE 754 binary64 and
    [+], [-], [*], [/] round to nearest even.  [math.sin], [math.cos] and
    [math.asin] come from the C library and are parameters; [math.sqrt] is the
    correctly rounded square root.  Over exact reals the argument of the
    square root is never negative; on binary64 the rounding of the sines, the
    cosines and their products can leave it just below zero, and then
    [math.sqrt] raises. *)

Module TeWind64.

Import Floats.

Local Open Scope float_scope.

Section Libm.

Variables sin cos asin : float -> float.

(** [math.sqrt] raises [ValueError] below zero and [math.asin] outside
    [[-1, 1]]; a [nan] passes through both. *)
Definition math_sqrt (x : float) : option float :=
  if x <? 0 then None else Some (sqrt x).

Definition math_asin (x : float) : option float :=
  if (x <? -1) || (1 <? x) then None else Some (asin x).

Definition R : float := 6368.

(** [math.sin(x/2)**2]; the square is taken as the rounded product. *)
Definition haversin (x : float) : float :=
  let s := sin (x / 2) in s * s.

(** The argument the call passes to [math.sqrt]. *)
Definition sqrt_arg (lat1 lon1 lat2 lon2 : float) : float :=
  haversin (lat2 - lat1) + cos lat1 * cos lat2 * haversin (lon2 - lon1).

Definition _greatCircleDistance (lat1 lon1 lat2 lon2 : float) : option float :=
  root <- math_sqrt (haversin (lat2 - lat1) +
                     cos lat1 * cos lat2 * haversin (lon2 - lon1)) ;;
  angle <- math_asin root ;;
  Some (R * 2 * angle).

(** The rows of [nrel_sites], [wind_farm_bus] and [closest_NREL_siteID] with
    float64 columns. *)
Record nrel_site : Type := {
  site_id : Z;
  site_lat : float;
  site_lon : float;
  site_capacity : float;
  site_capacity_factor : float
}.

Record wind_farm : Type := {
  plantID : Z;
  bus_lat : float;
  bus_lon : float
}.

Record site_match : Type := {
  closest_plantID : Z;
  siteID : Z;
  capacity : float;
  dist : float
}.

(** [dist.min()]: the least value, [nan] entries skipped; [nan] ([None]) when
    there is none. *)
Definition series_min (d : list float) : option float :=
  match filter (fun x => negb (is_nan x)) d with
  | [] => None
  | x :: rest => Some (fold_left (fun m y => if y <? m then y else m) rest x)
  end.

(** [dist == dist.min()]: elementwise; [nan] equals nothing. *)
Definition eq_mask (d : list float) (m : option float) : list bool :=
  map (fun x => match m with
                | Some v => x =? v
                | None => false
                end) d.

(** The body of the loop over the wind farms.  [nrel_sites.apply] calls the
    distance row by row, in catalog order, and an exception of a call ends
    the matcher. *)
Definition closest_row (nrel_sites : list nrel_site) (row : wind_farm)
  : option site_match :=
  dist <- map_each (fun row_sites =>
                      _greatCircleDistance (site_lat row_sites) (site_lon row_sites)
                                           (bus_lat row) (bus_lon row))
                   nrel_sites ;;
  let dmin := series_min dist in
  sid <- TeWind.values0
           (TeWind.boolean_index (map site_id nrel_sites) (eq_mask dist dmin)) ;;
  cap <- TeWind.values0
           (TeWind.boolean_index (map site_capacity nrel_sites)
                                 (eq_mask dist dmin)) ;;
  d <- dmin ;;
  Some {| closest_plantID := plantID row; siteID := sid; capacity := cap; dist := d |}.

Definition find_NREL_siteID_closest_to_windfarm
  (nrel_sites : list nrel_site) (wind_farm_bus : list wind_farm)
  : option (list site_match) :=
  map_each (closest_row nrel_sites) wind_farm_bus.

End Libm.




(** ** Two calls

    In radians, the call [_greatCircleDistance(1.0, 0.0, 2.141592653589793,
    3.141592653589793)]; in degrees, as the matcher passes the coordinates,
    a catalog site at (48.856186954104004, -116.8584073464102) and a wind
    farm at (42.25, -120.0). *)

Definition lat1_rad : float := 0x1p+0.

Definition lon1_rad : float := 0x0p+0.






(** A site and a wind farm at (1.0, 0.0). *)
Definition site_rad : nrel_site :=
  {| site_id := 3; site_lat := lat1_rad; site_lon := lon1_rad;
     site_capacity := 14; site_capacity_factor := 0x1.999999999999ap-2 |}.

Definition farm_rad : wind_farm :=
  {| plantID := 8; bus_lat := lat1_rad; bus_lon := lon1_rad |}.

(** The values of [math.sin] and [math.cos] at the arguments the two calls
    reach (half the latitude and longitude differences, and the latitudes),
    as the C library returns them on binary64; [math.sin(0.0)] and
    [math.asin(0.0)] besides, for the call from a point to itself.  The
    tables answer [nan] elsewhere. *)
Definition sin_values : list (float * float) :=
  [ (0x1.243f6a8885a3p-1, 0x1.14a280fb5068bp-1);
    (0x1.921fb54442d18p+0, 0x1p+0);
    (-0x1.a6cbc45dc8dep+1, 0x1.495157c78ea06p-3);
    (-0x1.921fb54442d2p+0, -0x1p+0);
    (0x0p+0, 0x0p+0) ].

Definition cos_values : list (float * float) :=
  [ (0x1p+0, 0x1.14a280fb5068cp-1);
    (0x1.121fb54442d18p+1, -0x1.14a280fb5068bp-1);
    (0x1.86d9788bb91bcp+5, 0x1.495157c78ea07p-3);
    (0x1.52p+5, -0x1.495157c78ea06p-3) ].

Definition asin_values : list (float * float) :=
  [ (0x0p+0, 0x0p+0) ].

Definition tabulated (values : list (float * float)) (x : float) : float :=
  match find (fun entry => fst entry =? x) values with
  | Some entry => snd entry
  | None => nan
  end.

Definition libm_sin : float -> float := tabulated sin_values.

Definition libm_cos : float -> float := tabulated cos_values.

Definition libm_asin : float -> float := tabulated asin_values.

End TeWind64.

(** * naive.py *)

Module Naive.

Local Open Scope Z_scope.

(** ** The plants and their locations *)

(** A row of [solar_plant]: its index (the plant identifier) and the columns
    lon, lat and Pmax. *)
Record solar_plant_row : Type := {
  plant_index : Z;
  lon : Qc;
  lat : Qc;
  Pmax : Qc
}.

(** A key of [coord] is the pair [(str(lon), str(lat))].  [str] of a float64
    is its shortest round-trip text, so two keys are equal exactly when the
    coordinates are: the model keeps the coordinates. *)
Definition key : Type := (Qc * Qc)%type.

Definition key_eqb (a b : key) : bool :=
  Qc_eqb (fst a) (fst b) && Qc_eqb (snd a) (snd b).

(** The loop that fills [coord]. *)
Definition coord_of (solar_plant : list solar_plant_row)
  : list (key * list (Z * Qc)) :=
  fold_left
    (fun coord p =>
       let k := (lon p, lat p) in
       match dict_get key_eqb coord k with
       | None => dict_set key_eqb coord k [(plant_index p, Pmax p)]
       | Some plants =>
           dict_set key_eqb coord k (plants ++ [(plant_index p, Pmax p)])
       end)
    solar_plant [].

Definition year : Z := 2016.

(** The literal list the loop runs over, in place of [coord.keys()]. *)
Definition toto : list key :=
  [ (Q2Qc (-1224056 # 10000), Q2Qc (45584722 # 1000000));
    (Q2Qc (-1224331 # 10000), Q2Qc (484481 # 10000)) ].

(** ** The estimation loop *)

(** A row of [data]: the time index and the columns Pout and id. *)
Record row : Type := {
  time_index : Z;
  Pout : cell;
  id : Z
}.

(** The frame object [data_loc]: its index, its column Pout and, once a plant
    has been written into it, its column id. *)
Record loc_frame : Type := {
  loc_index : list Z;
  loc_Pout : list cell;
  loc_id : list Z
}.

(** [range(1, n + 1)] *)
Definition range1 (n : nat) : list Z := map Z.of_nat (seq 1 n).

(** The rows of a frame with the columns Pout and id. *)
Fixpoint rows_of (idx : list Z) (pout : list cell) (ids : list Z) : list row :=
  match idx, pout, ids with
  | t :: idx', p :: pout', i :: ids' =>
      {| time_index := t; Pout := p; id := i |} :: rows_of idx' pout' ids'
  | _, _, _ => []
  end.

(** [pd.DataFrame(ghi, index=range(1, len(ghi)+1), columns=['Pout'])] followed
    by [data_loc / data_loc.max()]. *)
Definition normalize (ghi : list Qc) : loc_frame :=
  let pout := map Some ghi in
  {| loc_index := range1 (List.length ghi);
     loc_Pout := map (fun x => cell_div x (series_max pout)) pout;
     loc_id := [] |}.

(** [Series * [k]]: numpy broadcasts the one-element list over the series. *)
Definition series_mul_list1 (s : list cell) (k : Qc) : list cell :=
  map (fun x => cell_mul x k) s.

(** [Series * n] for an integer [n]. *)
Definition series_mul_int (s : list cell) (n : nat) : list cell :=
  map (fun x => cell_mul x (Qc_of_nat n)) s.

Definition is_empty (data : list row) : bool :=
  match data with
  | [] => true
  | _ :: _ => false
  end.

(** The body of the loop over the plants [i = (identifier, Pmax)] of one
    location.  [data_site = data_loc] binds the same frame object, so the two
    column assignments are made on [data_loc] itself: the state carries the
    object from one plant to the next.  The product
    [data_site['Pout']*[i[1]]*len(data_loc)] associates to the left. *)
Definition plant_pass (state : loc_frame * list row) (i : Z * Qc)
  : loc_frame * list row :=
  let data_loc := fst state in
  let data := snd state in
  let n := List.length (loc_index data_loc) in
  let data_site :=
    {| loc_index := loc_index data_loc;
       loc_Pout := series_mul_int (series_mul_list1 (loc_Pout data_loc) (snd i)) n;
       loc_id := repeat (fst i) n |} in
  let block := rows_of (loc_index data_site) (loc_Pout data_site) (loc_id data_site) in
  (data_site, if is_empty data then List.concat [data; block] else data ++ block).

Section Estimator.

(** [pd.read_csv(url + '&' + payload + '&' + query, skiprows=2).GHI.values]:
    the archive, as a function of the location. *)
Variable read_csv_GHI : key -> list Qc.

Variable coord : list (key * list (Z * Qc)).

(** The body of the loop over the locations; [coord[key]] raises [KeyError]
    for a location without a plant. *)
Definition location_pass (data : list row) (k : key) : option (list row) :=
  let data_loc := normalize (read_csv_GHI k) in
  plants <- dict_get key_eqb coord k ;;
  Some (snd (fold_left plant_pass plants (data_loc, data))).

(** The loop over a list of locations, from the empty [data]. *)
Definition estimate (keys : list key) : option (list row) :=
  for_each location_pass keys [].

End Estimator.

(** ** Sorting and writing *)

(** [Index.is_monotonic_increasing] *)
Fixpoint is_monotonic_increasing (idx : list Z) : bool :=
  match idx with
  | [] => true
  | x :: rest =>
      match rest with
      | [] => true
      | y :: _ => (x <=? y) && is_monotonic_increasing rest
      end
  end.

Definition tab : string := String (ascii_of_nat 9) EmptyString.

Definition newline : string := String (ascii_of_nat 10) EmptyString.

Definition name : string := ("western_Pout_" ++ str_int year ++ ".txt")%string.

Section Writer.

(** numpy's sort of the rows by their index ([kind='quicksort'], the
    default).  It is not stable: the order in which it leaves rows of equal
    index is the library's, and the model does not fix it. *)
Variable quicksort : list row -> list row.

(** [data.sort_index(inplace=True)]: pandas leaves a table whose index is
    already non-decreasing as it is, and sorts any other. *)
Definition sort_index (data : list row) : list row :=
  if is_monotonic_increasing (map time_index data) then data
  else quicksort data.

(** The text [to_csv] writes for a float. *)
Variable repr_float : Qc -> string.

(** [nan] is written as the empty field. *)
Definition csv_float (c : cell) : string :=
  match c with
  | Some q => repr_float q
  | None => EmptyString
  end.

(** One line of [to_csv(name, sep='\t', header=None, index=True,
    columns=['id','Pout'])]: the index, then id, then Pout.  The column id
    of [data] is float64: the empty frame is created with float columns, and
    [concat] and [append] keep the type.  The identifier is written as a
    float. *)
Definition csv_line (r : row) : string :=
  (str_int (time_index r) ++ tab ++ repr_float (Qc_of_Z (id r)) ++ tab
   ++ csv_float (Pout r) ++ newline)%string.

Definition to_csv (data : list row) : string :=
  String.concat EmptyString (map csv_line data).

(** The whole script for a list of locations: the file name and its text. *)
Definition script (read_csv_GHI : key -> list Qc)
  (solar_plant : list solar_plant_row) (keys : list key)
  : option (string * string) :=
  data <- estimate read_csv_GHI (coord_of solar_plant) keys ;;
  Some (name, to_csv (sort_index data)).

(** A file of the two columns (plant identifier, estimated power), for
    comparison with the file the code writes. *)
Definition two_column_file (data : list row) : string :=
  String.concat EmptyString
    (map (fun r => (repr_float (Qc_of_Z (id r)) ++ tab ++ csv_float (Pout r)
                    ++ newline)%string) data).

End Writer.

(** What is known of numpy's sort: it rearranges the rows, in non-decreasing
    order of the index. *)
Definition sorts_by_index (quicksort : list row -> list row) : Prop :=
  forall data,
    Permutation (quicksort data) data /\
    StronglySorted Z.le (map time_index (quicksort data)).

(** A sort for the examples: insertion from the right. *)
Fixpoint insert_row (r : row) (sorted : list row) : list row :=
  match sorted with
  | [] => [r]
  | x :: rest =>
      if time_index r <=? time_index x then r :: x :: rest
      else x :: insert_row r rest
  end.

Definition insertion_sort (data : list row) : list row :=
  fold_right insert_row [] data.

(** ** Reading the accumulated table *)

(** The passes of the inner loop, in order: one per location of the list and
    plant of that location. *)
Definition plant_passes (coord : list (key * list (Z * Qc))) (keys : list key)
  : list (key * (Z * Qc)) :=
  flat_map (fun k => match dict_get key_eqb coord k with
                     | Some plants => map (pair k) plants
                     | None => []
                     end) keys.

(** The block of rows a pass appends: the time index runs from 1 to the
    length of the location's series, and every row carries the plant. *)
Definition block_of (read_csv_GHI : key -> list Qc) (pass : key * (Z * Qc))
  (block : list row) : Prop :=
  map time_index block = range1 (List.length (read_csv_GHI (fst pass))) /\
  map id block = repeat (fst (snd pass)) (List.length (read_csv_GHI (fst pass))).

(** A row with its float shown as a fraction in lowest terms. *)
Definition row_view (r : row) : Z * option Q * Z :=
  (time_index r, option_map this (Pout r), id r).

(** ** The scenario of two plants at one location

    Two plants of 10 MW and 20 MW at the first location of [toto], and an
    archive that answers the series 0, 50, 100 for every location. *)

Definition two_plants : list solar_plant_row :=
  [ {| plant_index := 101; lon := Q2Qc (-1224056 # 10000);
       lat := Q2Qc (45584722 # 1000000); Pmax := Q2Qc 10 |};
    {| plant_index := 102; lon := Q2Qc (-1224056 # 10000);
       lat := Q2Qc (45584722 # 1000000); Pmax := Q2Qc 20 |} ].

Definition ghi_0_50_100 (k : key) : list Qc := [Q2Qc 0; Q2Qc 50; Q2Qc 100].

(** A float text for the examples: [repr] of a float of integral value, as
    in ['15.0']. *)
Definition repr_integral (q : Qc) : string :=
  (str_int (Qnum (this q)) ++ ".0")%string.

(** The first plant of the scenario alone. *)
Definition one_plant : list solar_plant_row :=
  [ {| plant_index := 101; lon := Q2Qc (-1224056 # 10000);
       lat := Q2Qc (45584722 # 1000000); Pmax := Q2Qc 10 |} ].

(** ** Reading [coord] *)

(** The plants at a location, as [coord] lists them: identifier and capacity,
    in the order of the plant table. *)
Definition plants_at (solar_plant : list solar_plant_row) (k : key)
  : list (Z * Qc) :=
  map (fun p => (plant_index p, Pmax p))
      (filter (fun p => key_eqb (lon p, lat p) k) solar_plant).

(** The entry of a location once more plants have been appended to it. *)
Definition group_after (entry : option (list (Z * Qc))) (more : list (Z * Qc))
  : option (list (Z * Qc)) :=
  match entry, more with
  | None, [] => None
  | None, _ :: _ => Some more
  | Some plants, _ => Some (plants ++ more)
  end.

(** The factor a series has been multiplied by after the passes of [plants]
    over a frame of [n] rows: each pass multiplies by the capacity and by
    [n]. *)
Definition cumulative_factor (n : nat) (plants : list (Z * Qc)) : Qc :=
  fold_left (fun acc i => (acc * (snd i * Qc_of_nat n))%Qc) plants (Q2Qc 1).

End Naive.

(** * Properties *)

(** ** Loops and dictionaries *)

Section LoopFacts.

Context {A S : Type}.
Variable body : S -> A -> option S.
Variable Inv : S -> Prop.

(** A loop whose body keeps an invariant, and does not raise under it,
    returns a state that satisfies it. *)
Lemma for_each_invariant (l : list A) (init : S) :
  Inv init ->
  (forall acc x, In x l -> Inv acc -> exists acc', body acc x = Some acc' /\ Inv acc') ->
  exists r, for_each body l init = Some r /\ Inv r.
Proof.
  revert init. induction l as [| x l IH]; intros init Hinit Hbody.
  - exists init. split; [reflexivity | exact Hinit].
  - destruct (Hbody init x (or_introl eq_refl) Hinit) as (acc' & Hstep & Hacc').
    destruct (IH acc' Hacc') as (r & Hr & HI).
    + intros acc y Hy. apply Hbody. right; exact Hy.
    + exists r. cbn [for_each]. rewrite Hstep. split; assumption.
Qed.

(** The same for a loop that is known to return. *)
Lemma for_each_preserves (l : list A) (init r : S) :
  Inv init ->
  (forall acc x acc', In x l -> Inv acc -> body acc x = Some acc' -> Inv acc') ->
  for_each body l init = Some r -> Inv r.
Proof.
  revert init. induction l as [| x l IH]; intros init Hinit Hbody Hrun.
  - cbn in Hrun. injection Hrun as <-. exact Hinit.
  - cbn [for_each] in Hrun. destruct (body init x) as [acc' |] eqn:Hstep;
      [| discriminate].
    apply (IH acc'); [| | exact Hrun].
    + eapply Hbody; [left; reflexivity | exact Hinit | exact Hstep].
    + intros acc y acc'' Hy. apply Hbody. right; exact Hy.
Qed.

End LoopFacts.

Lemma dict_set_Forall {K V : Type} (eqb : K -> K -> bool) (P : K * V -> Prop)
  (d : list (K * V)) (k : K) (v : V) :
  Forall P d -> P (k, v) -> Forall P (dict_set eqb d k v).
Proof.
  intros Hd Hkv. induction Hd as [| [k' v'] d Hx Hd IH]; cbn [dict_set].
  - constructor; [exact Hkv | constructor].
  - destruct (eqb k' k); constructor; assumption.
Qed.

Lemma unique_In (l : list Z) (x : Z) : In x (unique l) <-> In x l.
Proof.
  induction l as [| y l IH]; [reflexivity |].
  cbn [unique]. split.
  - intros [-> | Hin]; [left; reflexivity |].
    apply filter_In in Hin. right. apply IH, Hin.
  - intros [-> | Hin]; [left; reflexivity |].
    destruct (Z.eq_dec x y) as [-> | Hne]; [left; reflexivity |].
    right. apply filter_In. split; [apply IH, Hin |].
    apply negb_true_iff, Z.eqb_neq. exact Hne.
Qed.

(** ** Decimal texts *)

Lemma dashes_app (a b : string) : dashes (a ++ b) = (dashes a + dashes b)%nat.
Proof.
  induction a as [| c a IH]; [reflexivity |].
  cbn [append dashes]. rewrite IH. lia.
Qed.

Lemma dashes_uint (d : Decimal.uint) : dashes (NilEmpty.string_of_uint d) = 0%nat.
Proof.
  induction d; cbn; auto.
Qed.

Lemma uint_first_char (d : Decimal.uint) :
  d <> Decimal.Nil ->
  exists c rest, NilEmpty.string_of_uint d = String c rest /\ c <> "-"%char.
Proof.
  intros Hd. destruct d; [congruence | ..]; cbn;
    eexists; eexists; (split; [reflexivity | discriminate]).
Qed.

Lemma str_int_nonneg (y : Z) :
  (0 <= y)%Z ->
  dashes (str_int y) = 0%nat /\
  exists c rest, str_int y = String c rest /\ c <> "-"%char.
Proof.
  intros Hy. unfold str_int. destruct y as [| p | p]; [| | lia]; cbn.
  - split; [reflexivity |]. eexists; eexists. split; [reflexivity | discriminate].
  - split; [apply dashes_uint |].
    apply uint_first_char, DecimalPos.Unsigned.to_uint_nonnil.
Qed.

Lemma str_int_neg (y : Z) :
  (y < 0)%Z ->
  dashes (str_int y) = 1%nat /\ exists rest, str_int y = String "-" rest.
Proof.
  intros Hy. unfold str_int. destruct y as [| p | p]; [lia | lia |]; cbn.
  rewrite dashes_uint. split; [reflexivity |]. eexists; reflexivity.
Qed.

(** ** The distance function *)

Module TeWindProps.

Import TeWind.

Local Open Scope R_scope.

Lemma haversin_bounds (x : R) : 0 <= haversin x <= 1.
Proof.
  unfold haversin.
  pose proof (SIN_bound (x / 2)) as [Hlo Hhi].
  split; nra.
Qed.

Lemma haversin_opp (x : R) : haversin (- x) = haversin x.
Proof.
  unfold haversin.
  replace (- x / 2) with (- (x / 2)) by lra.
  rewrite sin_neg; ring.
Qed.

Lemma haversin_cos (x : R) : haversin x = (1 - cos x) / 2.
Proof.
  unfold haversin.
  replace (cos x) with (cos (2 * (x / 2))) by (f_equal; lra).
  rewrite cos_2a_sin; lra.
Qed.

(** Along the meridian of the first point the argument is
    [(1 + cos (lat1 + lat2)) / 2]. *)
Lemma haversin_plus_cos (lat1 lat2 : R) :
  haversin (lat2 - lat1) + cos lat1 * cos lat2 = (1 + cos (lat1 + lat2)) / 2.
Proof.
  rewrite haversin_cos, cos_minus, cos_plus; lra.
Qed.

(** The argument of the square root is a convex combination of two numbers of
    [[0, 1]], whatever the four angles. *)
Lemma sqrt_arg_bounds (lat1 lon1 lat2 lon2 : R) :
  0 <= sqrt_arg lat1 lon1 lat2 lon2 <= 1.
Proof.
  unfold sqrt_arg.
  pose proof (haversin_bounds (lat2 - lat1)) as [Ha0 Ha1].
  pose proof (haversin_bounds (lon2 - lon1)) as [Hs0 Hs1].
  pose proof (haversin_plus_cos lat1 lat2) as Hb.
  pose proof (COS_bound (lat1 + lat2)) as [Hc0 Hc1].
  set (A := haversin (lat2 - lat1)) in *.
  set (s := haversin (lon2 - lon1)) in *.
  set (c := cos lat1 * cos lat2) in *.
  assert (HB0 : 0 <= A + c) by lra.
  assert (HB1 : A + c <= 1) by lra.
  split; nra.
Qed.

Lemma math_sqrt_defined (x : R) : 0 <= x -> math_sqrt x = Some (sqrt x).
Proof.
  intros Hx. unfold math_sqrt.
  destruct (Rlt_dec x 0); [lra | reflexivity].
Qed.

Lemma math_asin_defined (x : R) : -1 <= x <= 1 -> math_asin x = Some (asin x).
Proof.
  intros [Hlo Hhi]. unfold math_asin.
  destruct (Rlt_dec x (-1)); [lra |].
  destruct (Rlt_dec 1 x); [lra | reflexivity].
Qed.

Lemma sqrt_unit (x : R) : 0 <= x <= 1 -> 0 <= sqrt x <= 1.
Proof.
  intros [Hlo Hhi]. split; [apply sqrt_pos |].
  rewrite <- sqrt_1. apply sqrt_le_1_alt; exact Hhi.
Qed.

Lemma asin_nonneg (x : R) : 0 <= x <= 1 -> 0 <= asin x <= PI / 2.
Proof.
  intros [Hlo Hhi].
  pose proof (asin_bound x) as [Hb0 Hb1].
  split; [| exact Hb1].
  destruct (Rle_dec 0 (asin x)) as [Hge | Hlt]; [exact Hge |].
  exfalso.
  assert (Hneg : sin (asin x) < 0).
  { apply sin_lt_0_var; pose proof PI_RGT_0; lra. }
  rewrite sin_asin in Hneg by lra. lra.
Qed.

(** The call is defined on every input, and returns the value
    [R*2 * asin (sqrt arg)]. *)
Lemma distance_defined (lat1 lon1 lat2 lon2 : R) :
  _greatCircleDistance lat1 lon1 lat2 lon2 =
  Some (R_earth * 2 * asin (sqrt (sqrt_arg lat1 lon1 lat2 lon2))).
Proof.
  unfold _greatCircleDistance.
  pose proof (sqrt_arg_bounds lat1 lon1 lat2 lon2) as Harg.
  fold (sqrt_arg lat1 lon1 lat2 lon2).
  rewrite math_sqrt_defined by apply Harg. cbn [bind].
  pose proof (sqrt_unit _ Harg) as Hroot.
  rewrite math_asin_defined by lra. reflexivity.
Qed.

Lemma distance_range (lat1 lon1 lat2 lon2 : R) :
  0 <= R_earth * 2 * asin (sqrt (sqrt_arg lat1 lon1 lat2 lon2)) <= PI * 6368.
Proof.
  pose proof (sqrt_unit _ (sqrt_arg_bounds lat1 lon1 lat2 lon2)) as Hroot.
  pose proof (asin_nonneg _ Hroot) as [Ha0 Ha1].
  unfold R_earth. split; nra.
Qed.

Lemma sqrt_arg_sym (lat1 lon1 lat2 lon2 : R) :
  sqrt_arg lat1 lon1 lat2 lon2 = sqrt_arg lat2 lon2 lat1 lon1.
Proof.
  unfold sqrt_arg.
  rewrite <- (haversin_opp (lat1 - lat2)), <- (haversin_opp (lon1 - lon2)).
  replace (- (lat1 - lat2)) with (lat2 - lat1) by lra.
  replace (- (lon1 - lon2)) with (lon2 - lon1) by lra.
  ring.
Qed.

Lemma sqrt_arg_same (lat lon : R) : sqrt_arg lat lon lat lon = 0.
Proof.
  unfold sqrt_arg, haversin.
  replace ((lat - lat) / 2) with 0 by lra.
  replace ((lon - lon) / 2) with 0 by lra.
  rewrite sin_0; ring.
Qed.

Lemma sqrt_arg_quarter : sqrt_arg 0 0 0 (PI / 2) = (sin (PI / 4)) ^ 2.
Proof.
  unfold sqrt_arg, haversin.
  replace ((0 - 0) / 2) with 0 by lra.
  replace ((PI / 2 - 0) / 2) with (PI / 4) by lra.
  rewrite sin_0, cos_0; ring.
Qed.

Lemma PI_lower : 314159 / 100000 < PI.
Proof.
  pose proof (PI_2_3_7_ineq 3) as [H _].
  unfold sum_f_R0, tg_alt, PI_2_3_7_tg, Ratan_seq in H. simpl in H.
  lra.
Qed.

Lemma PI_upper : PI < 314160 / 100000.
Proof.
  pose proof (PI_2_3_7_ineq 3) as [_ H].
  unfold sum_f_R0, tg_alt, PI_2_3_7_tg, Ratan_seq in H. simpl in H.
  lra.
Qed.

Lemma distance_quarter :
  _greatCircleDistance 0 0 0 (PI / 2) = Some (6368 * PI / 2).
Proof.
  rewrite distance_defined, sqrt_arg_quarter.
  pose proof PI_RGT_0 as Hpi.
  assert (Hs : 0 <= sin (PI / 4)) by (apply sin_ge_0; lra).
  rewrite sqrt_pow2 by exact Hs.
  rewrite asin_sin by (split; lra).
  unfold R_earth. f_equal. lra.
Qed.

Lemma haversine_formula_eq (lat1 lon1 lat2 lon2 : R) :
  R_earth * 2 * asin (sqrt (sqrt_arg lat1 lon1 lat2 lon2)) =
  haversine_formula lat1 lon1 lat2 lon2.
Proof.
  unfold haversine_formula, sqrt_arg, haversin, R_earth.
  rewrite !Rsqr_pow2. ring.
Qed.

(** C4 (amended): the call returns the haversine value with R = 6368 km on
    every input; a point is at distance 0 from itself; the distance is
    symmetric; and from (0, 0) to (0, pi/2) it is R pi / 2, which is
    10,002.8 km to within 0.1 km. *)
Theorem great_circle_distance_haversine :
  (forall lat1 lon1 lat2 lon2,
      _greatCircleDistance lat1 lon1 lat2 lon2 =
      Some (haversine_formula lat1 lon1 lat2 lon2)) /\
  (forall lat lon, _greatCircleDistance lat lon lat lon = Some 0) /\
  (forall lat1 lon1 lat2 lon2,
      _greatCircleDistance lat1 lon1 lat2 lon2 =
      _greatCircleDistance lat2 lon2 lat1 lon1) /\
  _greatCircleDistance 0 0 0 (PI / 2) = Some (6368 * PI / 2) /\
  Rabs (6368 * PI / 2 - 100028 / 10) <= 1 / 10.
Proof.
  repeat split.
  - intros. rewrite distance_defined, haversine_formula_eq. reflexivity.
  - intros. rewrite distance_defined, sqrt_arg_same, sqrt_0, asin_0.
    f_equal. ring.
  - intros. rewrite !distance_defined, (sqrt_arg_sym lat1 lon1 lat2 lon2).
    reflexivity.
  - exact distance_quarter.
  - pose proof PI_lower. pose proof PI_upper.
    apply Rabs_le. split; lra.
Qed.

(** C4, as stated: the quarter circumference is not within 0.1 km of
    10,002.5 km. *)
Lemma quarter_circumference_off_10002_5 :
  exists d, _greatCircleDistance 0 0 0 (PI / 2) = Some d /\
            ~ Rabs (d - 100025 / 10) <= 1 / 10.
Proof.
  exists (6368 * PI / 2). split; [exact distance_quarter |].
  intros Habs. pose proof PI_lower as Hpi.
  pose proof (Rle_abs (6368 * PI / 2 - 100025 / 10)). lra.
Qed.

(** ** The call on binary64 *)



(** With the same tables the call from the point (1.0, 0.0) to itself
    returns 0.0. *)
Lemma binary64_same_point :
  TeWind64._greatCircleDistance TeWind64.libm_sin TeWind64.libm_cos
    TeWind64.libm_asin
    TeWind64.lat1_rad TeWind64.lon1_rad TeWind64.lat1_rad TeWind64.lon1_rad =
  Some PrimFloat.zero.
Proof.
  vm_compute. reflexivity.
Qed.

(** The binary64 matcher on a one-site catalog whose site has the coordinates
    of the wind farm: the site is matched at distance 0.0. *)
Lemma binary64_matcher_returns :
  TeWind64.find_NREL_siteID_closest_to_windfarm
    TeWind64.libm_sin TeWind64.libm_cos TeWind64.libm_asin
    [TeWind64.site_rad] [TeWind64.farm_rad] =
  Some [ {| TeWind64.closest_plantID := 8; TeWind64.siteID := 3;
            TeWind64.capacity := TeWind64.site_capacity TeWind64.site_rad;
            TeWind64.dist := PrimFloat.zero |} ].
Proof.
  vm_compute. reflexivity.
Qed.



(** ** The site matcher *)

Lemma map_each_total {A B : Type} (f : A -> option B) (g : A -> B) (l : list A) :
  (forall x, f x = Some (g x)) -> map_each f l = Some (map g l).
Proof.
  intros Hf. induction l as [| x l IH]; [reflexivity |].
  cbn [map_each map]. rewrite Hf, IH. reflexivity.
Qed.

Lemma site_distance_eq (s : nrel_site) (p : wind_farm) :
  _greatCircleDistance (site_lat s) (site_lon s) (bus_lat p) (bus_lon p) =
  Some (site_distance s p).
Proof.
  unfold site_distance. rewrite distance_defined. reflexivity.
Qed.

Section FirstMinimum.

Context {A : Type}.
Variable f : A -> R.

(** A non-empty list splits at the first of its elements of least [f]. *)
Lemma first_min_split (l : list A) :
  l <> [] ->
  exists before s after,
    l = before ++ s :: after /\
    Forall (fun x => f s < f x) before /\
    Forall (fun x => f s <= f x) after.
Proof.
  induction l as [| x l IH]; [congruence | intros _].
  destruct l as [| y l'].
  - exists [], x, []. repeat split; constructor.
  - destruct IH as (before & s & after & Heq & Hb & Ha); [congruence |].
    destruct (Rle_dec (f x) (f s)) as [Hle | Hgt].
    + exists [], x, (y :: l'). repeat split; [constructor |].
      rewrite Heq. apply Forall_app. split.
      * eapply Forall_impl; [| exact Hb]. cbn. intros. lra.
      * constructor; [exact Hle |].
        eapply Forall_impl; [| exact Ha]. cbn. intros. lra.
    + exists (x :: before), s, after. repeat split.
      * rewrite Heq. reflexivity.
      * constructor; [lra | exact Hb].
      * exact Ha.
Qed.

Lemma fold_Rmin_le (l : list R) (a : R) :
  fold_left Rmin l a <= a /\ Forall (fun x => fold_left Rmin l a <= x) l.
Proof.
  revert a. induction l as [| x l IH]; intros a; cbn [fold_left].
  - split; [lra | constructor].
  - destruct (IH (Rmin a x)) as [H1 H2].
    pose proof (Rmin_l a x). pose proof (Rmin_r a x).
    split; [lra |]. constructor; [lra | exact H2].
Qed.

Lemma fold_Rmin_in (l : list R) (a : R) : In (fold_left Rmin l a) (a :: l).
Proof.
  revert a. induction l as [| x l IH]; intros a; cbn [fold_left].
  - left; reflexivity.
  - destruct (IH (Rmin a x)) as [H | H].
    + unfold Rmin in H at 1. destruct (Rle_dec a x).
      * left; exact H.
      * right; left; exact H.
    + right; right; exact H.
Qed.

(** [dist.min()] is the value at the split point. *)
Lemma series_min_split (before after : list A) (s : A) :
  Forall (fun x => f s < f x) before ->
  Forall (fun x => f s <= f x) after ->
  series_min (map f (before ++ s :: after)) = Some (f s).
Proof.
  intros Hb Ha.
  assert (Hall : Forall (fun x => f s <= f x) (before ++ s :: after)).
  { apply Forall_app. split.
    - eapply Forall_impl; [| exact Hb]. cbn. intros. lra.
    - constructor; [lra | exact Ha]. }
  remember (before ++ s :: after) as l eqn:Hl.
  assert (Hin : In s l) by (subst l; apply in_elt).
  destruct l as [| x l']; [destruct Hin |].
  cbn [map series_min]. f_equal.
  pose proof (fold_Rmin_le (map f l') (f x)) as [H1 H2].
  pose proof (fold_Rmin_in (map f l') (f x)) as H3.
  apply Rle_antisym.
  - change (f x :: map f l') with (map f (x :: l')) in H3.
    assert (Hs : In (f s) (map f (x :: l'))) by (apply in_map; exact Hin).
    destruct Hs as [Hs | Hs].
    + rewrite <- Hs. exact H1.
    + rewrite Forall_forall in H2. apply H2. exact Hs.
  - change (f x :: map f l') with (map f (x :: l')) in H3.
    apply in_map_iff in H3. destruct H3 as (y & Hy & Hiny).
    rewrite <- Hy. rewrite Forall_forall in Hall. apply Hall. exact Hiny.
Qed.

(** Selecting with [dist == dist.min()] and taking [values[0]] reads the
    column at the split point. *)
Lemma first_selected {B : Type} (g : A -> B) (before after : list A) (s : A) :
  Forall (fun x => f s < f x) before ->
  values0 (boolean_index (map g (before ++ s :: after))
                         (eq_mask (map f (before ++ s :: after)) (Some (f s)))) =
  Some (g s).
Proof.
  intros Hb. induction Hb as [| x before Hx Hb IH]; cbn.
  - unfold float_eqb. destruct (Req_dec_T (f s) (f s)); [reflexivity | congruence].
  - unfold float_eqb at 1. destruct (Req_dec_T (f x) (f s)); [lra | exact IH].
Qed.

End FirstMinimum.

Lemma closest_row_nearest (nrel_sites : list nrel_site) (row : wind_farm) :
  nrel_sites <> [] ->
  exists m, closest_row nrel_sites row = Some m /\ nearest_match nrel_sites row m.
Proof.
  intros Hne.
  destruct (first_min_split (fun s => site_distance s row) nrel_sites Hne)
    as (before & s & after & Heq & Hb & Ha).
  exists {| closest_plantID := plantID row; siteID := site_id s;
            capacity := site_capacity s; dist := site_distance s row |}.
  split.
  - unfold closest_row.
    rewrite (map_each_total _ (fun s => site_distance s row))
      by (intros; apply site_distance_eq).
    cbn [bind]. rewrite Heq.
    rewrite (series_min_split (fun s => site_distance s row)) by assumption.
    rewrite !(first_selected (fun s => site_distance s row)) by assumption.
    reflexivity.
  - split; [reflexivity |].
    exists before, s, after. cbn. repeat split; assumption.
Qed.

Lemma matcher_defined (nrel_sites : list nrel_site) (wind_farm_bus : list wind_farm) :
  nrel_sites <> [] ->
  exists closest,
    find_NREL_siteID_closest_to_windfarm nrel_sites wind_farm_bus = Some closest /\
    Forall2 (nearest_match nrel_sites) wind_farm_bus closest.
Proof.
  intros Hne. unfold find_NREL_siteID_closest_to_windfarm.
  induction wind_farm_bus as [| row bus IH].
  - exists []. split; [reflexivity | constructor].
  - destruct IH as (closest & Hrun & Hall).
    destruct (closest_row_nearest nrel_sites row Hne) as (m & Hm & Hnear).
    exists (m :: closest). cbn [map_each]. rewrite Hm, Hrun.
    split; [reflexivity | constructor; assumption].
Qed.



(** What follows does not use that the distance call always returns over
    exact reals: it holds of the matcher around any distance call. *)
















(** ** The resource data fetcher *)

Lemma month_label_split (y m : Z) :
  exists rest, month_label y m = (str_int y ++ String "-" rest)%string.
Proof.
  unfold month_label. destruct (m <? 10)%Z; eexists; reflexivity.
Qed.

(** A year label is never a month label. *)
Lemma str_int_not_month_label (y y' m' : Z) : str_int y <> month_label y' m'.
Proof.
  intros H. destruct (month_label_split y' m') as (rest & Hl).
  rewrite Hl in H.
  pose proof (f_equal dashes H) as Hd.
  rewrite dashes_app in Hd.
  change (dashes (String "-" rest)) with (S (dashes rest)) in Hd.
  destruct (Z_lt_le_dec y 0) as [Hneg | Hpos].
  - destruct (str_int_neg y Hneg) as (Hy & r & Hfirst).
    destruct (Z_lt_le_dec y' 0) as [Hneg' | Hpos'].
    + destruct (str_int_neg y' Hneg') as (Hy' & _). lia.
    + destruct (str_int_nonneg y' Hpos') as (_ & c & r' & Hfirst' & Hc).
      rewrite Hfirst, Hfirst' in H. cbn in H. congruence.
  - destruct (str_int_nonneg y Hpos) as (Hy & _). lia.
Qed.

Lemma in_period_year (y t : Z) :
  in_period (str_int y) t = true <-> str_int y = str_int (year_of t).
Proof.
  unfold in_period. rewrite orb_true_iff, !String.eqb_eq. split.
  - intros [H | H]; [exact H |]. exfalso. eapply str_int_not_month_label, H.
  - intros H; left; exact H.
Qed.

Lemma in_period_month (y m t : Z) :
  in_period (month_label y m) t = true <->
  month_label y m = month_label (year_of t) (month_of t).
Proof.
  unfold in_period. rewrite orb_true_iff, !String.eqb_eq. split.
  - intros [H | H]; [| exact H]. exfalso.
    symmetry in H. eapply str_int_not_month_label, H.
  - intros H; right; exact H.
Qed.

Lemma month_label_year (y y' m : Z) :
  str_int y = str_int y' -> month_label y m = month_label y' m.
Proof.
  intros H. unfold month_label. rewrite H. reflexivity.
Qed.

(** A month met while scanning the rows of year [y] has a timestamp in the
    range. *)
Lemma month_of_year_selected (data_range : list Z) (y m : Z) :
  In m (unique (map month_of (select_rows (str_int y) data_range))) ->
  select_rows (month_label y m) data_range <> [].
Proof.
  intros Hm. apply unique_In, in_map_iff in Hm.
  destruct Hm as (t & Hmt & Ht).
  apply filter_In in Ht. destruct Ht as (Hin & Hper).
  apply in_period_year in Hper.
  assert (Hsel : In t (select_rows (month_label y m) data_range)).
  { apply filter_In. split; [exact Hin |].
    apply in_period_month. rewrite <- Hmt. apply month_label_year, Hper. }
  intros Hnil. rewrite Hnil in Hsel. destruct Hsel.
Qed.

Lemma values0_defined {A : Type} (a : list A) :
  a <> [] -> exists x, values0 a = Some x.
Proof.
  destruct a as [| x a]; [congruence |]. intros _. exists x. reflexivity.
Qed.

Lemma values_last_defined {A : Type} (a : list A) :
  a <> [] -> exists x, values_last a = Some x.
Proof.
  intros Ha. unfold values_last. apply values0_defined.
  intros Hrev. apply Ha. rewrite <- (rev_involutive a), Hrev. reflexivity.
Qed.

Section FetcherFacts.

Variable get_nc_data_from_url : Z -> Z -> Z -> site_data.
Variable siteIDs : list site_match.
Variable data_range : list Z.

Let entry_ok (month : string) (e : Z * site_data) : Prop :=
  normalized_entry get_nc_data_from_url siteIDs data_range month (fst e) (snd e).

Let month_ok (e : string * list (Z * site_data)) : Prop :=
  Forall (entry_ok (fst e)) (snd e).

Lemma fetch_sites_entries (month : string) (start end_ : Z) :
  values0 (select_rows month data_range) = Some start ->
  values_last (select_rows month data_range) = Some end_ ->
  Forall (entry_ok month) (fetch_sites get_nc_data_from_url siteIDs start end_).
Proof.
  intros Hs He. unfold fetch_sites.
  assert (Hgen : forall rows acc,
             incl rows (drop_duplicates siteIDs) ->
             Forall (entry_ok month) acc ->
             Forall (entry_ok month)
               (fold_left
                  (fun month_dict row =>
                     dict_set Z.eqb month_dict (siteID row)
                       (frame_div (get_nc_data_from_url (siteID row) start end_)
                                  (capacity row)))
                  rows acc)).
  { induction rows as [| row rows IH]; intros acc Hincl Hacc; [exact Hacc |].
    cbn [fold_left]. apply IH.
    - intros r Hr. apply Hincl. right; exact Hr.
    - apply dict_set_Forall; [exact Hacc |].
      exists start, end_, row. cbn.
      repeat split; try assumption; try reflexivity.
      apply Hincl. left; reflexivity. }
  apply Hgen; [apply incl_refl | constructor].
Qed.

Lemma fetch_month_step (y m : Z)
  (sites_dict : list (string * list (Z * site_data))) :
  In m (unique (map month_of (select_rows (str_int y) data_range))) ->
  Forall month_ok sites_dict ->
  exists sites_dict',
    fetch_month get_nc_data_from_url siteIDs data_range y sites_dict m =
    Some sites_dict' /\ Forall month_ok sites_dict'.
Proof.
  intros Hm Hok. apply month_of_year_selected in Hm.
  destruct (values0_defined _ Hm) as (start & Hs).
  destruct (values_last_defined _ Hm) as (end_ & He).
  unfold fetch_month. rewrite Hs, He. cbn [bind].
  eexists. split; [reflexivity |].
  apply dict_set_Forall; [exact Hok |].
  apply fetch_sites_entries; assumption.
Qed.

Lemma fetcher_entries :
  exists sites_dict,
    get_data_from_NREL_server get_nc_data_from_url siteIDs data_range =
    Some sites_dict /\ Forall month_ok sites_dict.
Proof.
  unfold get_data_from_NREL_server.
  apply for_each_invariant; [constructor |].
  intros acc y _ Hacc. unfold fetch_year.
  apply for_each_invariant; [exact Hacc |].
  intros acc' m Hm Hacc'. apply fetch_month_step; assumption.
Qed.

End FetcherFacts.

(** C2 (amended): the fetcher returns, and for every month label and every
    site of its result the stored table is the provider's table with the
    power column and the wind_speed column both divided by the capacity of
    the site: the division is applied to the whole table. *)
Theorem fetcher_divides_every_column
  (get_nc_data_from_url : Z -> Z -> Z -> site_data)
  (siteIDs : list site_match) (data_range : list Z) :
  exists sites_dict,
    get_data_from_NREL_server get_nc_data_from_url siteIDs data_range =
    Some sites_dict /\
    forall month tables site table,
      In (month, tables) sites_dict ->
      In (site, table) tables ->
      normalized_entry get_nc_data_from_url siteIDs data_range month site table.
Proof.
  destruct (fetcher_entries get_nc_data_from_url siteIDs data_range)
    as (sites_dict & Hrun & Hok).
  exists sites_dict. split; [exact Hrun |].
  intros month tables site table Hm Hs.
  rewrite Forall_forall in Hok. specialize (Hok _ Hm). cbn in Hok.
  rewrite Forall_forall in Hok. exact (Hok _ Hs).
Qed.

(** C2, as stated: with a site of capacity 2 the stored wind_speed column is
    not the provider's. *)
Lemma fetcher_scales_wind_speed :
  exists table,
    get_data_from_NREL_server sample_provider sample_match sample_range =
    Some [("2016-01"%string, [(2%Z, table)])] /\
    wind_speed table <> wind_speed (sample_provider 2 1451606400 1451606700).
Proof.
  exists (frame_div (sample_provider 2 1451606400 1451606700) (Q2Qc 2)).
  split; [reflexivity |].
  intros H.
  apply (f_equal (map (option_map this))) in H.
  vm_compute in H. discriminate H.
Qed.

(** ** The reshaper *)

Lemma scatter_length (mask : list bool) (old values : list cell) :
  List.length (scatter mask old values) = List.length old.
Proof.
  revert old values. induction mask as [| b mask IH]; intros old values.
  - destruct old; reflexivity.
  - destruct old as [| x old]; [destruct b; reflexivity |].
    destruct b; [destruct values |]; cbn; rewrite IH; reflexivity.
Qed.

(** A cell of the result is the old cell, or the mask selects its row. *)
Lemma scatter_nth (mask : list bool) (old values : list cell) (i : nat) (c : cell) :
  nth_error (scatter mask old values) i = Some c ->
  nth_error old i = Some c \/ nth_error mask i = Some true.
Proof.
  revert old values i. induction mask as [| b mask IH]; intros old values i H.
  - left. destruct old; exact H.
  - destruct old as [| x old]; [left; destruct b; exact H |].
    destruct i as [| i].
    + destruct b; [right; reflexivity | left; exact H].
    + destruct b; [destruct values |]; cbn in H; apply IH in H; exact H.
Qed.

Lemma count_true_select (label : string) (idx : list Z) :
  count_true (map (in_period label) idx) = List.length (select_rows label idx).
Proof.
  unfold count_true, select_rows.
  induction idx as [| t idx IH]; [reflexivity |].
  cbn. destruct (in_period label t); cbn; rewrite IH; reflexivity.
Qed.

Lemma existsb_label (site : Z) (l : list Z) :
  In site l -> existsb (Z.eqb site) l = true.
Proof.
  intros Hin. apply existsb_exists. exists site.
  split; [exact Hin | apply Z.eqb_refl].
Qed.

Lemma labels_empty_frame (idx cols : list Z) : labels (empty_frame idx cols) = cols.
Proof.
  unfold labels, empty_frame. cbn. rewrite map_map. cbn. apply map_id.
Qed.

Lemma rectangular_empty_frame (idx cols : list Z) :
  rectangular (empty_frame idx cols).
Proof.
  unfold rectangular, empty_frame. cbn. apply Forall_forall.
  intros c Hc. apply in_map_iff in Hc. destruct Hc as (l & <- & _).
  cbn. apply repeat_length.
Qed.

Section ReshaperFacts.

Variable data : list (string * list (Z * site_data)).
Variable data_range : list Z.
Variable cols : list Z.

Local Abbreviation table_inv := (table_inv data data_range cols).

Lemma table_inv_empty : table_inv (empty_frame data_range cols).
Proof.
  repeat split.
  - apply labels_empty_frame.
  - apply rectangular_empty_frame.
  - intros i s column q Hin Hnth. exfalso.
    unfold empty_frame in Hin. cbn in Hin.
    apply in_map_iff in Hin. destruct Hin as (l & Heq & _).
    injection Heq as _ <-.
    apply nth_error_In, repeat_spec in Hnth. discriminate.
Qed.

Lemma loc_set_inv (f : frame) (month : string)
  (tables : list (Z * site_data)) (site : Z) (table : site_data)
  (values : list cell) :
  In (month, tables) data ->
  In (site, table) tables ->
  In site cols ->
  select_rows month data_range <> [] ->
  List.length values = List.length (select_rows month data_range) ->
  table_inv f ->
  exists f', loc_set f month site values = Some f' /\ table_inv f'.
Proof.
  intros Hmonth Hsite Hcol Hrows Hlen (Hidx & Hlab & Hrect & Hcov).
  unfold loc_set. rewrite Hidx, count_true_select, Hlab.
  destruct (List.length (select_rows month data_range)) as [| k] eqn:Hk.
  { destruct (select_rows month data_range); [congruence | discriminate]. }
  change (S k =? 0)%nat with false. cbn match.
  rewrite Hlen, Nat.eqb_refl. cbn match.
  rewrite (existsb_label _ _ Hcol).
  eexists. split; [reflexivity |].
  repeat split; cbn.
  - unfold labels in *. cbn. rewrite map_map. rewrite <- Hlab.
    apply map_ext. intros c. destruct (fst c =? site)%Z; reflexivity.
  - unfold rectangular in *. cbn. rewrite Forall_forall in *.
    intros c Hc. apply in_map_iff in Hc. destruct Hc as (c0 & <- & Hc0).
    specialize (Hrect _ Hc0). rewrite Hidx in Hrect.
    destruct (fst c0 =? site)%Z; cbn; [rewrite scatter_length |]; exact Hrect.
  - intros i s column q Hin Hnth.
    apply in_map_iff in Hin. destruct Hin as (c0 & Heq & Hc0).
    destruct (fst c0 =? site)%Z eqn:Hs.
    + injection Heq as Hfst <-. apply Z.eqb_eq in Hs.
      apply scatter_nth in Hnth. destruct Hnth as [Hold | Hmask].
      * apply (Hcov i s (snd c0) q); [| exact Hold].
        rewrite <- Hfst. destruct c0; exact Hc0.
      * rewrite nth_error_map in Hmask.
        destruct (nth_error data_range i) as [t |] eqn:Ht; [| discriminate].
        injection Hmask as Hper. exists t. split; [reflexivity |].
        exists month, tables, table. subst s. rewrite Hs.
        repeat split; assumption.
    + subst c0. apply (Hcov i s column q); assumption.
Qed.

Lemma reshape_site_inv (month : string) (tables : list (Z * site_data))
  (closest_NREL_siteID : list site_match) (acc : frame * frame)
  (entry : Z * site_data) :
  cols = unique (map siteID closest_NREL_siteID) ->
  fetched_shape data data_range closest_NREL_siteID ->
  In (month, tables) data ->
  In entry tables ->
  table_inv (fst acc) /\ table_inv (snd acc) ->
  exists acc', reshape_site month acc entry = Some acc' /\
               table_inv (fst acc') /\ table_inv (snd acc').
Proof.
  intros Hcols Hshape Hmonth Hentry [Hp Hw].
  unfold fetched_shape in Hshape. rewrite Forall_forall in Hshape.
  specialize (Hshape _ Hmonth). cbn in Hshape.
  rewrite Forall_forall in Hshape.
  destruct (Hshape _ Hentry) as (Hsite & Hrows & Hlp & Hlw).
  assert (Hcol : In (fst entry) cols) by (subst cols; apply unique_In, Hsite).
  destruct entry as [site table]. cbn in *.
  destruct (loc_set_inv (fst acc) month tables site table (power table))
    as (p' & Hp' & Hpinv); try assumption.
  destruct (loc_set_inv (snd acc) month tables site table (wind_speed table))
    as (w' & Hw' & Hwinv); try assumption.
  exists (p', w'). unfold reshape_site. cbn [fst snd].
  rewrite Hp', Hw'. cbn. split; [reflexivity | split; assumption].
Qed.

End ReshaperFacts.

(** C7: on data of the fetcher's shape the reshaper returns two tables, both
    indexed by the timestamps of the range and with one column per distinct
    matched site, in the same order: the same shape, rows = timestamps of the
    range, columns = distinct matched sites; every cell that the data does not
    populate is unset in both. *)
Theorem reshaper_tables_share_shape
  (data : list (string * list (Z * site_data))) (data_range : list Z)
  (closest_NREL_siteID : list site_match) :
  fetched_shape data data_range closest_NREL_siteID ->
  exists NREL_power NREL_windspeed,
    dict_to_DataFrame data data_range closest_NREL_siteID =
    Some (NREL_power, NREL_windspeed) /\
    index NREL_power = data_range /\
    index NREL_windspeed = data_range /\
    labels NREL_power = unique (map siteID closest_NREL_siteID) /\
    labels NREL_windspeed = unique (map siteID closest_NREL_siteID) /\
    shape NREL_power =
      (List.length data_range,
       List.length (unique (map siteID closest_NREL_siteID))) /\
    shape NREL_windspeed = shape NREL_power /\
    rectangular NREL_power /\
    rectangular NREL_windspeed /\
    unset_elsewhere data NREL_power /\
    unset_elsewhere data NREL_windspeed.
Proof.
  intros Hshape.
  set (cols := unique (map siteID closest_NREL_siteID)).
  pose (Inv := fun acc : frame * frame =>
                 table_inv data data_range cols (fst acc) /\
                 table_inv data data_range cols (snd acc)).
  assert (Hrun : exists r, dict_to_DataFrame data data_range closest_NREL_siteID
                           = Some r /\ Inv r).
  { unfold dict_to_DataFrame. fold cols.
    apply for_each_invariant.
    - split; apply table_inv_empty.
    - intros acc [month tables] Hmonth Hacc. unfold reshape_month. cbn [fst snd].
      apply for_each_invariant; [exact Hacc |].
      intros acc' entry Hentry Hacc'.
      eapply reshape_site_inv; try eassumption. reflexivity. }
  destruct Hrun as ([P W] & Hrun & HP & HW). cbn [fst snd] in HP, HW.
  destruct HP as (Pi & Pl & Pr & Pc). destruct HW as (Wi & Wl & Wr & Wc).
  assert (Hunset : forall f, index f = data_range -> rectangular f ->
            (forall i s column q, In (s, column) (columns f) ->
               nth_error column i = Some (Some q) ->
               exists t, nth_error data_range i = Some t /\ populated data t s) ->
            unset_elsewhere data f).
  { intros f Hi Hr Hc i t s column Ht Hin Hnot.
    rewrite Hi in Ht.
    unfold rectangular in Hr. rewrite Forall_forall in Hr.
    specialize (Hr _ Hin). cbn in Hr.
    destruct (nth_error column i) as [[q |] |] eqn:Hnth.
    - exfalso. destruct (Hc i s column q Hin Hnth) as (t' & Ht' & Hpop).
      rewrite Ht in Ht'. injection Ht' as <-. exact (Hnot Hpop).
    - reflexivity.
    - exfalso. apply nth_error_None in Hnth.
      assert (Hlt : (i < List.length data_range)%nat).
      { apply nth_error_Some. rewrite Ht. discriminate. }
      rewrite Hi in Hr. lia. }
  exists P, W. unfold shape. unfold labels in *.
  rewrite Pi, Wi.
  rewrite <- (length_map fst (columns P)), <- (length_map fst (columns W)).
  rewrite Pl, Wl.
  repeat split; try assumption; try reflexivity; apply Hunset; assumption.
Qed.

Lemma reshaper_tables_share_shape_witness :
  fetched_shape sample_data sample_range sample_match /\
  exists NREL_power NREL_windspeed,
    dict_to_DataFrame sample_data sample_range sample_match =
    Some (NREL_power, NREL_windspeed) /\
    shape NREL_power = (2%nat, 1%nat) /\
    shape NREL_windspeed = (2%nat, 1%nat).
Proof.
  assert (Hshape : fetched_shape sample_data sample_range sample_match).
  { repeat constructor. discriminate. }
  split; [exact Hshape |].
  destruct (reshaper_tables_share_shape _ _ _ Hshape)
    as (P & W & Hrun & _ & _ & _ & _ & HP & HW & _).
  exists P, W. rewrite HW, HP. repeat split; [exact Hrun | reflexivity..].
Defined.

Lemma drop_duplicates_incl (rows : list site_match) (r : site_match) :
  In r (drop_duplicates rows) -> In r rows.
Proof.
  induction rows as [| x rows IH]; [intros [] |].
  cbn [drop_duplicates]. intros [-> | Hin]; [left; reflexivity |].
  apply filter_In in Hin. right. apply IH, Hin.
Qed.

(** The output of the fetcher has the shape the reshaper expects, when the
    provider answers one row per timestamp of the month. *)
Lemma fetched_data_has_shape
  (get_nc_data_from_url : Z -> Z -> Z -> site_data)
  (siteIDs : list site_match) (data_range : list Z)
  (sites_dict : list (string * list (Z * site_data))) :
  (forall month site start end_,
      values0 (select_rows month data_range) = Some start ->
      values_last (select_rows month data_range) = Some end_ ->
      List.length (power (get_nc_data_from_url site start end_)) =
      List.length (select_rows month data_range) /\
      List.length (wind_speed (get_nc_data_from_url site start end_)) =
      List.length (select_rows month data_range)) ->
  get_data_from_NREL_server get_nc_data_from_url siteIDs data_range =
  Some sites_dict ->
  fetched_shape sites_dict data_range siteIDs.
Proof.
  intros Hprov Hrun.
  destruct (fetcher_entries get_nc_data_from_url siteIDs data_range)
    as (d & Hd & Hok).
  rewrite Hrun in Hd. injection Hd as <-.
  unfold fetched_shape. eapply Forall_impl; [| exact Hok].
  intros [month tables] Hm. cbn in *.
  eapply Forall_impl; [| exact Hm].
  intros [site table] (start & end_ & row & Hs & He & Hrow & Hsite & _ & Hp & Hw).
  cbn in *. destruct (Hprov month site start end_ Hs He) as (Hlp & Hlw).
  rewrite Hp, Hw, !length_map. repeat split; try assumption.
  - rewrite <- Hsite. apply in_map, drop_duplicates_incl, Hrow.
  - intros Hnil. rewrite Hnil in Hs. discriminate.
Qed.

(** ** The power scaler *)

Lemma for_each_app {A S : Type} (body : S -> A -> option S) (l1 l2 : list A)
  (init : S) :
  for_each body (l1 ++ l2) init =
  (r <- for_each body l1 init ;; for_each body l2 r).
Proof.
  revert init. induction l1 as [| x l1 IH]; intros init; [reflexivity |].
  cbn [app for_each]. destruct (body init x) as [acc |]; [apply IH | reflexivity].
Qed.

Lemma cell_mul_double (x : cell) (k : Qc) :
  cell_mul x (k * Q2Qc 2) = cell_mul (cell_mul x k) (Q2Qc 2).
Proof.
  destruct x as [q |]; [| reflexivity]. cbn. f_equal. ring.
Qed.

Lemma present_double (l : list cell) :
  present (map (fun x => cell_mul x (Q2Qc 2)) l) =
  map (fun q => (q * Q2Qc 2)%Qc) (present l).
Proof.
  unfold present. induction l as [| [q |] l IH]; cbn; [| rewrite IH |]; auto.
Qed.

Lemma Qc_sum_double (l : list Qc) :
  Qc_sum (map (fun q => (q * Q2Qc 2)%Qc) l) = (Qc_sum l * Q2Qc 2)%Qc.
Proof.
  unfold Qc_sum. induction l as [| q l IH]; cbn; [ring | rewrite IH; ring].
Qed.

(** The mean of the doubled values is twice the mean. *)
Lemma series_mean_double (l : list cell) :
  series_mean (map (fun x => cell_mul x (Q2Qc 2)) l) =
  cell_mul (series_mean l) (Q2Qc 2).
Proof.
  unfold series_mean. rewrite present_double.
  destruct (present l) as [| q qs]; [reflexivity |].
  cbn [map cell_mul]. f_equal.
  change ((q * Q2Qc 2)%Qc :: map (fun q0 => (q0 * Q2Qc 2)%Qc) qs)
    with (map (fun q0 => (q0 * Q2Qc 2)%Qc) (q :: qs)).
  rewrite Qc_sum_double, length_map.
  unfold Qcdiv. ring.
Qed.

Lemma hour_values_map (g : cell -> cell) (idx : list Z) (col : list cell) (h : Z) :
  hour_values idx (map g col) h = map g (hour_values idx col h).
Proof.
  unfold hour_values. revert col.
  induction idx as [| t idx IH]; intros col; [reflexivity |].
  destruct col as [| c col]; [reflexivity |].
  cbn. destruct (hour_floor t =? h)%Z; cbn; rewrite IH; reflexivity.
Qed.

Section ScalerFacts.

Variable NREL_power : frame.
Variable closest_NREL_siteID : list site_match.
Variable pid : Z.

(** Two frames of the same index whose columns differ by the doubling of the
    plant [pid]. *)
Let related (f f' : frame) : Prop :=
  index f' = index f /\ Forall2 (doubled_for pid) (columns f) (columns f').

Lemma related_set_other (f f' : frame) (label : Z) (values : list cell) :
  label <> pid ->
  related f f' ->
  related (set_column f label values) (set_column f' label values).
Proof.
  intros Hne [Hidx Hcols]. split; [exact Hidx |]. cbn.
  induction Hcols as [| c c' cs cs' [Hl Hv] Hcols IH]; [constructor |].
  cbn [map]. constructor; [| exact IH].
  rewrite Hl. destruct (fst c =? label)%Z eqn:Hc.
  - apply Z.eqb_eq in Hc. split; [reflexivity |]. cbn.
    destruct (label =? pid)%Z eqn:Hp; [apply Z.eqb_eq in Hp; congruence |].
    rewrite Hc, Hp. reflexivity.
  - split; assumption.
Qed.

Lemma related_set_plant (f : frame) (values : list cell) :
  related (set_column f pid values)
          (set_column f pid (map (fun x => cell_mul x (Q2Qc 2)) values)).
Proof.
  split; [reflexivity |]. cbn.
  induction (columns f) as [| c cs IH]; [constructor |].
  cbn [map]. constructor; [| exact IH].
  destruct (fst c =? pid)%Z eqn:Hc; split; cbn; try reflexivity.
  - apply Z.eqb_eq in Hc. rewrite Hc, Z.eqb_refl. reflexivity.
  - rewrite Hc. reflexivity.
Qed.

(** The plants after [pid] leave the relation in place. *)
Lemma scale_rest_related (rest : list wind_farm) (f f' r : frame) :
  Forall (fun q => plantID q <> pid) rest ->
  related f f' ->
  for_each (scale_plant NREL_power closest_NREL_siteID) rest f = Some r ->
  exists r',
    for_each (scale_plant NREL_power closest_NREL_siteID) rest f' = Some r' /\
    related r r'.
Proof.
  intros Hrest. revert f f' r.
  induction Hrest as [| q rest Hq Hrest IH]; intros f f' r Hrel Hrun.
  - cbn in *. injection Hrun as <-. exists f'. split; [reflexivity | exact Hrel].
  - cbn [for_each] in *. unfold scale_plant in *.
    destruct (loc_siteID closest_NREL_siteID (plantID q)) as [site |];
      [| discriminate].
    cbn [bind] in *.
    destruct (get_column NREL_power site) as [series |]; [| discriminate].
    cbn [bind] in *.
    eapply IH; [| exact Hrun].
    apply related_set_other; assumption.
Qed.

Lemma resample_related (f f' : frame) :
  related f f' -> related (resample_H_mean f) (resample_H_mean f').
Proof.
  intros [Hidx Hcols]. unfold resample_H_mean. split; cbn; rewrite Hidx;
    [reflexivity |].
  induction Hcols as [| c c' cs cs' [Hl Hv] Hcols IH]; [constructor |].
  cbn [map]. constructor; [| exact IH].
  split; cbn; [exact Hl |]. rewrite Hv.
  destruct (fst c =? pid)%Z; [| reflexivity].
  rewrite map_map. apply map_ext. intros h.
  rewrite hour_values_map. apply series_mean_double.
Qed.

End ScalerFacts.

Lemma labels_set_column (f : frame) (label : Z) (values : list cell) :
  labels (set_column f label values) = labels f.
Proof.
  unfold labels, set_column. cbn. rewrite map_map. apply map_ext.
  intros c. destruct (fst c =? label)%Z; reflexivity.
Qed.

Lemma scaler_labels (NREL_power : frame) (closest_NREL_siteID : list site_match)
  (wind_farm_bus : list wind_farm) (hourly : frame) :
  scale_power_to_plant_capacity NREL_power wind_farm_bus closest_NREL_siteID =
  Some hourly ->
  labels hourly = map plantID wind_farm_bus.
Proof.
  unfold scale_power_to_plant_capacity. intros Hrun.
  destruct (for_each _ wind_farm_bus _) as [wfp |] eqn:Hloop; [| discriminate].
  injection Hrun as <-.
  assert (Hl : labels wfp = map plantID wind_farm_bus).
  { eapply (for_each_preserves _ (fun f => labels f = map plantID wind_farm_bus));
      [| | exact Hloop].
    - apply labels_empty_frame.
    - intros acc q acc' _ Hacc Hstep. unfold scale_plant in Hstep.
      destruct (loc_siteID _ _); [| discriminate]. cbn [bind] in Hstep.
      destruct (get_column _ _); [| discriminate].
      injection Hstep as <-. rewrite labels_set_column. exact Hacc. }
  unfold labels, resample_H_mean in *. cbn. rewrite map_map. exact Hl.
Qed.

(** C8: with the normalized power table and the match table fixed, doubling
    the rated capacity of one plant of the bus table (whose plant identifiers
    are distinct) makes the scaler return the same hourly table except for
    that plant's column, every value of which is exactly doubled. *)
Theorem doubling_capacity_doubles_power
  (NREL_power : frame) (closest_NREL_siteID : list site_match)
  (before after : list wind_farm) (plant : wind_farm) (hourly : frame) :
  NoDup (map plantID (before ++ plant :: after)) ->
  scale_power_to_plant_capacity NREL_power (before ++ plant :: after)
                                closest_NREL_siteID = Some hourly ->
  exists hourly',
    scale_power_to_plant_capacity NREL_power
      (before ++ double_capacity plant :: after) closest_NREL_siteID =
    Some hourly' /\
    In (plantID plant) (labels hourly) /\
    index hourly' = index hourly /\
    Forall2 (doubled_for (plantID plant)) (columns hourly) (columns hourly').
Proof.
  intros Hnodup Hrun.
  pose proof (scaler_labels _ _ _ _ Hrun) as Hlabels.
  assert (Hafter : Forall (fun q => plantID q <> plantID plant) after).
  { rewrite map_app in Hnodup. cbn [map] in Hnodup.
    apply NoDup_remove_2 in Hnodup. apply Forall_forall. intros q Hq Heq.
    apply Hnodup, in_or_app. right. rewrite <- Heq. apply in_map, Hq. }
  unfold scale_power_to_plant_capacity in *.
  replace (map plantID (before ++ double_capacity plant :: after))
    with (map plantID (before ++ plant :: after))
    by (rewrite !map_app; reflexivity).
  set (init := empty_frame (index NREL_power)
                           (map plantID (before ++ plant :: after))) in *.
  rewrite for_each_app in Hrun |- *.
  destruct (for_each _ before init) as [f1 |]; [| discriminate].
  cbn [bind for_each] in Hrun |- *.
  unfold scale_plant at 1 in Hrun. unfold scale_plant at 1.
  change (plantID (double_capacity plant)) with (plantID plant).
  destruct (loc_siteID closest_NREL_siteID (plantID plant)) as [site |];
    [| discriminate].
  cbn [bind] in Hrun |- *.
  destruct (get_column NREL_power site) as [series |]; [| discriminate].
  cbn [bind] in Hrun |- *.
  match type of Hrun with
  | context [for_each ?b after ?f] =>
      destruct (for_each b after f) as [r |] eqn:Hrest; [| discriminate]
  end.
  injection Hrun as <-.
  destruct (scale_rest_related NREL_power closest_NREL_siteID (plantID plant)
              after _
              (set_column f1 (plantID plant)
                 (map (fun x => cell_mul x (Q2Qc 2))
                      (map (fun x => cell_mul x (GenMWMax plant)) series)))
              r Hafter (related_set_plant _ _ _) Hrest)
    as (r' & Hrest' & Hrel).
  assert (Hseries :
            map (fun x => cell_mul x (GenMWMax (double_capacity plant))) series =
            map (fun x => cell_mul x (Q2Qc 2))
                (map (fun x => cell_mul x (GenMWMax plant)) series)).
  { rewrite map_map. apply map_ext. intros x. apply cell_mul_double. }
  rewrite Hseries, Hrest'. cbn [bind].
  exists (resample_H_mean r'). split; [reflexivity |].
  split.
  { rewrite Hlabels, map_app. apply in_or_app. right. left. reflexivity. }
  apply resample_related in Hrel. exact Hrel.
Qed.

Lemma doubling_capacity_doubles_power_witness :
  NoDup (map plantID ([] ++ farm0 :: [])) /\
  exists hourly hourly',
    scale_power_to_plant_capacity sample_power ([] ++ farm0 :: []) sample_match =
    Some hourly /\
    scale_power_to_plant_capacity sample_power
      ([] ++ double_capacity farm0 :: []) sample_match = Some hourly' /\
    index hourly' = index hourly /\
    Forall2 (doubled_for 7) (columns hourly) (columns hourly').
Proof.
  assert (Hnodup : NoDup (map plantID ([] ++ farm0 :: []))).
  { repeat constructor. intros []. }
  split; [exact Hnodup |].
  destruct (scale_power_to_plant_capacity sample_power ([] ++ farm0 :: [])
                                          sample_match) as [hourly |] eqn:Hrun.
  - destruct (doubling_capacity_doubles_power sample_power sample_match
                [] [] farm0 hourly Hnodup Hrun) as (hourly' & Hrun' & _ & Hidx & Hcols).
    exists hourly, hourly'. repeat split; assumption.
  - exfalso. discriminate Hrun.
Defined.

End TeWindProps.

(** ** The solar estimator *)

Module NaiveProps.

Import Naive.

Local Open Scope Z_scope.

Lemma Qc_eqb_eq (a b : Qc) : Qc_eqb a b = true <-> a = b.
Proof.
  unfold Qc_eqb. rewrite Qeq_bool_iff. split.
  - apply Qc_is_canon.
  - intros ->. reflexivity.
Qed.

Lemma Qc_leb_le (a b : Qc) : Qc_leb a b = true <-> (a <= b)%Qc.
Proof.
  unfold Qc_leb, Qcle. apply Qle_bool_iff.
Qed.

(** [Series.max()] of a non-empty series of numbers is one of them and
    bounds them all. *)
Lemma series_max_spec (l : list Qc) :
  l <> [] ->
  exists m, series_max (map Some l) = Some m /\
            In m l /\ Forall (fun x => (x <= m)%Qc) l.
Proof.
  induction l as [| x l IH]; [congruence | intros _].
  destruct l as [| y l'].
  - exists x. cbn. repeat split; [left; reflexivity |].
    constructor; [apply Qcle_refl | constructor].
  - destruct IH as (m & Hm & Hin & Hall); [congruence |].
    cbn [map series_max] in *. rewrite Hm.
    destruct (Qc_leb x m) eqn:Hle.
    + apply Qc_leb_le in Hle. exists m.
      repeat split; [right; exact Hin |]. constructor; assumption.
    + assert (Hlt : (m < x)%Qc).
      { apply Qcnot_le_lt. intros H. apply Qc_leb_le in H. congruence. }
      exists x. repeat split; [left; reflexivity |].
      constructor; [apply Qcle_refl |].
      eapply Forall_impl; [| exact Hall]. cbn. intros a Ha.
      eapply Qcle_trans; [exact Ha | apply Qclt_le_weak, Hlt].
Qed.

Lemma Qcdiv_unit (x m : Qc) :
  (0 <= x)%Qc -> (x <= m)%Qc -> (0 < m)%Qc -> (0 <= x / m <= 1)%Qc.
Proof.
  intros H0 Hx Hm.
  assert (Hne : m <> Q2Qc 0).
  { intros ->. exact (Qclt_not_eq _ _ Hm eq_refl). }
  assert (Hmul : (x / m * m = x)%Qc).
  { rewrite Qcmult_comm. apply Qcmult_div_r, Hne. }
  split; apply (Qcmult_lt_0_le_reg_r _ _ m Hm); rewrite Hmul.
  - rewrite Qcmult_0_l. exact H0.
  - rewrite Qcmult_1_l. exact Hx.
Qed.

(** C5: for a GHI series of non-negative irradiances that is not entirely
    zero, every value of the normalized series is a number of [0, 1], and at a
    position where the series attains its maximum the normalized value is
    exactly 1. *)
Theorem normalized_series_in_unit_interval (ghi : list Qc) :
  Forall (fun x => (0 <= x)%Qc) ghi ->
  Exists (fun x => x <> Q2Qc 0) ghi ->
  Forall (fun c => exists q, c = Some q /\ (0 <= q <= 1)%Qc)
         (loc_Pout (normalize ghi)) /\
  exists i m,
    series_max (map Some ghi) = Some m /\
    nth_error ghi i = Some m /\
    nth_error (loc_Pout (normalize ghi)) i = Some (Some (Q2Qc 1)).
Proof.
  intros Hpos Hnz.
  assert (Hne : ghi <> []) by (intros ->; inversion Hnz).
  destruct (series_max_spec ghi Hne) as (m & Hmax & Hin & Hall).
  assert (Hm : (0 < m)%Qc).
  { apply Exists_exists in Hnz. destruct Hnz as (x & Hx & Hx0).
    rewrite Forall_forall in Hpos, Hall.
    apply Qclt_le_trans with x; [| apply Hall, Hx].
    destruct (Qcle_lt_or_eq _ _ (Hpos x Hx)) as [Hlt | Heq];
      [exact Hlt | congruence]. }
  assert (Hm0 : Qc_eqb m (Q2Qc 0) = false).
  { destruct (Qc_eqb m (Q2Qc 0)) eqn:He; [| reflexivity].
    apply Qc_eqb_eq in He. subst m. exfalso.
    exact (Qclt_not_eq _ _ Hm eq_refl). }
  assert (Hcell : forall x, cell_div (Some x) (Some m) = Some (x / m)%Qc).
  { intros x. cbn. rewrite Hm0. reflexivity. }
  unfold normalize. cbn [loc_Pout]. rewrite Hmax, map_map.
  split.
  - apply Forall_forall. intros c Hc. apply in_map_iff in Hc.
    destruct Hc as (x & <- & Hx). rewrite Hcell.
    exists (x / m)%Qc. split; [reflexivity |].
    rewrite Forall_forall in Hpos, Hall.
    apply Qcdiv_unit; [apply Hpos | apply Hall | exact Hm]; exact Hx.
  - destruct (In_nth_error _ _ Hin) as (i & Hi).
    exists i, m. repeat split; [exact Hi |].
    rewrite nth_error_map, Hi. cbn [option_map]. rewrite Hcell.
    do 2 f_equal. unfold Qcdiv. apply Qcmult_inv_r.
    intros ->. exact (Qclt_not_eq _ _ Hm eq_refl).
Qed.

Lemma normalized_series_in_unit_interval_witness :
  Forall (fun c => exists q, c = Some q /\ (0 <= q <= 1)%Qc)
         (loc_Pout (normalize [Q2Qc 0; Q2Qc 50; Q2Qc 100])) /\
  exists i m,
    series_max (map Some [Q2Qc 0; Q2Qc 50; Q2Qc 100]) = Some m /\
    nth_error [Q2Qc 0; Q2Qc 50; Q2Qc 100] i = Some m /\
    nth_error (loc_Pout (normalize [Q2Qc 0; Q2Qc 50; Q2Qc 100])) i =
    Some (Some (Q2Qc 1)).
Proof.
  apply (normalized_series_in_unit_interval [Q2Qc 0; Q2Qc 50; Q2Qc 100]).
  - repeat constructor; discriminate.
  - right; left. discriminate.
Defined.

(** C5, as stated: the series -5, -10 is not entirely zero; its maximum is -5
    and its normalized series is 1, 2, whose second value is outside
    [0, 1]. *)
Lemma negative_series_leaves_unit_interval :
  Exists (fun x => x <> Q2Qc 0) [Q2Qc (-5); Q2Qc (-10)] /\
  map (option_map this) (loc_Pout (normalize [Q2Qc (-5); Q2Qc (-10)])) =
    [Some (1 # 1)%Q; Some (2 # 1)%Q] /\
  ~ Forall (fun c => exists q, c = Some q /\ (0 <= q <= 1)%Qc)
           (loc_Pout (normalize [Q2Qc (-5); Q2Qc (-10)])).
Proof.
  split; [left; discriminate |]. split; [reflexivity |].
  intros Hall. inversion Hall as [| c l _ Hrest]; subst.
  inversion Hrest as [| c l (q & Hq & _ & Hle) _]; subst.
  injection Hq as <-. apply Hle. reflexivity.
Qed.

(** ** The accumulated table *)

Lemma accumulate_append (data block : list row) :
  (if is_empty data then List.concat [data; block] else data ++ block) =
  data ++ block.
Proof.
  destruct data; cbn; [rewrite app_nil_r |]; reflexivity.
Qed.

Lemma rows_of_columns (idx : list Z) (pout : list cell) (ids : list Z) :
  List.length pout = List.length idx ->
  List.length ids = List.length idx ->
  map time_index (rows_of idx pout ids) = idx /\
  map Pout (rows_of idx pout ids) = pout /\
  map id (rows_of idx pout ids) = ids.
Proof.
  revert pout ids. induction idx as [| t idx IH]; intros pout ids Hp Hi.
  - destruct pout, ids; try discriminate. repeat split.
  - destruct pout as [| p pout], ids as [| i ids]; try discriminate.
    injection Hp as Hp. injection Hi as Hi.
    destruct (IH pout ids Hp Hi) as (H1 & H2 & H3).
    cbn. rewrite H1, H2, H3. repeat split.
Qed.

(** The plants of one location: each pass appends one block, indexed like the
    location's frame. *)
Lemma plant_loop_blocks (plants : list (Z * Qc)) (state : loc_frame * list row) :
  List.length (loc_Pout (fst state)) = List.length (loc_index (fst state)) ->
  exists blocks,
    snd (fold_left plant_pass plants state) = snd state ++ List.concat blocks /\
    Forall2 (fun i block =>
               map time_index block = loc_index (fst state) /\
               map id block =
               repeat (fst i) (List.length (loc_index (fst state))))
            plants blocks.
Proof.
  revert state. induction plants as [| i plants IH]; intros state Hlen.
  - exists []. cbn. rewrite app_nil_r. split; [reflexivity | constructor].
  - cbn [fold_left].
    destruct (IH (plant_pass state i)) as (blocks & Hdata & Hblocks).
    { cbn. unfold series_mul_int, series_mul_list1.
      rewrite !length_map. exact Hlen. }
    set (n := List.length (loc_index (fst state))) in *.
    set (pout := series_mul_int (series_mul_list1 (loc_Pout (fst state)) (snd i)) n).
    exists (rows_of (loc_index (fst state)) pout (repeat (fst i) n) :: blocks).
    split.
    + rewrite Hdata. unfold plant_pass at 1. cbn [fst snd loc_index loc_Pout loc_id].
      rewrite accumulate_append. cbn [List.concat].
      rewrite <- app_assoc. reflexivity.
    + constructor; [| exact Hblocks].
      destruct (rows_of_columns (loc_index (fst state)) pout (repeat (fst i) n))
        as (H1 & _ & H3).
      * unfold pout, series_mul_int, series_mul_list1.
        rewrite !length_map. exact Hlen.
      * apply repeat_length.
      * split; assumption.
Qed.

Lemma range1_length (n : nat) : List.length (range1 n) = n.
Proof.
  unfold range1. rewrite length_map, length_seq. reflexivity.
Qed.

Section EstimatorFacts.

Variable read_csv_GHI : key -> list Qc.
Variable coord : list (key * list (Z * Qc)).

Lemma location_pass_blocks (data data' : list row) (k : key) :
  location_pass read_csv_GHI coord data k = Some data' ->
  exists blocks,
    data' = data ++ List.concat blocks /\
    Forall2 (block_of read_csv_GHI) (plant_passes coord [k]) blocks.
Proof.
  unfold location_pass, plant_passes. cbn [flat_map]. rewrite app_nil_r.
  destruct (dict_get key_eqb coord k) as [plants |]; [| discriminate].
  cbn [bind]. intros Hrun. injection Hrun as <-.
  destruct (plant_loop_blocks plants (normalize (read_csv_GHI k), data))
    as (blocks & Hdata & Hblocks).
  { cbn. rewrite !length_map, range1_length. reflexivity. }
  exists blocks. split; [exact Hdata |].
  cbn [fst loc_index normalize] in Hblocks. rewrite range1_length in Hblocks.
  clear Hdata. induction Hblocks as [| i b plants' blocks' Hb Hrest IH];
    [constructor |].
  cbn [map]. constructor; [exact Hb | exact IH].
Qed.

Lemma estimate_blocks_from (keys : list key) (data data' : list row) :
  for_each (location_pass read_csv_GHI coord) keys data = Some data' ->
  exists blocks,
    data' = data ++ List.concat blocks /\
    Forall2 (block_of read_csv_GHI) (plant_passes coord keys) blocks.
Proof.
  revert data. induction keys as [| k keys IH]; intros data Hrun.
  - cbn in Hrun. injection Hrun as <-. exists []. cbn.
    rewrite app_nil_r. split; [reflexivity | constructor].
  - cbn [for_each] in Hrun.
    destruct (location_pass read_csv_GHI coord data k) as [data1 |] eqn:Hk;
      [| discriminate].
    cbn [bind] in Hrun.
    destruct (location_pass_blocks _ _ _ Hk) as (b1 & Hd1 & Hb1).
    destruct (IH _ Hrun) as (b2 & Hd2 & Hb2).
    exists (b1 ++ b2). split.
    + rewrite Hd2, Hd1, concat_app, app_assoc. reflexivity.
    + change (k :: keys) with ([k] ++ keys).
      unfold plant_passes in *. rewrite flat_map_app.
      apply Forall2_app; assumption.
Qed.

End EstimatorFacts.

(** ** Sorting *)

Lemma insert_row_perm (r : row) (l : list row) :
  Permutation (insert_row r l) (r :: l).
Proof.
  induction l as [| x l IH]; [reflexivity |].
  cbn [insert_row]. destruct (time_index r <=? time_index x); [reflexivity |].
  rewrite IH. apply perm_swap.
Qed.

Lemma insertion_sort_perm (data : list row) :
  Permutation (insertion_sort data) data.
Proof.
  unfold insertion_sort. induction data as [| r data IH]; [reflexivity |].
  cbn [fold_right]. rewrite insert_row_perm. apply perm_skip, IH.
Qed.

Lemma insert_row_sorted (r : row) (l : list row) :
  StronglySorted Z.le (map time_index l) ->
  StronglySorted Z.le (map time_index (insert_row r l)).
Proof.
  induction l as [| x l IH]; intros Hs.
  - cbn. constructor; constructor.
  - cbn [insert_row]. destruct (time_index r <=? time_index x) eqn:Hle.
    + apply Z.leb_le in Hle. cbn [map] in *. constructor; [exact Hs |].
      inversion Hs as [| ? ? Hs' Hall]; subst. constructor; [exact Hle |].
      eapply Forall_impl; [| exact Hall]. cbn. intros a Ha. lia.
    + apply Z.leb_gt in Hle. cbn [map] in *.
      inversion Hs as [| ? ? Hs' Hall]; subst.
      constructor; [apply IH, Hs' |].
      assert (Hperm : Permutation (map time_index (insert_row r l))
                                  (time_index r :: map time_index l)).
      { change (time_index r :: map time_index l) with (map time_index (r :: l)).
        apply Permutation_map, insert_row_perm. }
      apply Forall_forall. intros a Ha.
      eapply Permutation_in in Ha; [| exact Hperm].
      destruct Ha as [<- | Ha]; [lia |].
      rewrite Forall_forall in Hall. apply Hall, Ha.
Qed.

Lemma insertion_sort_sorted (data : list row) :
  StronglySorted Z.le (map time_index (insertion_sort data)).
Proof.
  unfold insertion_sort. induction data as [| r data IH]; [constructor |].
  cbn [fold_right]. apply insert_row_sorted, IH.
Qed.

(** Insertion sort is one of the sorts the model allows. *)
Lemma insertion_sort_sorts : sorts_by_index insertion_sort.
Proof.
  intros data. split; [apply insertion_sort_perm | apply insertion_sort_sorted].
Qed.

Lemma monotonic_sorted (idx : list Z) :
  is_monotonic_increasing idx = true <-> StronglySorted Z.le idx.
Proof.
  induction idx as [| x idx IH]; [split; [constructor | reflexivity] |].
  cbn [is_monotonic_increasing]. destruct idx as [| y idx].
  - split; [intros _; repeat constructor | reflexivity].
  - rewrite andb_true_iff, IH, Z.leb_le. split.
    + intros [Hle Hs]. constructor; [exact Hs |].
      constructor; [exact Hle |].
      inversion Hs as [| ? ? _ Hall]; subst.
      eapply Forall_impl; [| exact Hall]. cbn. intros a Ha. lia.
    + intros Hs. inversion Hs as [| ? ? Hs' Hall]; subst.
      inversion Hall; subst. split; assumption.
Qed.

Lemma sort_index_perm (quicksort : list row -> list row) (data : list row) :
  sorts_by_index quicksort -> Permutation (sort_index quicksort data) data.
Proof.
  intros Hsort. unfold sort_index.
  destruct (is_monotonic_increasing (map time_index data));
    [reflexivity | apply Hsort].
Qed.

Lemma sort_index_sorted (quicksort : list row -> list row) (data : list row) :
  sorts_by_index quicksort ->
  StronglySorted Z.le (map time_index (sort_index quicksort data)).
Proof.
  intros Hsort. unfold sort_index.
  destruct (is_monotonic_increasing (map time_index data)) eqn:Hmono;
    [apply monotonic_sorted, Hmono | apply Hsort].
Qed.

(** C9 (amended): when the script returns, its table is the concatenation of
    one block per processed plant, each indexed from 1; the rows written are
    a rearrangement of that table in non-decreasing order of the time index,
    whatever the locations and the order of the plants, for every sort of
    the library that puts rows in index order; the text has one line per row
    and no header line, each line being the time index, the plant identifier
    written as a float and the power, separated by tabulations; the file is
    named western_Pout_2016.txt after the study year. *)
Theorem writer_sorts_and_serializes
  (quicksort : list row -> list row)
  (repr_float : Qc -> string) (read_csv_GHI : key -> list Qc)
  (solar_plant : list solar_plant_row) (keys : list key)
  (name_ text : string) :
  sorts_by_index quicksort ->
  script quicksort repr_float read_csv_GHI solar_plant keys = Some (name_, text) ->
  exists data blocks,
    estimate read_csv_GHI (coord_of solar_plant) keys = Some data /\
    data = List.concat blocks /\
    Forall2 (block_of read_csv_GHI)
            (plant_passes (coord_of solar_plant) keys) blocks /\
    Permutation (sort_index quicksort data) data /\
    StronglySorted Z.le (map time_index (sort_index quicksort data)) /\
    text =
      String.concat EmptyString
        (map (fun r => (str_int (time_index r) ++ tab
                        ++ repr_float (Qc_of_Z (id r)) ++ tab
                        ++ csv_float repr_float (Pout r) ++ newline)%string)
             (sort_index quicksort data)) /\
    name_ = ("western_Pout_" ++ str_int year ++ ".txt")%string /\
    name_ = "western_Pout_2016.txt"%string.
Proof.
  unfold script. intros Hsort Hrun.
  destruct (estimate read_csv_GHI (coord_of solar_plant) keys) as [data |] eqn:He;
    [| discriminate].
  cbn [bind] in Hrun. injection Hrun as <- <-.
  destruct (estimate_blocks_from _ _ _ _ _ He) as (blocks & Hd & Hb).
  exists data, blocks. cbn [app] in Hd.
  repeat split; try assumption; try reflexivity.
  - apply sort_index_perm, Hsort.
  - apply sort_index_sorted, Hsort.
Qed.

Lemma writer_sorts_and_serializes_witness :
  exists name_ text data,
    script insertion_sort repr_integral ghi_0_50_100 two_plants
           [hd (Q2Qc 0, Q2Qc 0) toto] =
    Some (name_, text) /\
    estimate ghi_0_50_100 (coord_of two_plants) [hd (Q2Qc 0, Q2Qc 0) toto] =
    Some data /\
    StronglySorted Z.le (map time_index (sort_index insertion_sort data)) /\
    name_ = "western_Pout_2016.txt"%string.
Proof.
  destruct (script insertion_sort repr_integral ghi_0_50_100 two_plants
                   [hd (Q2Qc 0, Q2Qc 0) toto]) as [[name_ text] |] eqn:Hrun.
  - destruct (writer_sorts_and_serializes _ _ _ _ _ _ _ insertion_sort_sorts Hrun)
      as (data & blocks & He & _ & _ & _ & Hs & _ & _ & Hn).
    exists name_, text, data. repeat split; assumption.
  - exfalso. discriminate Hrun.
Defined.

(** C9, as stated: for the 10 MW plant 101 alone and the series 0, 50, 100
    the file holds three lines of three fields, the time index first:
    1, 101.0, 0.0; 2, 101.0, 15.0; 3, 101.0, 30.0.  It is not the file of the
    two columns (plant identifier, estimated power). *)
Lemma written_lines_start_with_the_time_index :
  script insertion_sort repr_integral ghi_0_50_100 one_plant
         [hd (Q2Qc 0, Q2Qc 0) toto] =
  Some ("western_Pout_2016.txt"%string,
        ("1" ++ tab ++ "101.0" ++ tab ++ "0.0" ++ newline ++
         "2" ++ tab ++ "101.0" ++ tab ++ "15.0" ++ newline ++
         "3" ++ tab ++ "101.0" ++ tab ++ "30.0" ++ newline)%string) /\
  option_map
    (fun data => two_column_file repr_integral (sort_index insertion_sort data))
    (estimate ghi_0_50_100 (coord_of one_plant) [hd (Q2Qc 0, Q2Qc 0) toto]) =
  Some ("101.0" ++ tab ++ "0.0" ++ newline ++
        "101.0" ++ tab ++ "15.0" ++ newline ++
        "101.0" ++ tab ++ "30.0" ++ newline)%string /\
  ("1" ++ tab ++ "101.0" ++ tab ++ "0.0" ++ newline ++
   "2" ++ tab ++ "101.0" ++ tab ++ "15.0" ++ newline ++
   "3" ++ tab ++ "101.0" ++ tab ++ "30.0" ++ newline)%string <>
  ("101.0" ++ tab ++ "0.0" ++ newline ++
   "101.0" ++ tab ++ "15.0" ++ newline ++
   "101.0" ++ tab ++ "30.0" ++ newline)%string.
Proof.
  split; [vm_compute; reflexivity |].
  split; [vm_compute; reflexivity |].
  vm_compute. discriminate.
Qed.

(** C1, on the code: the two plants of 10 MW and 20 MW at one location, fed
    the series 0, 50, 100.  The normalized series is 0, 1/2, 1 and six rows
    are written, paired by plant and time index; but the first plant's series
    is 0, 15, 30 and the second's 0, 900, 1800: each pass multiplies the
    shared frame by the capacity and by the number of rows.  Over the literal
    list [toto] the loop raises at the second location. *)
Theorem solar_scenario_on_the_code :
  coord_of two_plants =
    [ (hd (Q2Qc 0, Q2Qc 0) toto, [(101, Q2Qc 10); (102, Q2Qc 20)]) ] /\
  map (option_map this) (loc_Pout (normalize [Q2Qc 0; Q2Qc 50; Q2Qc 100])) =
    [Some (0 # 1)%Q; Some (1 # 2)%Q; Some (1 # 1)%Q] /\
  option_map (map row_view)
    (estimate ghi_0_50_100 (coord_of two_plants) (map fst (coord_of two_plants))) =
    Some [ (1, Some (0 # 1)%Q, 101); (2, Some (15 # 1)%Q, 101);
           (3, Some (30 # 1)%Q, 101); (1, Some (0 # 1)%Q, 102);
           (2, Some (900 # 1)%Q, 102); (3, Some (1800 # 1)%Q, 102) ] /\
  estimate ghi_0_50_100 (coord_of two_plants) toto = None.
Proof.
  repeat split; reflexivity.
Qed.
End NaiveProps.

(** * Further properties of te_wind.py *)

Module TeWindMore.

Import TeWind TeWindProps.

Local Open Scope R_scope.

(** ** Distances along a meridian, along the equator, and to the antipode *)

Lemma sqrt_haversin (x : R) :
  Rabs x <= PI -> asin (sqrt (haversin x)) = Rabs x / 2.
Proof.
  intros Hx. unfold haversin. rewrite <- Rsqr_pow2, sqrt_Rsqr_abs.
  pose proof (Rabs_pos x) as Hpos.
  assert (Hsin : Rabs (sin (x / 2)) = sin (Rabs x / 2)).
  { unfold Rabs at 2. destruct (Rcase_abs x) as [Hneg | Hge].
    - replace (- x / 2) with (- (x / 2)) by lra.
      rewrite sin_neg. apply Rabs_left.
      apply sin_lt_0_var; unfold Rabs in Hx; destruct (Rcase_abs x); lra.
    - apply Rabs_pos_eq. apply sin_ge_0; unfold Rabs in Hx;
        destruct (Rcase_abs x); lra. }
  rewrite Hsin. apply asin_sin. split; lra.
Qed.

(** X1: two points on one meridian less than half a turn apart are at
    distance R |lat2 - lat1|, and two points on the equator at distance
    R |lon2 - lon1|: the arc length. *)
Theorem distance_is_arc_length :
  (forall lat1 lat2 lon,
      Rabs (lat2 - lat1) <= PI ->
      _greatCircleDistance lat1 lon lat2 lon = Some (6368 * Rabs (lat2 - lat1))) /\
  (forall lon1 lon2,
      Rabs (lon2 - lon1) <= PI ->
      _greatCircleDistance 0 lon1 0 lon2 = Some (6368 * Rabs (lon2 - lon1))).
Proof.
  split.
  - intros lat1 lat2 lon H. rewrite distance_defined.
    assert (Harg : sqrt_arg lat1 lon lat2 lon = haversin (lat2 - lat1)).
    { unfold sqrt_arg. replace (lon - lon) with 0 by lra.
      unfold haversin at 2. replace (0 / 2) with 0 by lra.
      rewrite sin_0. ring. }
    rewrite Harg, sqrt_haversin by exact H.
    unfold R_earth. f_equal. lra.
  - intros lon1 lon2 H. rewrite distance_defined.
    assert (Harg : sqrt_arg 0 lon1 0 lon2 = haversin (lon2 - lon1)).
    { unfold sqrt_arg. replace (0 - 0) with 0 by lra.
      unfold haversin at 1. replace (0 / 2) with 0 by lra.
      rewrite sin_0, cos_0. ring. }
    rewrite Harg, sqrt_haversin by exact H.
    unfold R_earth. f_equal. lra.
Qed.

Lemma distance_is_arc_length_witness :
  _greatCircleDistance 0 0 1 0 = Some (6368 * Rabs (1 - 0)) /\
  _greatCircleDistance 0 1 0 0 = Some (6368 * Rabs (0 - 1)).
Proof.
  pose proof PI2_1 as Hpi. split.
  - apply (proj1 distance_is_arc_length).
    replace (1 - 0) with 1 by lra. rewrite Rabs_R1. lra.
  - apply (proj2 distance_is_arc_length).
    replace (0 - 1) with (- (1)) by lra. rewrite Rabs_Ropp, Rabs_R1. lra.
Defined.

(** X2: the distance from any point to its antipode is pi R, the upper end of
    the range of the function; and a full turn added to the longitude of the
    first point changes no distance. *)
Theorem antipode_and_full_turn (lat1 lon1 lat2 lon2 : R) :
  _greatCircleDistance lat1 lon1 (- lat1) (lon1 + PI) = Some (PI * 6368) /\
  _greatCircleDistance lat1 (lon1 + 2 * PI) lat2 lon2 =
  _greatCircleDistance lat1 lon1 lat2 lon2.
Proof.
  split.
  - rewrite distance_defined.
    assert (Harg : sqrt_arg lat1 lon1 (- lat1) (lon1 + PI) = 1).
    { unfold sqrt_arg, haversin.
      replace ((- lat1 - lat1) / 2) with (- lat1) by lra.
      replace ((lon1 + PI - lon1) / 2) with (PI / 2) by lra.
      rewrite sin_neg, cos_neg, sin_PI2.
      pose proof (sin2_cos2 lat1) as H. unfold Rsqr in H. nra. }
    rewrite Harg, sqrt_1, asin_1. unfold R_earth. f_equal. lra.
  - rewrite !distance_defined. do 3 f_equal.
    unfold sqrt_arg. f_equal. f_equal. unfold haversin.
    replace ((lon2 - (lon1 + 2 * PI)) / 2) with ((lon2 - lon1) / 2 - PI) by lra.
    unfold Rminus at 1. rewrite sin_plus, cos_neg, sin_neg, cos_PI, sin_PI.
    ring.
Qed.

(** ** More on the site matcher *)

Lemma site_distance_nonneg (s : nrel_site) (p : wind_farm) :
  0 <= site_distance s p.
Proof.
  unfold site_distance. rewrite distance_defined. apply distance_range.
Qed.

Lemma nearest_match_min (nrel_sites : list nrel_site) (p : wind_farm)
  (m : site_match) :
  nearest_match nrel_sites p m ->
  (forall s, In s nrel_sites -> dist m <= site_distance s p) /\
  exists s, In s nrel_sites /\ dist m = site_distance s p.
Proof.
  intros (_ & before & s & after & Heq & Hb & Ha & _ & _ & Hd).
  rewrite Forall_forall in Hb, Ha. split.
  - intros s' Hin. rewrite Heq in Hin. apply in_app_or in Hin. rewrite Hd.
    destruct Hin as [Hin | [<- | Hin]];
      [apply Hb in Hin | | apply Ha in Hin]; lra.
  - exists s. split; [rewrite Heq; apply in_elt | exact Hd].
Qed.

(** The rows of a returned table are nearest matches. *)
Lemma matcher_rows (nrel_sites : list nrel_site) (wind_farm_bus : list wind_farm)
  (closest : list site_match) :
  find_NREL_siteID_closest_to_windfarm nrel_sites wind_farm_bus = Some closest ->
  Forall2 (nearest_match nrel_sites) wind_farm_bus closest.
Proof.
  intros Hrun. destruct nrel_sites as [| s sites].
  - destruct wind_farm_bus as [| p bus]; [| discriminate].
    injection Hrun as <-. constructor.
  - destruct (matcher_defined (s :: sites) wind_farm_bus) as (c & Hc & Hall);
      [discriminate |].
    congruence.
Qed.

(** X3: a wind farm that has the coordinates of a catalog site is recorded at
    distance 0. *)
Theorem colocated_farm_at_distance_zero
  (nrel_sites : list nrel_site) (wind_farm_bus : list wind_farm)
  (closest : list site_match) :
  find_NREL_siteID_closest_to_windfarm nrel_sites wind_farm_bus = Some closest ->
  Forall2 (fun p m =>
             (exists s, In s nrel_sites /\
                        site_lat s = bus_lat p /\ site_lon s = bus_lon p) ->
             dist m = 0)
          wind_farm_bus closest.
Proof.
  intros Hrun. apply matcher_rows in Hrun.
  eapply Forall2_impl; [| exact Hrun].
  intros p m Hnear (s & Hin & Hlat & Hlon).
  destruct (nearest_match_min _ _ _ Hnear) as (Hmin & s0 & _ & Hd0).
  assert (Hzero : site_distance s p = 0).
  { unfold site_distance. rewrite Hlat, Hlon, distance_defined, sqrt_arg_same.
    rewrite sqrt_0, asin_0. ring. }
  pose proof (Hmin s Hin) as Hle. pose proof (site_distance_nonneg s0 p). lra.
Qed.

Lemma colocated_farm_at_distance_zero_witness :
  exists closest,
    find_NREL_siteID_closest_to_windfarm
      [site_far; site_on_meridian 4 0 (Q2Qc 9)] [farm0] = Some closest /\
    Forall2 (fun p m =>
               (exists s, In s [site_far; site_on_meridian 4 0 (Q2Qc 9)] /\
                          site_lat s = bus_lat p /\ site_lon s = bus_lon p) ->
               dist m = 0)
            [farm0] closest.
Proof.
  destruct (matcher_defined [site_far; site_on_meridian 4 0 (Q2Qc 9)] [farm0])
    as (closest & Hrun & _); [discriminate |].
  exists closest. split; [exact Hrun |].
  exact (colocated_farm_at_distance_zero _ _ _ Hrun).
Defined.

(** X4: a larger catalog never gives a farm a farther match: when every site
    of one catalog is in another, the distance recorded against the second is
    at most the distance recorded against the first. *)
Theorem larger_catalog_matches_no_farther
  (nrel_sites nrel_sites' : list nrel_site) (wind_farm_bus : list wind_farm)
  (closest closest' : list site_match) :
  incl nrel_sites nrel_sites' ->
  find_NREL_siteID_closest_to_windfarm nrel_sites wind_farm_bus = Some closest ->
  find_NREL_siteID_closest_to_windfarm nrel_sites' wind_farm_bus = Some closest' ->
  Forall2 (fun m m' => dist m' <= dist m) closest closest'.
Proof.
  intros Hincl Hrun Hrun'.
  apply matcher_rows in Hrun. apply matcher_rows in Hrun'.
  revert closest' Hrun'.
  induction Hrun as [| p m bus ms Hnear Hrest IH]; intros closest' Hrun'.
  - inversion Hrun'. constructor.
  - inversion Hrun' as [| p' m' bus' ms' Hnear' Hrest']; subst.
    constructor; [| apply IH, Hrest'].
    destruct (nearest_match_min _ _ _ Hnear) as (_ & s & Hin & Hd).
    destruct (nearest_match_min _ _ _ Hnear') as (Hmin' & _).
    rewrite Hd. apply Hmin', Hincl, Hin.
Qed.

Lemma larger_catalog_matches_no_farther_witness :
  exists closest closest',
    find_NREL_siteID_closest_to_windfarm [site_far] [farm0] = Some closest /\
    find_NREL_siteID_closest_to_windfarm [site_far; site_near] [farm0] =
    Some closest' /\
    Forall2 (fun m m' => dist m' <= dist m) closest closest'.
Proof.
  destruct (matcher_defined [site_far] [farm0]) as (c & Hc & _); [discriminate |].
  destruct (matcher_defined [site_far; site_near] [farm0]) as (c' & Hc' & _);
    [discriminate |].
  exists c, c'. repeat split; [exact Hc | exact Hc' |].
  apply (larger_catalog_matches_no_farther [site_far] [site_far; site_near]
                                           [farm0] c c'); try assumption.
  intros s [<- | []]. left; reflexivity.
Defined.

(** ** Dictionaries: lookup after assignment *)

Section DictFacts.

Context {K V : Type}.
Variable eqb : K -> K -> bool.
Hypothesis eqb_eq : forall a b, eqb a b = true <-> a = b.

Lemma dict_get_set (d : list (K * V)) (k k' : K) (v : V) :
  dict_get eqb (dict_set eqb d k v) k' =
  if eqb k k' then Some v else dict_get eqb d k'.
Proof.
  induction d as [| [k0 v0] d IH]; cbn [dict_set dict_get].
  - reflexivity.
  - destruct (eqb k0 k) eqn:H0.
    + apply eqb_eq in H0. subst k0. cbn [dict_get].
      destruct (eqb k k'); reflexivity.
    + cbn [dict_get]. destruct (eqb k0 k') eqn:H1; [| exact IH].
      apply eqb_eq in H1. subst k0.
      destruct (eqb k k') eqn:H2; [| reflexivity].
      apply eqb_eq in H2. subst k'.
      rewrite (proj2 (eqb_eq k k) eq_refl) in H0. discriminate.
Qed.

Lemma dict_set_keys_NoDup (d : list (K * V)) (k : K) (v : V) :
  NoDup (map fst d) -> NoDup (map fst (dict_set eqb d k v)).
Proof.
  induction d as [| [k0 v0] d IH]; cbn [dict_set map fst]; intros Hnd.
  - constructor; [intros [] | constructor].
  - inversion Hnd as [| ? ? Hnot Hnd']; subst.
    destruct (eqb k0 k) eqn:H0.
    + apply eqb_eq in H0. subst k0. cbn. constructor; assumption.
    + cbn. constructor; [| apply IH, Hnd'].
      intros Hin. apply Hnot. clear -Hin H0 eqb_eq.
      induction d as [| [k1 v1] d IH]; cbn [dict_set map fst] in *.
      * destruct Hin as [-> | []].
        assert (eqb k0 k0 = true) by (apply eqb_eq; reflexivity). congruence.
      * destruct (eqb k1 k) eqn:H1.
        -- apply eqb_eq in H1. subst k1. exact Hin.
        -- cbn in Hin. destruct Hin as [-> | Hin]; [left; reflexivity |].
           right. apply IH, Hin.
Qed.

Lemma dict_get_In (d : list (K * V)) (k : K) (v : V) :
  dict_get eqb d k = Some v -> In (k, v) d.
Proof.
  induction d as [| [k0 v0] d IH]; cbn [dict_get]; [discriminate |].
  destruct (eqb k0 k) eqn:H0.
  - apply eqb_eq in H0. subst k0. intros [= ->]. left; reflexivity.
  - intros H. right. apply IH, H.
Qed.

Lemma dict_In_get (d : list (K * V)) (k : K) (v : V) :
  NoDup (map fst d) -> In (k, v) d -> dict_get eqb d k = Some v.
Proof.
  induction d as [| [k0 v0] d IH]; cbn [dict_get map fst]; [intros _ [] |].
  intros Hnd [Heq | Hin].
  - injection Heq as -> ->.
    assert (H : eqb k k = true) by (apply eqb_eq; reflexivity).
    rewrite H. reflexivity.
  - inversion Hnd as [| ? ? Hnot Hnd']; subst.
    destruct (eqb k0 k) eqn:H0.
    + apply eqb_eq in H0. subst k0. exfalso. apply Hnot.
      change k with (fst (k, v)). apply in_map, Hin.
    + apply IH; assumption.
Qed.

End DictFacts.

Section ReachFacts.

Context {A S : Type}.
Variable body : S -> A -> option S.
Variable P : S -> Prop.

(** What the pass over [x] sets up, and the other passes keep, holds at the
    end of a loop over a list that contains [x]. *)
Lemma for_each_reaches (l : list A) (x : A) (init r : S) :
  In x l ->
  (forall acc acc', body acc x = Some acc' -> P acc') ->
  (forall acc y acc', P acc -> body acc y = Some acc' -> P acc') ->
  for_each body l init = Some r -> P r.
Proof.
  intros Hin Hset Hkeep. revert init.
  induction l as [| y l IH]; intros init Hrun; [destruct Hin |].
  cbn [for_each] in Hrun.
  destruct (body init y) as [acc |] eqn:Hstep; [| discriminate].
  cbn [bind] in Hrun. destruct Hin as [-> | Hin].
  - apply (for_each_preserves body P l acc r); [| | exact Hrun].
    + eapply Hset, Hstep.
    + intros a z a' _ Ha Hz. eapply Hkeep; eassumption.
  - eapply IH; eassumption.
Qed.

End ReachFacts.

Lemma string_eqb_eq (a b : string) : String.eqb a b = true <-> a = b.
Proof. apply String.eqb_eq. Qed.

Lemma Z_eqb_eq (a b : Z) : Z.eqb a b = true <-> a = b.
Proof. apply Z.eqb_eq. Qed.

(** ** The fetcher stores a table for every month and every site *)

Local Close Scope R_scope.
Local Open Scope Z_scope.

Lemma drop_duplicates_first (rows : list site_match) (r : site_match) :
  In r (drop_duplicates rows) -> first_row rows (siteID r) = Some r.
Proof.
  unfold first_row. induction rows as [| x rows IH]; [intros [] |].
  cbn [drop_duplicates find]. intros [-> | Hin].
  - rewrite Z.eqb_refl. reflexivity.
  - apply filter_In in Hin. destruct Hin as (Hin & Hne).
    apply negb_true_iff in Hne. rewrite Z.eqb_sym, Hne. apply IH, Hin.
Qed.

Lemma drop_duplicates_covers (rows : list site_match) (row : site_match) :
  In row rows ->
  exists r, In r (drop_duplicates rows) /\ siteID r = siteID row.
Proof.
  induction rows as [| x rows IH]; [intros [] |].
  cbn [drop_duplicates]. intros [-> | Hin].
  - exists row. split; [left; reflexivity | reflexivity].
  - destruct (IH Hin) as (r & Hr & Hs).
    destruct (Z.eq_dec (siteID r) (siteID x)) as [Heq | Hne].
    + exists x. split; [left; reflexivity | congruence].
    + exists r. split; [| exact Hs]. right. apply filter_In.
      split; [exact Hr |]. apply negb_true_iff, Z.eqb_neq, Hne.
Qed.

Lemma drop_duplicates_NoDup (rows : list site_match) :
  NoDup (map siteID (drop_duplicates rows)).
Proof.
  induction rows as [| x rows IH]; [constructor |].
  cbn [drop_duplicates map]. constructor.
  - intros Hin. apply in_map_iff in Hin. destruct Hin as (r & Hs & Hr).
    apply filter_In in Hr. destruct Hr as (_ & Hne).
    apply negb_true_iff, Z.eqb_neq in Hne. congruence.
  - clear -IH. induction (drop_duplicates rows) as [| r l IHl]; [constructor |].
    cbn [filter]. inversion IH as [| ? ? Hnot Hnd]; subst.
    destruct (negb (siteID r =? siteID x)); [| apply IHl, Hnd].
    cbn [map]. constructor; [| apply IHl, Hnd].
    intros Hin. apply Hnot. apply in_map_iff in Hin.
    destruct Hin as (r' & Hs & Hr'). apply filter_In in Hr'.
    rewrite <- Hs. apply in_map, Hr'.
Qed.

Section FetcherCoverage.

Variable get_nc_data_from_url : Z -> Z -> Z -> site_data.
Variable siteIDs : list site_match.
Variable data_range : list Z.

Let stored (start end_ : Z) (r : site_match) : site_data :=
  frame_div (get_nc_data_from_url (siteID r) start end_) (capacity r).

Lemma fetch_loop_get (start end_ : Z) (rows : list site_match)
  (acc : list (Z * site_data)) :
  NoDup (map siteID rows) ->
  (forall k, ~ In k (map siteID rows) ->
             dict_get Z.eqb
               (fold_left (fun d row => dict_set Z.eqb d (siteID row)
                                          (stored start end_ row)) rows acc) k =
             dict_get Z.eqb acc k) /\
  (forall r, In r rows ->
             dict_get Z.eqb
               (fold_left (fun d row => dict_set Z.eqb d (siteID row)
                                          (stored start end_ row)) rows acc)
               (siteID r) = Some (stored start end_ r)).
Proof.
  revert acc. induction rows as [| x rows IH]; intros acc Hnd.
  - split; [reflexivity | intros r []].
  - inversion Hnd as [| ? ? Hnot Hnd']; subst. cbn [fold_left].
    destruct (IH (dict_set Z.eqb acc (siteID x) (stored start end_ x)) Hnd')
      as (Hother & Hin).
    split.
    + intros k Hk. rewrite Hother by (intros H; apply Hk; right; exact H).
      rewrite (dict_get_set Z.eqb Z_eqb_eq).
      destruct (siteID x =? k) eqn:Hx; [| reflexivity].
      apply Z.eqb_eq in Hx. exfalso. apply Hk. left. exact Hx.
    + intros r [<- | Hr]; [| apply Hin, Hr].
      rewrite Hother by exact Hnot.
      rewrite (dict_get_set Z.eqb Z_eqb_eq), Z.eqb_refl. reflexivity.
Qed.

Lemma fetch_sites_get (start end_ : Z) (row : site_match) :
  In row siteIDs ->
  exists first,
    first_row siteIDs (siteID row) = Some first /\
    dict_get Z.eqb (fetch_sites get_nc_data_from_url siteIDs start end_)
             (siteID row) =
    Some (frame_div (get_nc_data_from_url (siteID row) start end_)
                    (capacity first)).
Proof.
  intros Hrow. destruct (drop_duplicates_covers _ _ Hrow) as (r & Hr & Hs).
  exists r. split.
  - rewrite <- Hs. apply drop_duplicates_first, Hr.
  - unfold fetch_sites.
    destruct (fetch_loop_get start end_ (drop_duplicates siteIDs) []
                (drop_duplicates_NoDup siteIDs)) as (_ & Hget).
    specialize (Hget r Hr). unfold stored in Hget.
    rewrite <- Hs. exact Hget.
Qed.

(** The value stored under a month label is the loop over the sites for the
    first and last timestamp of the month. *)
Let month_value (d : list (string * list (Z * site_data))) : Prop :=
  forall month tables,
    dict_get String.eqb d month = Some tables ->
    exists start end_,
      values0 (select_rows month data_range) = Some start /\
      values_last (select_rows month data_range) = Some end_ /\
      tables = fetch_sites get_nc_data_from_url siteIDs start end_.

Lemma fetch_month_value (y m : Z) (d d' : list (string * list (Z * site_data))) :
  month_value d ->
  fetch_month get_nc_data_from_url siteIDs data_range y d m = Some d' ->
  month_value d'.
Proof.
  intros Hd Hstep. unfold fetch_month in Hstep.
  destruct (values0 _) as [start |] eqn:Hs; [| discriminate].
  destruct (values_last _) as [end_ |] eqn:He; [| discriminate].
  cbn [bind] in Hstep. injection Hstep as <-.
  intros month tables Hget.
  rewrite (dict_get_set String.eqb string_eqb_eq) in Hget.
  destruct (String.eqb (month_label y m) month) eqn:Hm; [| apply Hd, Hget].
  apply String.eqb_eq in Hm. subst month. injection Hget as <-.
  exists start, end_. repeat split; assumption.
Qed.

Lemma fetch_month_sets (y m : Z) (d d' : list (string * list (Z * site_data))) :
  fetch_month get_nc_data_from_url siteIDs data_range y d m = Some d' ->
  dict_get String.eqb d' (month_label y m) <> None.
Proof.
  intros Hstep. unfold fetch_month in Hstep.
  destruct (values0 _) as [start |]; [| discriminate].
  destruct (values_last _) as [end_ |]; [| discriminate].
  cbn [bind] in Hstep. injection Hstep as <-.
  rewrite (dict_get_set String.eqb string_eqb_eq), String.eqb_refl. discriminate.
Qed.

Lemma fetch_month_keeps (y m : Z) (label : string)
  (d d' : list (string * list (Z * site_data))) :
  dict_get String.eqb d label <> None ->
  fetch_month get_nc_data_from_url siteIDs data_range y d m = Some d' ->
  dict_get String.eqb d' label <> None.
Proof.
  intros Hd Hstep. unfold fetch_month in Hstep.
  destruct (values0 _) as [start |]; [| discriminate].
  destruct (values_last _) as [end_ |]; [| discriminate].
  cbn [bind] in Hstep. injection Hstep as <-.
  rewrite (dict_get_set String.eqb string_eqb_eq).
  destruct (String.eqb (month_label y m) label); [discriminate | exact Hd].
Qed.

Lemma fetcher_month_value (sites_dict : list (string * list (Z * site_data))) :
  get_data_from_NREL_server get_nc_data_from_url siteIDs data_range =
  Some sites_dict ->
  month_value sites_dict.
Proof.
  unfold get_data_from_NREL_server.
  apply for_each_preserves.
  - intros month tables H. discriminate.
  - intros acc y acc' _ Hacc. unfold fetch_year. apply for_each_preserves.
    + exact Hacc.
    + intros a m a' _ Ha. apply fetch_month_value, Ha.
Qed.

Lemma fetcher_has_month (t : Z)
  (sites_dict : list (string * list (Z * site_data))) :
  In t data_range ->
  get_data_from_NREL_server get_nc_data_from_url siteIDs data_range =
  Some sites_dict ->
  dict_get String.eqb sites_dict (month_label (year_of t) (month_of t)) <> None.
Proof.
  intros Ht. unfold get_data_from_NREL_server.
  set (label := month_label (year_of t) (month_of t)).
  apply (for_each_reaches _ (fun d => dict_get String.eqb d label <> None)
                          _ (year_of t)).
  - apply unique_In, in_map, Ht.
  - intros acc acc'. unfold fetch_year.
    apply (for_each_reaches _ (fun d => dict_get String.eqb d label <> None)
                            _ (month_of t)).
    + apply unique_In, in_map. apply filter_In. split; [exact Ht |].
      apply in_period_year. reflexivity.
    + intros a a'. apply fetch_month_sets.
    + intros a m a'. apply fetch_month_keeps.
  - intros acc y acc' Hacc. unfold fetch_year.
    apply (for_each_preserves _ (fun d => dict_get String.eqb d label <> None)).
    + exact Hacc.
    + intros a m a' _ Ha. apply fetch_month_keeps, Ha.
Qed.

End FetcherCoverage.

(** X5: for every timestamp of the range and every row of the match table,
    the fetcher's result holds, under the label of the timestamp's month and
    the row's site, the provider's table for the first and last timestamp of
    that month divided by the capacity of the site's first row. *)
Theorem fetcher_covers_months_and_sites
  (get_nc_data_from_url : Z -> Z -> Z -> site_data)
  (siteIDs : list site_match) (data_range : list Z) (t : Z) (row : site_match) :
  In t data_range ->
  In row siteIDs ->
  exists sites_dict tables start end_ first,
    get_data_from_NREL_server get_nc_data_from_url siteIDs data_range =
    Some sites_dict /\
    dict_get String.eqb sites_dict (month_label (year_of t) (month_of t)) =
    Some tables /\
    values0 (select_rows (month_label (year_of t) (month_of t)) data_range) =
    Some start /\
    values_last (select_rows (month_label (year_of t) (month_of t)) data_range) =
    Some end_ /\
    first_row siteIDs (siteID row) = Some first /\
    dict_get Z.eqb tables (siteID row) =
    Some (frame_div (get_nc_data_from_url (siteID row) start end_)
                    (capacity first)).
Proof.
  intros Ht Hrow.
  destruct (fetcher_entries get_nc_data_from_url siteIDs data_range)
    as (sites_dict & Hrun & _).
  pose proof (fetcher_has_month _ _ _ t sites_dict Ht Hrun) as Hkey.
  destruct (dict_get String.eqb sites_dict
                     (month_label (year_of t) (month_of t)))
    as [tables |] eqn:Hget; [| congruence].
  destruct (fetcher_month_value _ _ _ sites_dict Hrun _ _ Hget)
    as (start & end_ & Hs & He & ->).
  destruct (fetch_sites_get get_nc_data_from_url siteIDs start end_ row Hrow)
    as (first & Hfirst & Htable).
  exists sites_dict, (fetch_sites get_nc_data_from_url siteIDs start end_),
    start, end_, first.
  repeat split; assumption.
Qed.

Lemma fetcher_covers_months_and_sites_witness :
  exists sites_dict tables start end_ first,
    get_data_from_NREL_server sample_provider sample_match sample_range =
    Some sites_dict /\
    dict_get String.eqb sites_dict
             (month_label (year_of 1451606700) (month_of 1451606700)) =
    Some tables /\
    values0 (select_rows (month_label (year_of 1451606700) (month_of 1451606700))
                         sample_range) = Some start /\
    values_last (select_rows (month_label (year_of 1451606700)
                                          (month_of 1451606700))
                             sample_range) = Some end_ /\
    first_row sample_match 2 = Some first /\
    dict_get Z.eqb tables 2 =
    Some (frame_div (sample_provider 2 start end_) (capacity first)).
Proof.
  apply (fetcher_covers_months_and_sites sample_provider sample_match
           sample_range 1451606700
           {| closest_plantID := 7; siteID := 2; capacity := Q2Qc 2; dist := 5 |}).
  - right; left; reflexivity.
  - left; reflexivity.
Defined.

(** ** Month labels *)

Lemma str_int_inj (y y' : Z) : str_int y = str_int y' -> y = y'.
Proof.
  unfold str_int. intros H.
  apply (f_equal NilEmpty.int_of_string) in H.
  rewrite !NilEmpty.isi in H. injection H as H.
  apply DecimalZ.to_int_inj, H.
Qed.

Lemma append_inj (a a' b b' : string) :
  String.length a = String.length a' ->
  (a ++ b)%string = (a' ++ b')%string -> a = a' /\ b = b'.
Proof.
  revert a'. induction a as [| c a IH]; intros [| c' a'] Hlen H;
    try discriminate.
  - split; [reflexivity | exact H].
  - cbn in Hlen, H. injection Hlen as Hlen. injection H as -> H.
    destruct (IH a' Hlen H) as (-> & ->). split; reflexivity.
Qed.

Lemma string_length_app (a b : string) :
  String.length (a ++ b) = (String.length a + String.length b)%nat.
Proof.
  induction a as [| c a IH]; cbn; [reflexivity | rewrite IH; reflexivity].
Qed.

Lemma year_text_length (y : Z) :
  1000 <= y <= 9999 -> String.length (str_int y) = 4%nat.
Proof.
  intros Hy.
  assert (Hall : forallb (fun k => (String.length (str_int (1000 + Z.of_nat k))
                                    =? 4)%nat) (seq 0 (Z.to_nat 9000)) = true)
    by (vm_compute; reflexivity).
  rewrite forallb_forall in Hall.
  specialize (Hall (Z.to_nat (y - 1000))).
  replace (1000 + Z.of_nat (Z.to_nat (y - 1000))) with y in Hall by lia.
  apply Nat.eqb_eq, Hall, in_seq. lia.
Qed.

Lemma month_in_1_12 (m : Z) :
  1 <= m <= 12 -> In m [1; 2; 3; 4; 5; 6; 7; 8; 9; 10; 11; 12].
Proof.
  intros Hm. cbn.
  assert (H : m = 1 \/ m = 2 \/ m = 3 \/ m = 4 \/ m = 5 \/ m = 6 \/ m = 7 \/
              m = 8 \/ m = 9 \/ m = 10 \/ m = 11 \/ m = 12) by lia.
  intuition.
Qed.

Lemma month_suffix_facts (m m' : Z) :
  1 <= m <= 12 -> 1 <= m' <= 12 ->
  String.length (month_suffix m) = 3%nat /\
  (month_suffix m = month_suffix m' -> m = m').
Proof.
  intros Hm Hm'.
  assert (Hall :
            forallb (fun a =>
                       (String.length (month_suffix a) =? 3)%nat &&
                       forallb (fun b =>
                                  implb (String.eqb (month_suffix a)
                                                    (month_suffix b))
                                        (a =? b))
                               [1; 2; 3; 4; 5; 6; 7; 8; 9; 10; 11; 12])
                    [1; 2; 3; 4; 5; 6; 7; 8; 9; 10; 11; 12] = true)
    by (vm_compute; reflexivity).
  rewrite forallb_forall in Hall.
  specialize (Hall m (month_in_1_12 m Hm)).
  apply andb_true_iff in Hall. destruct Hall as (Hlen & Hinj).
  split; [apply Nat.eqb_eq, Hlen |].
  intros Heq. rewrite forallb_forall in Hinj.
  specialize (Hinj m' (month_in_1_12 m' Hm')).
  rewrite Heq, String.eqb_refl in Hinj. apply Z.eqb_eq, Hinj.
Qed.

Lemma month_label_suffix (y m : Z) :
  month_label y m = (str_int y ++ month_suffix m)%string.
Proof.
  unfold month_label, month_suffix. destruct (m <? 10); reflexivity.
Qed.

(** X6: for a four-digit year and a month from 1 to 12 the label has seven
    characters, the year's four digits then a hyphen then two digits, and two
    labels are equal only for the same year and month: the months of a range
    never share a key of the result. *)
Theorem month_labels_are_distinct (y m y' m' : Z) :
  1000 <= y <= 9999 -> 1 <= m <= 12 ->
  1000 <= y' <= 9999 -> 1 <= m' <= 12 ->
  String.length (month_label y m) = 7%nat /\
  substring 0 4 (month_label y m) = str_int y /\
  String.get 4 (month_label y m) = Some "-"%char /\
  (month_label y m = month_label y' m' -> y = y' /\ m = m').
Proof.
  intros Hy Hm Hy' Hm'.
  pose proof (year_text_length y Hy) as Hlen.
  pose proof (year_text_length y' Hy') as Hlen'.
  destruct (month_suffix_facts m m' Hm Hm') as (Hslen & Hsinj).
  rewrite !month_label_suffix.
  repeat split.
  - rewrite string_length_app, Hlen, Hslen. reflexivity.
  - rewrite <- Hlen. clear. induction (str_int y) as [| c s IH]; cbn.
    + destruct (month_suffix m); reflexivity.
    + rewrite IH. reflexivity.
  - replace 4%nat with (0 + String.length (str_int y))%nat by (rewrite Hlen; reflexivity).
    rewrite <- String.append_correct2.
    unfold month_suffix. destruct (m <? 10); reflexivity.
  - apply str_int_inj.
    apply (append_inj _ _ (month_suffix m) (month_suffix m')); congruence.
  - apply Hsinj.
    apply (append_inj (str_int y) (str_int y')); congruence.
Qed.

Lemma month_labels_are_distinct_witness :
  String.length (month_label 2016 1) = 7%nat /\
  substring 0 4 (month_label 2016 1) = str_int 2016 /\
  String.get 4 (month_label 2016 1) = Some "-"%char /\
  (month_label 2016 1 = month_label 2016 12 -> 2016 = 2016 /\ 1 = 12).
Proof.
  apply (month_labels_are_distinct 2016 1 2016 12); lia.
Defined.

(** ** The reshaper stores every table on the rows of its month *)

Lemma scatter_read (mask : list bool) (old values : list cell) :
  List.length old = List.length mask ->
  List.length values = count_true mask ->
  boolean_index (scatter mask old values) mask = values.
Proof.
  revert old values. induction mask as [| b mask IH]; intros old values Ho Hv.
  - destruct values; [| discriminate]. destruct old; reflexivity.
  - destruct old as [| x old]; [discriminate |]. injection Ho as Ho.
    destruct b.
    + destruct values as [| v values]; [discriminate |].
      injection Hv as Hv. cbn. f_equal. apply IH; assumption.
    + cbn. apply IH; assumption.
Qed.

Lemma scatter_apart (p p' : Z -> bool) (idx : list Z) (old values : list cell) :
  (forall t, In t idx -> p t = true -> p' t = true -> False) ->
  boolean_index (scatter (map p' idx) old values) (map p idx) =
  boolean_index old (map p idx).
Proof.
  revert old values. induction idx as [| t idx IH]; intros old values Hapart.
  - destruct old; reflexivity.
  - assert (Hrest : forall t', In t' idx -> p t' = true -> p' t' = true -> False).
    { intros t' Hin. apply Hapart. right; exact Hin. }
    destruct old as [| x old]; [cbn; destruct (p' t); reflexivity |].
    cbn [map]. destruct (p' t) eqn:Hp'.
    + destruct (p t) eqn:Hp; [exfalso; eapply Hapart; [left |..]; eauto |].
      destruct values; cbn; apply IH, Hrest.
    + cbn. destruct (p t); [f_equal |]; apply IH, Hrest.
Qed.

Lemma dict_get_update (g : list cell -> list cell) (cols : list (Z * list cell))
  (site' site : Z) :
  dict_get Z.eqb
    (map (fun c => if fst c =? site' then (fst c, g (snd c)) else c) cols) site =
  if site' =? site then option_map g (dict_get Z.eqb cols site)
  else dict_get Z.eqb cols site.
Proof.
  induction cols as [| [l v] cols IH]; cbn [map dict_get fst snd].
  - destruct (site' =? site); reflexivity.
  - destruct (l =? site') eqn:Hl; cbn [dict_get fst snd].
    + apply Z.eqb_eq in Hl. subst l.
      destruct (site' =? site); [reflexivity | exact IH].
    + destruct (l =? site) eqn:Hs; [| exact IH].
      apply Z.eqb_eq in Hs. subst l. rewrite Z.eqb_sym, Hl. reflexivity.
Qed.

Lemma dict_get_app_some {V : Type} (d d' : list (Z * V)) (k : Z) (v : V) :
  dict_get Z.eqb d k = Some v -> dict_get Z.eqb (d ++ d') k = Some v.
Proof.
  induction d as [| [k0 v0] d IH]; cbn [app dict_get]; [discriminate |].
  destruct (k0 =? k); [trivial | exact IH].
Qed.

Lemma dict_get_app_none {V : Type} (d d' : list (Z * V)) (k : Z) :
  dict_get Z.eqb d k = None -> dict_get Z.eqb (d ++ d') k = dict_get Z.eqb d' k.
Proof.
  induction d as [| [k0 v0] d IH]; cbn [app dict_get]; [reflexivity |].
  destruct (k0 =? k); [discriminate | exact IH].
Qed.

Lemma dict_get_label (cols : list (Z * list cell)) (site : Z) :
  existsb (Z.eqb site) (map fst cols) = false ->
  dict_get Z.eqb cols site = None.
Proof.
  induction cols as [| [l v] cols IH]; cbn; [reflexivity |].
  intros H. apply orb_false_iff in H. destruct H as (H1 & H2).
  rewrite Z.eqb_sym, H1. apply IH, H2.
Qed.

(** What [loc_set] tells when it returns. *)
Lemma loc_set_cases (f f' : frame) (month : string) (site : Z)
  (values : list cell) :
  loc_set f month site values = Some f' ->
  List.length values = count_true (map (in_period month) (index f)) /\
  index f' = index f /\
  ((existsb (Z.eqb site) (labels f) = true /\
    columns f' =
    map (fun c => if fst c =? site
                  then (fst c, scatter (map (in_period month) (index f))
                                       (snd c) values)
                  else c) (columns f)) \/
   (existsb (Z.eqb site) (labels f) = false /\
    columns f' =
    columns f ++
    [(site, scatter (map (in_period month) (index f))
                    (repeat nan (List.length (index f))) values)])).
Proof.
  unfold loc_set.
  destruct (count_true _ =? 0)%nat; [discriminate |].
  destruct (List.length values =? count_true _)%nat eqn:Hlen; [| discriminate].
  apply Nat.eqb_eq in Hlen. cbn [negb].
  destruct (existsb (Z.eqb site) (labels f)); intros [= <-]; cbn;
    repeat split; auto.
Qed.

Lemma loc_set_rectangular (f f' : frame) (month : string) (site : Z)
  (values : list cell) :
  rectangular f -> loc_set f month site values = Some f' -> rectangular f'.
Proof.
  intros Hrect Hset.
  destruct (loc_set_cases _ _ _ _ _ Hset) as (_ & Hidx & [[_ Hc] | [_ Hc]]);
    unfold rectangular in *; rewrite Hc, Hidx, Forall_forall in *.
  - intros c Hin. apply in_map_iff in Hin. destruct Hin as (c0 & <- & Hc0).
    specialize (Hrect _ Hc0). destruct (fst c0 =? site); cbn;
      [rewrite scatter_length |]; exact Hrect.
  - intros c Hin. apply in_app_or in Hin. destruct Hin as [Hin | [<- | []]].
    + apply Hrect, Hin.
    + cbn. rewrite scatter_length. apply repeat_length.
Qed.

(** After the assignment the cells of the month and site are the values. *)
Lemma loc_set_stores (f f' : frame) (month : string) (site : Z)
  (values : list cell) :
  rectangular f ->
  loc_set f month site values = Some f' ->
  month_cells f' month site = Some values.
Proof.
  intros Hrect Hset.
  destruct (loc_set_cases _ _ _ _ _ Hset) as (Hlen & Hidx & [[He Hc] | [He Hc]]);
    unfold month_cells, get_column; rewrite Hc, Hidx.
  - rewrite (dict_get_update
               (fun col => scatter (map (in_period month) (index f)) col values)),
      Z.eqb_refl.
    destruct (dict_get Z.eqb (columns f) site) as [col |] eqn:Hget.
    + cbn. f_equal. apply scatter_read; [| exact Hlen].
      apply (dict_get_In Z.eqb Z_eqb_eq) in Hget.
      unfold rectangular in Hrect. rewrite Forall_forall in Hrect.
      specialize (Hrect _ Hget). cbn in Hrect. rewrite length_map. exact Hrect.
    + exfalso. apply existsb_exists in He. destruct He as (l & Hin & Hl).
      apply Z.eqb_eq in Hl. subst l. unfold labels in Hin.
      apply in_map_iff in Hin. destruct Hin as ([l v] & Hl & Hin).
      cbn in Hl. subst l.
      clear -Hget Hin. induction (columns f) as [| [k0 v0] d IH];
        [destruct Hin |].
      cbn in Hget. destruct (k0 =? site) eqn:Hk; [discriminate |].
      destruct Hin as [[= -> ->] | Hin]; [rewrite Z.eqb_refl in Hk; discriminate |].
      apply IH; assumption.
  - rewrite dict_get_app_none by (apply dict_get_label, He).
    cbn. rewrite Z.eqb_refl. cbn. f_equal.
    apply scatter_read; [| exact Hlen].
    rewrite repeat_length, length_map. reflexivity.
Qed.

(** An assignment to another site, or to a month that shares no row with
    [month], leaves the cells of [month] and [site] as they are. *)
Lemma loc_set_keeps (f f' : frame) (month month' : string) (site site' : Z)
  (values values' : list cell) :
  (site' <> site \/
   forall t, In t (index f) ->
             in_period month t = true -> in_period month' t = true -> False) ->
  month_cells f month site = Some values ->
  loc_set f month' site' values' = Some f' ->
  month_cells f' month site = Some values.
Proof.
  intros Hother Hcells Hset.
  destruct (loc_set_cases _ _ _ _ _ Hset) as (_ & Hidx & [[_ Hc] | [_ Hc]]);
    unfold month_cells, get_column in *; rewrite Hc, Hidx.
  - rewrite (dict_get_update
               (fun col => scatter (map (in_period month') (index f)) col values')).
    destruct (site' =? site) eqn:Hs; [| exact Hcells].
    apply Z.eqb_eq in Hs. destruct Hother as [Hne | Hapart]; [congruence |].
    destruct (dict_get Z.eqb (columns f) site) as [col |]; [| discriminate].
    cbn in *. injection Hcells as <-. f_equal.
    apply scatter_apart, Hapart.
  - destruct (dict_get Z.eqb (columns f) site) as [col |] eqn:Hget;
      [| discriminate].
    rewrite (dict_get_app_some _ _ _ _ Hget). exact Hcells.
Qed.

Section KeyedLoop.

Context {A S K : Type}.
Variable body : S -> A -> option S.
Variable key : A -> K.
Variables Inv P : S -> Prop.

(** In a loop over entries of distinct keys, what the pass over [x] sets up
    and the passes over the other keys keep holds at the end. *)
Lemma for_each_reaches_key (l : list A) (x : A) (init r : S) :
  In x l ->
  NoDup (map key l) ->
  Inv init ->
  (forall acc y acc', In y l -> Inv acc -> body acc y = Some acc' -> Inv acc') ->
  (forall acc acc', Inv acc -> body acc x = Some acc' -> P acc') ->
  (forall acc y acc', In y l -> key y <> key x -> Inv acc -> P acc ->
                      body acc y = Some acc' -> P acc') ->
  for_each body l init = Some r -> P r.
Proof.
  intros Hin Hnd Hinit Hinv Hset Hkeep. revert init Hinit.
  induction l as [| y l IH]; intros init Hinit Hrun; [destruct Hin |].
  cbn [for_each] in Hrun.
  destruct (body init y) as [acc |] eqn:Hstep; [| discriminate].
  cbn [bind] in Hrun. inversion Hnd as [| ? ? Hnot Hnd']; subst.
  assert (Hacc : Inv acc)
    by (eapply Hinv; [left; reflexivity | exact Hinit | exact Hstep]).
  destruct Hin as [-> | Hin].
  - assert (Hboth : P r /\ Inv r).
    { apply (for_each_preserves body (fun s => P s /\ Inv s) l acc r);
        [| | exact Hrun].
      - split; [eapply Hset; [exact Hinit | exact Hstep] | exact Hacc].
      - intros a z a' Hz [Hp Hi] Hbz. split.
        + eapply Hkeep; try eassumption; [right; exact Hz |].
          intros Heq. apply Hnot. rewrite <- Heq. apply in_map, Hz.
        + eapply Hinv; [right; exact Hz | |]; eassumption. }
    apply Hboth.
  - apply (IH Hin Hnd') with (init := acc); try assumption.
    + intros a z a' Hz. apply Hinv. right; exact Hz.
    + intros a z a' Hz. apply Hkeep. right; exact Hz.
Qed.

End KeyedLoop.

Lemma loc_set_index (f f' : frame) (month : string) (site : Z)
  (values : list cell) :
  loc_set f month site values = Some f' -> index f' = index f.
Proof.
  intros H. apply loc_set_cases in H. apply H.
Qed.

Lemma reshape_site_inv_kept (data_range : list Z) (month : string)
  (acc acc' : frame * frame) (entry : Z * site_data) :
  tables_inv data_range acc ->
  reshape_site month acc entry = Some acc' ->
  tables_inv data_range acc'.
Proof.
  intros (Hr1 & Hr2 & Hi1 & Hi2). unfold reshape_site.
  destruct (loc_set (fst acc) _ _ _) as [p |] eqn:Hp; [| discriminate].
  cbn [bind]. destruct (loc_set (snd acc) _ _ _) as [w |] eqn:Hw; [| discriminate].
  cbn [bind]. intros [= <-]. unfold tables_inv. cbn [fst snd].
  repeat split.
  - exact (loc_set_rectangular _ _ _ _ _ Hr1 Hp).
  - exact (loc_set_rectangular _ _ _ _ _ Hr2 Hw).
  - rewrite (loc_set_index _ _ _ _ _ Hp). exact Hi1.
  - rewrite (loc_set_index _ _ _ _ _ Hw). exact Hi2.
Qed.

Lemma reshape_site_stores (data_range : list Z) (month : string)
  (acc acc' : frame * frame) (site : Z) (table : site_data) :
  tables_inv data_range acc ->
  reshape_site month acc (site, table) = Some acc' ->
  tables_hold month site table acc'.
Proof.
  intros (Hr1 & Hr2 & _). unfold reshape_site. cbn [fst snd].
  destruct (loc_set (fst acc) _ _ _) as [p |] eqn:Hp; [| discriminate].
  cbn [bind]. destruct (loc_set (snd acc) _ _ _) as [w |] eqn:Hw; [| discriminate].
  cbn [bind]. intros [= <-]. split; cbn [fst snd].
  - exact (loc_set_stores _ _ _ _ _ Hr1 Hp).
  - exact (loc_set_stores _ _ _ _ _ Hr2 Hw).
Qed.

Lemma reshape_site_keeps (data_range : list Z) (month month' : string)
  (acc acc' : frame * frame) (site : Z) (table : site_data)
  (entry : Z * site_data) :
  (fst entry <> site \/
   forall t, In t data_range ->
             in_period month t = true -> in_period month' t = true -> False) ->
  tables_inv data_range acc ->
  tables_hold month site table acc ->
  reshape_site month' acc entry = Some acc' ->
  tables_hold month site table acc'.
Proof.
  intros Hother (_ & _ & Hi1 & Hi2) (Hp0 & Hw0). unfold reshape_site.
  destruct (loc_set (fst acc) _ _ _) as [p |] eqn:Hp; [| discriminate].
  cbn [bind]. destruct (loc_set (snd acc) _ _ _) as [w |] eqn:Hw; [| discriminate].
  cbn [bind]. intros [= <-]. split; cbn [fst snd].
  - eapply loc_set_keeps; [| exact Hp0 | exact Hp]. rewrite Hi1. exact Hother.
  - eapply loc_set_keeps; [| exact Hw0 | exact Hw]. rewrite Hi2. exact Hother.
Qed.

Lemma tables_inv_start (data_range cols : list Z) :
  tables_inv data_range (empty_frame data_range cols, empty_frame data_range cols).
Proof.
  repeat split; apply rectangular_empty_frame.
Qed.

(** The two loops of the reshaper, from any pair of rectangular tables
    indexed by the range. *)
Lemma reshape_loop_holds
  (data : list (string * list (Z * site_data))) (data_range : list Z)
  (init result : frame * frame)
  (month : string) (tables : list (Z * site_data)) (site : Z)
  (table : site_data) :
  NoDup (map fst data) ->
  (forall m ts, In (m, ts) data -> NoDup (map fst ts)) ->
  months_apart data data_range ->
  tables_inv data_range init ->
  for_each reshape_month data init = Some result ->
  In (month, tables) data ->
  In (site, table) tables ->
  tables_hold month site table result.
Proof.
  intros Hkeys Hsites Hapart Hinit Hrun Hmonth Hsite.
  refine (for_each_reaches_key reshape_month fst (tables_inv data_range)
            (tables_hold month site table) data (month, tables) _ _
            Hmonth Hkeys Hinit _ _ _ Hrun).
  - intros acc y acc' _ Hacc. unfold reshape_month.
    apply for_each_preserves; [exact Hacc |].
    intros a e a' _. apply reshape_site_inv_kept.
  - intros acc acc' Hacc. unfold reshape_month. cbn [fst snd].
    refine (for_each_reaches_key (reshape_site month) fst (tables_inv data_range)
              (tables_hold month site table) tables (site, table) _ _
              Hsite (Hsites _ _ Hmonth) Hacc _ _ _).
    + intros a e a' _. apply reshape_site_inv_kept.
    + intros a a'. apply reshape_site_stores.
    + intros a e a' _ Hne. apply reshape_site_keeps. left. exact Hne.
  - intros acc [month' tables'] acc' Hin Hne Hacc Hhold. unfold reshape_month.
    cbn [fst snd] in *. intros Hloop.
    assert (Hboth : tables_hold month site table acc' /\ tables_inv data_range acc').
    { apply (for_each_preserves (reshape_site month')
               (fun s => tables_hold month site table s /\ tables_inv data_range s)
               tables' acc acc'); [split; assumption | | exact Hloop].
      intros a e a' _ [Hh Hi] Hstep. split.
      - eapply reshape_site_keeps; [| exact Hi | exact Hh | exact Hstep].
        right. intros t Ht Hp Hp'.
        apply (Hapart month month' t); try assumption.
        + change month with (fst (month, tables)). apply in_map, Hmonth.
        + change month' with (fst (month', tables')). apply in_map, Hin.
        + congruence.
      - eapply reshape_site_inv_kept; eassumption. }
    apply Hboth.
Qed.

(** ** From the provider to the tables *)

Lemma reshaper_runs (data : list (string * list (Z * site_data)))
  (data_range : list Z) (closest_NREL_siteID : list site_match) :
  fetched_shape data data_range closest_NREL_siteID ->
  exists tables,
    dict_to_DataFrame data data_range closest_NREL_siteID = Some tables.
Proof.
  intros Hshape.
  set (cols := unique (map siteID closest_NREL_siteID)).
  destruct (for_each_invariant reshape_month
              (fun acc => table_inv data data_range cols (fst acc) /\
                          table_inv data data_range cols (snd acc))
              data (empty_frame data_range cols, empty_frame data_range cols))
    as (r & Hr & _).
  - split; apply table_inv_empty.
  - intros acc [month tables] Hmonth Hacc. unfold reshape_month. cbn [fst snd].
    apply for_each_invariant; [exact Hacc |].
    intros acc' entry Hentry Hacc'.
    eapply reshape_site_inv; try eassumption. reflexivity.
  - exists r. exact Hr.
Qed.

(** X7: for data of the shape the fetcher produces (every site a matched
    site, every month with timestamps in the range, one value per timestamp
    of the month in every table) the reshaper returns, and each table of the
    data can be read back: the power table holds, in the column of the site
    and on the rows of the month, the power values in order, and the
    wind-speed table the wind speeds.  The keys of the data are distinct, as
    in a dictionary, and distinct months share no timestamp. *)
Theorem reshaper_stores_every_table
  (data : list (string * list (Z * site_data))) (data_range : list Z)
  (closest_NREL_siteID : list site_match) :
  NoDup (map fst data) ->
  (forall m ts, In (m, ts) data -> NoDup (map fst ts)) ->
  months_apart data data_range ->
  fetched_shape data data_range closest_NREL_siteID ->
  exists NREL_power NREL_windspeed,
    dict_to_DataFrame data data_range closest_NREL_siteID =
    Some (NREL_power, NREL_windspeed) /\
    forall month tables site table,
      In (month, tables) data ->
      In (site, table) tables ->
      month_cells NREL_power month site = Some (power table) /\
      month_cells NREL_windspeed month site = Some (wind_speed table).
Proof.
  intros Hkeys Hsites Hapart Hshape.
  destruct (reshaper_runs _ _ _ Hshape) as ([P W] & Hrun).
  exists P, W. split; [exact Hrun |].
  intros month tables site table Hmonth Hsite.
  unfold dict_to_DataFrame in Hrun.
  pose proof (tables_inv_start data_range
                (unique (map siteID closest_NREL_siteID))) as Hstart.
  pose proof (reshape_loop_holds data data_range _ _ month tables site table
                Hkeys Hsites Hapart Hstart Hrun Hmonth Hsite) as [Hp Hw].
  split; [exact Hp | exact Hw].
Qed.

Lemma reshaper_stores_every_table_witness :
  exists NREL_power NREL_windspeed,
    dict_to_DataFrame sample_data sample_range sample_match =
    Some (NREL_power, NREL_windspeed) /\
    month_cells NREL_power "2016-01" 2 =
    Some (power (frame_div (sample_provider 2 1451606400 1451606700) (Q2Qc 2))) /\
    month_cells NREL_windspeed "2016-01" 2 =
    Some (wind_speed (frame_div (sample_provider 2 1451606400 1451606700)
                                (Q2Qc 2))).
Proof.
  destruct (reshaper_stores_every_table sample_data sample_range sample_match)
    as (P & W & Hrun & Hread).
  - repeat constructor. intros [].
  - intros m ts [[= <- <-] | []]. repeat constructor. intros [].
  - intros m m' t [<- | []] [<- | []] Hne. congruence.
  - repeat constructor. discriminate.
  - exists P, W. split; [exact Hrun |].
    apply (Hread "2016-01"%string
             [(2, frame_div (sample_provider 2 1451606400 1451606700) (Q2Qc 2))]);
      left; reflexivity.
Defined.

Section FetchedKeys.

Variable get_nc_data_from_url : Z -> Z -> Z -> site_data.
Variable siteIDs : list site_match.
Variable data_range : list Z.

Lemma fetch_sites_keys (start end_ : Z) :
  NoDup (map fst (fetch_sites get_nc_data_from_url siteIDs start end_)).
Proof.
  unfold fetch_sites.
  assert (Hgen : forall rows (acc : list (Z * site_data)),
             NoDup (map fst acc) ->
             NoDup (map fst
                      (fold_left
                         (fun month_dict row =>
                            dict_set Z.eqb month_dict (siteID row)
                              (frame_div
                                 (get_nc_data_from_url (siteID row) start end_)
                                 (capacity row)))
                         rows acc))).
  { induction rows as [| r rows IH]; intros acc Hacc; [exact Hacc |].
    cbn [fold_left]. apply IH. apply (dict_set_keys_NoDup Z.eqb Z_eqb_eq), Hacc. }
  apply Hgen. constructor.
Qed.

Let keyed (d : list (string * list (Z * site_data))) : Prop :=
  NoDup (map fst d) /\
  Forall (fun e => (exists y m, fst e = month_label y m) /\
                   NoDup (map fst (snd e))) d.

Lemma fetcher_keys (sites_dict : list (string * list (Z * site_data))) :
  get_data_from_NREL_server get_nc_data_from_url siteIDs data_range =
  Some sites_dict ->
  keyed sites_dict.
Proof.
  unfold get_data_from_NREL_server. apply for_each_preserves.
  - split; constructor.
  - intros acc y acc' _ Hacc. unfold fetch_year. apply for_each_preserves;
      [exact Hacc |].
    intros a m a' _ [Hnd Hall] Hstep. unfold fetch_month in Hstep.
    destruct (values0 _) as [start |]; [| discriminate].
    destruct (values_last _) as [end_ |]; [| discriminate].
    cbn [bind] in Hstep. injection Hstep as <-. split.
    + apply (dict_set_keys_NoDup String.eqb string_eqb_eq), Hnd.
    + apply dict_set_Forall; [exact Hall |]. cbn [fst snd]. split.
      * exists y, m. reflexivity.
      * apply fetch_sites_keys.
Qed.

Lemma fetcher_months_apart (sites_dict : list (string * list (Z * site_data))) :
  get_data_from_NREL_server get_nc_data_from_url siteIDs data_range =
  Some sites_dict ->
  months_apart sites_dict data_range.
Proof.
  intros Hrun. destruct (fetcher_keys _ Hrun) as (_ & Hall).
  rewrite Forall_forall in Hall.
  intros month month' t Hm Hm' Hne _ Hp Hp'.
  apply in_map_iff in Hm, Hm'.
  destruct Hm as (e & He & Hin). destruct Hm' as (e' & He' & Hin').
  destruct (Hall _ Hin) as ((y & m & Hl) & _).
  destruct (Hall _ Hin') as ((y' & m' & Hl') & _).
  rewrite He in Hl. rewrite He' in Hl'.
  rewrite Hl in Hp. rewrite Hl' in Hp'.
  apply in_period_month in Hp, Hp'. congruence.
Qed.

End FetchedKeys.

(** X8: when the provider answers one row per timestamp of the month, the
    fetcher followed by the reshaper returns two tables, and for every
    timestamp of the range and every matched site the column of the site
    holds, on the rows of the timestamp's month, the provider's power (in the
    power table) and wind speed (in the wind-speed table) of that month, each
    divided by the capacity of the site's first row. *)
Theorem fetch_then_reshape
  (get_nc_data_from_url : Z -> Z -> Z -> site_data)
  (siteIDs : list site_match) (data_range : list Z) :
  (forall month site start end_,
      values0 (select_rows month data_range) = Some start ->
      values_last (select_rows month data_range) = Some end_ ->
      List.length (power (get_nc_data_from_url site start end_)) =
      List.length (select_rows month data_range) /\
      List.length (wind_speed (get_nc_data_from_url site start end_)) =
      List.length (select_rows month data_range)) ->
  exists data NREL_power NREL_windspeed,
    get_data_from_NREL_server get_nc_data_from_url siteIDs data_range =
    Some data /\
    dict_to_DataFrame data data_range siteIDs =
    Some (NREL_power, NREL_windspeed) /\
    forall t row,
      In t data_range -> In row siteIDs ->
      exists start end_ first,
        values0 (select_rows (month_label (year_of t) (month_of t)) data_range) =
        Some start /\
        values_last (select_rows (month_label (year_of t) (month_of t))
                                 data_range) = Some end_ /\
        first_row siteIDs (siteID row) = Some first /\
        month_cells NREL_power (month_label (year_of t) (month_of t))
                    (siteID row) =
        Some (map (fun x => cell_div x (Some (capacity first)))
                  (power (get_nc_data_from_url (siteID row) start end_))) /\
        month_cells NREL_windspeed (month_label (year_of t) (month_of t))
                    (siteID row) =
        Some (map (fun x => cell_div x (Some (capacity first)))
                  (wind_speed (get_nc_data_from_url (siteID row) start end_))).
Proof.
  intros Hprov.
  destruct (fetcher_entries get_nc_data_from_url siteIDs data_range)
    as (data & Hfetch & _).
  pose proof (fetched_data_has_shape _ _ _ _ Hprov Hfetch) as Hshape.
  destruct (reshaper_runs _ _ _ Hshape) as ([P W] & Hrun).
  exists data, P, W. split; [exact Hfetch |]. split; [exact Hrun |].
  intros t row Ht Hrow.
  pose proof (fetcher_has_month _ _ _ t data Ht Hfetch) as Hkey.
  destruct (dict_get String.eqb data (month_label (year_of t) (month_of t)))
    as [tables |] eqn:Hget; [| congruence].
  destruct (fetcher_month_value _ _ _ data Hfetch _ _ Hget)
    as (start & end_ & Hs & He & ->).
  destruct (fetch_sites_get get_nc_data_from_url siteIDs start end_ row Hrow)
    as (first & Hfirst & Htable).
  exists start, end_, first. repeat split; try assumption.
  all: destruct (fetcher_keys _ _ _ _ Hfetch) as (Hnd & Hall);
    apply (dict_get_In String.eqb string_eqb_eq) in Hget;
    apply (dict_get_In Z.eqb Z_eqb_eq) in Htable;
    unfold dict_to_DataFrame in Hrun;
    assert (Hhold := reshape_loop_holds data data_range _ _ _ _ _ _ Hnd
              (fun m ts Hin => proj2 (proj1 (Forall_forall _ _) Hall _ Hin))
              (fetcher_months_apart _ _ _ _ Hfetch)
              (tables_inv_start _ _) Hrun Hget Htable);
    destruct Hhold as [Hp Hw]; cbn in Hp, Hw; assumption.
Qed.

Lemma fetch_then_reshape_witness :
  exists data NREL_power NREL_windspeed,
    get_data_from_NREL_server sample_provider sample_match sample_range =
    Some data /\
    dict_to_DataFrame data sample_range sample_match =
    Some (NREL_power, NREL_windspeed) /\
    shape NREL_power = (2%nat, 1%nat).
Proof.
  destruct (fetch_then_reshape sample_provider sample_match sample_range)
    as (data & P & W & Hfetch & Hrun & _).
  - intros month site start end_ Hs _. cbn.
    unfold select_rows, sample_range in *. cbn [filter] in *.
    change (in_period month 1451606700) with (in_period month 1451606400) in *.
    destruct (in_period month 1451606400); cbn in *;
      try discriminate; split; reflexivity.
  - exists data, P, W. repeat split; try assumption.
    assert (Hd : Some data = Some sample_data) by (rewrite <- Hfetch; reflexivity).
    injection Hd as ->.
    assert (HP : option_map (fun pw => shape (fst pw)) (Some (P, W)) =
                 Some (2%nat, 1%nat)) by (rewrite <- Hrun; reflexivity).
    cbn [option_map fst] in HP. congruence.
Defined.

(** ** More on the power scaler *)

Lemma scale_plant_series (NREL_power : frame)
  (closest_NREL_siteID : list site_match) (f : frame) (plant : wind_farm) :
  scale_plant NREL_power closest_NREL_siteID f plant =
  option_map (fun series =>
                set_column f (plantID plant)
                           (map (fun x => cell_mul x (GenMWMax plant)) series))
             (plant_series NREL_power closest_NREL_siteID plant).
Proof.
  unfold scale_plant, plant_series.
  destruct (loc_siteID closest_NREL_siteID (plantID plant)) as [site |];
    [| reflexivity].
  cbn [bind]. destruct (get_column NREL_power site); reflexivity.
Qed.

(** X9: the scaler raises exactly when some plant of the bus table has no row
    in the match table, or is matched to a site that is not a column of the
    power table. *)
Theorem scaler_fails_on_unmatched_plant
  (NREL_power : frame) (wind_farm_bus : list wind_farm)
  (closest_NREL_siteID : list site_match) :
  scale_power_to_plant_capacity NREL_power wind_farm_bus closest_NREL_siteID =
  None <->
  exists plant,
    In plant wind_farm_bus /\
    (loc_siteID closest_NREL_siteID (plantID plant) = None \/
     exists site, loc_siteID closest_NREL_siteID (plantID plant) = Some site /\
                  get_column NREL_power site = None).
Proof.
  unfold scale_power_to_plant_capacity.
  generalize (empty_frame (index NREL_power) (map plantID wind_farm_bus)).
  induction wind_farm_bus as [| p bus IH]; intros f.
  - cbn. split; [discriminate | intros (p & [] & _)].
  - cbn [for_each]. unfold scale_plant at 1.
    destruct (loc_siteID closest_NREL_siteID (plantID p)) as [site |] eqn:Hs.
    + cbn [bind]. destruct (get_column NREL_power site) as [series |] eqn:Hc.
      * cbn [bind]. rewrite IH. split.
        -- intros (q & Hq & Hfail). exists q. split; [right; exact Hq | exact Hfail].
        -- intros (q & [<- | Hq] & Hfail).
           ++ destruct Hfail as [Hfail | (s & Hs' & Hfail)]; congruence.
           ++ exists q. split; assumption.
      * cbn [bind]. split; [intros _ | reflexivity].
        exists p. split; [left; reflexivity |]. right. exists site. split; assumption.
    + cbn [bind]. split; [intros _ | reflexivity].
      exists p. split; [left; reflexivity | left; exact Hs].
Qed.

Lemma present_scale (k : Qc) (l : list cell) :
  present (map (fun x => cell_mul x k) l) = map (fun q => (q * k)%Qc) (present l).
Proof.
  unfold present. induction l as [| [q |] l IH]; cbn; [| rewrite IH |]; auto.
Qed.

Lemma Qc_sum_scale (k : Qc) (l : list Qc) :
  Qc_sum (map (fun q => (q * k)%Qc) l) = (Qc_sum l * k)%Qc.
Proof.
  unfold Qc_sum. induction l as [| q l IH]; cbn; [ring | rewrite IH; ring].
Qed.

(** The mean of a scaled series is the scaled mean. *)
Lemma series_mean_scale (k : Qc) (l : list cell) :
  series_mean (map (fun x => cell_mul x k) l) = cell_mul (series_mean l) k.
Proof.
  unfold series_mean. rewrite present_scale.
  destruct (present l) as [| q qs]; [reflexivity |].
  cbn [map cell_mul]. f_equal.
  change ((q * k)%Qc :: map (fun q0 => (q0 * k)%Qc) qs)
    with (map (fun q0 => (q0 * k)%Qc) (q :: qs)).
  rewrite Qc_sum_scale, length_map. unfold Qcdiv. ring.
Qed.

Lemma dict_get_present {V : Type} (cols : list (Z * V)) (label : Z) :
  In label (map fst cols) -> dict_get Z.eqb cols label <> None.
Proof.
  induction cols as [| [l v] cols IH]; cbn [map fst dict_get]; [intros [] |].
  intros [-> | Hin].
  - rewrite Z.eqb_refl. discriminate.
  - destruct (l =? label); [discriminate | apply IH, Hin].
Qed.

Lemma dict_get_map_values {V W : Type} (g : V -> W) (cols : list (Z * V))
  (label : Z) :
  dict_get Z.eqb (map (fun c => (fst c, g (snd c))) cols) label =
  option_map g (dict_get Z.eqb cols label).
Proof.
  induction cols as [| [l v] cols IH]; cbn [map dict_get fst snd];
    [reflexivity |].
  destruct (l =? label); [reflexivity | exact IH].
Qed.

Lemma get_column_set_column (f : frame) (label label' : Z) (values : list cell) :
  get_column (set_column f label values) label' =
  if label =? label'
  then option_map (fun _ => values) (get_column f label')
  else get_column f label'.
Proof.
  unfold get_column, set_column. cbn [columns].
  apply (dict_get_update (fun _ => values)).
Qed.

(** X10: with distinct plant identifiers, the hourly column of every plant
    is the hourly mean of the normalized power of its matched site multiplied
    by the plant's rated capacity: scaling and hourly averaging commute.  The
    rows are the clock hours from the first to the last timestamp. *)
Theorem scaler_hourly_values
  (NREL_power : frame) (wind_farm_bus : list wind_farm)
  (closest_NREL_siteID : list site_match) (hourly : frame)
  (plant : wind_farm) (series : list cell) :
  NoDup (map plantID wind_farm_bus) ->
  scale_power_to_plant_capacity NREL_power wind_farm_bus closest_NREL_siteID =
  Some hourly ->
  In plant wind_farm_bus ->
  plant_series NREL_power closest_NREL_siteID plant = Some series ->
  index hourly = map (fun h => h * 3600) (hours_range (index NREL_power)) /\
  get_column hourly (plantID plant) =
  Some (map (fun h =>
               cell_mul (series_mean (hour_values (index NREL_power) series h))
                        (GenMWMax plant))
            (hours_range (index NREL_power))).
Proof.
  intros Hnd Hrun Hin Hseries.
  unfold scale_power_to_plant_capacity in Hrun.
  destruct (for_each _ wind_farm_bus _) as [wfp |] eqn:Hloop; [| discriminate].
  cbn [bind] in Hrun. injection Hrun as <-.
  set (scaled := map (fun x => cell_mul x (GenMWMax plant)) series).
  assert (Hinv : index wfp = index NREL_power /\
                 labels wfp = map plantID wind_farm_bus).
  { apply (for_each_preserves _ (fun f => index f = index NREL_power /\
                                          labels f = map plantID wind_farm_bus)
                              _ _ _) in Hloop; [exact Hloop | |].
    - split; [reflexivity | apply labels_empty_frame].
    - intros acc q acc' _ [Hi Hl] Hstep. rewrite scale_plant_series in Hstep.
      destruct (plant_series _ _ q); [| discriminate].
      injection Hstep as <-. split; [exact Hi |].
      rewrite labels_set_column. exact Hl. }
  destruct Hinv as (Hidx & Hlab).
  assert (Hcol : get_column wfp (plantID plant) = Some scaled).
  { refine (for_each_reaches_key _ plantID
              (fun f => labels f = map plantID wind_farm_bus)
              (fun f => get_column f (plantID plant) = Some scaled)
              wind_farm_bus plant _ _ Hin Hnd (labels_empty_frame _ _) _ _ _ Hloop).
    - intros acc q acc' _ Hl Hstep. rewrite scale_plant_series in Hstep.
      destruct (plant_series _ _ q); [| discriminate].
      injection Hstep as <-. rewrite labels_set_column. exact Hl.
    - intros acc acc' Hl Hstep. rewrite scale_plant_series, Hseries in Hstep.
      injection Hstep as <-. rewrite get_column_set_column, Z.eqb_refl.
      destruct (get_column acc (plantID plant)) eqn:Hget; [reflexivity |].
      exfalso. revert Hget. apply dict_get_present.
      fold (labels acc). rewrite Hl. apply in_map, Hin.
    - intros acc q acc' _ Hne _ Hget Hstep. rewrite scale_plant_series in Hstep.
      destruct (plant_series _ _ q); [| discriminate].
      injection Hstep as <-. rewrite get_column_set_column.
      destruct (plantID q =? plantID plant) eqn:Hq; [| exact Hget].
      apply Z.eqb_eq in Hq. congruence. }
  unfold resample_H_mean. cbn [index]. rewrite Hidx. split; [reflexivity |].
  unfold get_column in *. cbn [columns].
  rewrite (dict_get_map_values
             (fun col => map (fun h => series_mean
                                         (hour_values (index NREL_power) col h))
                             (hours_range (index NREL_power)))).
  rewrite Hcol. cbn [option_map]. f_equal. apply map_ext. intros h.
  unfold scaled. rewrite hour_values_map. apply series_mean_scale.
Qed.

Lemma scaler_hourly_values_witness :
  exists hourly,
    scale_power_to_plant_capacity sample_power [farm0] sample_match =
    Some hourly /\
    index hourly = map (fun h => h * 3600) (hours_range (index sample_power)) /\
    get_column hourly 7 =
    Some (map (fun h =>
                 cell_mul (series_mean
                             (hour_values (index sample_power)
                                [Some (Q2Qc (3 # 20)); Some (Q2Qc (1 # 20))] h))
                          (Q2Qc 100))
              (hours_range (index sample_power))).
Proof.
  destruct (scale_power_to_plant_capacity sample_power [farm0] sample_match)
    as [hourly |] eqn:Hrun; [| exfalso; discriminate Hrun].
  exists hourly. split; [reflexivity |].
  apply (scaler_hourly_values sample_power [farm0] sample_match hourly farm0).
  - repeat constructor. intros [].
  - exact Hrun.
  - left; reflexivity.
  - reflexivity.
Defined.

(** ** The hourly rows *)

Lemma fold_min_bounds (l : list Z) (a : Z) :
  fold_left Z.min l a <= a /\ Forall (fun x => fold_left Z.min l a <= x) l.
Proof.
  revert a. induction l as [| x l IH]; intros a; cbn [fold_left].
  - split; [lia | constructor].
  - destruct (IH (Z.min a x)) as (H1 & H2). split; [lia |].
    constructor; [lia | exact H2].
Qed.

Lemma fold_max_bounds (l : list Z) (a : Z) :
  a <= fold_left Z.max l a /\ Forall (fun x => x <= fold_left Z.max l a) l.
Proof.
  revert a. induction l as [| x l IH]; intros a; cbn [fold_left].
  - split; [lia | constructor].
  - destruct (IH (Z.max a x)) as (H1 & H2). split; [lia |].
    constructor; [lia | exact H2].
Qed.

Lemma nth_error_affine (lo : Z) (a n i : nat) (h : Z) :
  nth_error (map (fun k => lo + Z.of_nat k) (seq a n)) i = Some h ->
  h = lo + Z.of_nat (a + i).
Proof.
  revert a i. induction n as [| n IH]; intros a i H.
  - destruct i; discriminate.
  - destruct i as [| i]; cbn in H.
    + injection H as <-. f_equal. lia.
    + apply IH in H. rewrite H. f_equal. lia.
Qed.

Lemma filter_none {A : Type} (p : A -> bool) (l : list A) :
  (forall x, In x l -> p x = false) -> filter p l = [].
Proof.
  induction l as [| x l IH]; intros H; [reflexivity |].
  cbn [filter]. rewrite (H x (or_introl eq_refl)).
  apply IH. intros y Hy. apply H. right; exact Hy.
Qed.

Lemma hours_range_affine (idx : list Z) (i : nat) (h : Z) :
  nth_error (hours_range idx) i = Some h ->
  exists lo, forall j h', nth_error (hours_range idx) j = Some h' ->
                          h' = lo + Z.of_nat j.
Proof.
  intros _. unfold hours_range. destruct (map hour_floor idx) as [| h0 hs].
  - exists 0. intros j h' H. destruct j; discriminate.
  - exists (fold_left Z.min hs h0). intros j h' H.
    apply nth_error_affine in H. exact H.
Qed.

Lemma fold_min_in (l : list Z) (a : Z) : In (fold_left Z.min l a) (a :: l).
Proof.
  revert a. induction l as [| x l IH]; intros a; cbn [fold_left].
  - left; reflexivity.
  - destruct (IH (Z.min a x)) as [H | H]; [| right; right; exact H].
    destruct (Z.min_spec a x) as [[_ Hm] | [_ Hm]].
    + left. rewrite <- H. symmetry. exact Hm.
    + right; left. rewrite <- H. symmetry. exact Hm.
Qed.

Lemma fold_max_in (l : list Z) (a : Z) : In (fold_left Z.max l a) (a :: l).
Proof.
  revert a. induction l as [| x l IH]; intros a; cbn [fold_left].
  - left; reflexivity.
  - destruct (IH (Z.max a x)) as [H | H]; [| right; right; exact H].
    destruct (Z.max_spec a x) as [[_ Hm] | [_ Hm]].
    + right; left. rewrite <- H. symmetry. exact Hm.
    + left. rewrite <- H. symmetry. exact Hm.
Qed.

Lemma nth_error_range (lo : Z) (n i : nat) :
  (i < n)%nat ->
  nth_error (map (fun k => lo + Z.of_nat k) (seq 0 n)) i = Some (lo + Z.of_nat i).
Proof.
  intros Hi. rewrite nth_error_map, nth_error_seq.
  destruct (Nat.ltb_spec i n); [reflexivity | lia].
Qed.

(** The rows run from the least to the greatest hour of a timestamp. *)
Lemma hours_range_ends (idx : list Z) :
  idx <> [] ->
  exists tmin tmax,
    In tmin idx /\ In tmax idx /\
    (forall t, In t idx -> hour_floor tmin <= hour_floor t <= hour_floor tmax) /\
    hours_range idx =
    map (fun k => hour_floor tmin + Z.of_nat k)
        (seq 0 (Z.to_nat (hour_floor tmax - hour_floor tmin + 1))).
Proof.
  intros Hne. unfold hours_range.
  destruct idx as [| t0 rest]; [congruence |]. cbn [map].
  set (h0 := hour_floor t0). set (hs := map hour_floor rest).
  destruct (fold_min_bounds hs h0) as (Hlo0 & Hlo).
  destruct (fold_max_bounds hs h0) as (Hhi0 & Hhi).
  rewrite Forall_forall in Hlo, Hhi.
  assert (Hin : forall h, In h (h0 :: hs) -> exists t, In t (t0 :: rest) /\ hour_floor t = h).
  { intros h [<- | Hh].
    - exists t0. split; [left; reflexivity | reflexivity].
    - apply in_map_iff in Hh. destruct Hh as (t & Ht & Hin).
      exists t. split; [right; exact Hin | exact Ht]. }
  destruct (Hin _ (fold_min_in hs h0)) as (tmin & Htmin & Hmin).
  destruct (Hin _ (fold_max_in hs h0)) as (tmax & Htmax & Hmax).
  exists tmin, tmax. rewrite Hmin, Hmax.
  repeat split; try assumption.
  - destruct H as [<- | H]; [exact Hlo0 |]. apply Hlo, in_map, H.
  - destruct H as [<- | H]; [exact Hhi0 |]. apply Hhi, in_map, H.
Qed.

(** X11: the hourly table has one row per clock hour from the first to the
    last hour of the input, and no other row: a table without timestamps
    gives no row; otherwise the first row is the least hour of a timestamp,
    the last row the greatest, and there is one row for each hour between
    them; consecutive rows are one hour apart; an hour is a row exactly when
    it lies between the hours of two timestamps; and a row whose hour
    contains no timestamp holds nan in every column. *)
Theorem resample_rows_are_consecutive_hours (f : frame) :
  index (resample_H_mean f) = map (fun h => h * 3600) (hours_range (index f)) /\
  (index f = [] -> hours_range (index f) = []) /\
  (index f <> [] ->
   exists tmin tmax,
     In tmin (index f) /\ In tmax (index f) /\
     (forall t, In t (index f) ->
                hour_floor tmin <= hour_floor t <= hour_floor tmax) /\
     List.length (hours_range (index f)) =
     Z.to_nat (hour_floor tmax - hour_floor tmin + 1) /\
     hd_error (hours_range (index f)) = Some (hour_floor tmin) /\
     nth_error (hours_range (index f))
               (Nat.pred (List.length (hours_range (index f)))) =
     Some (hour_floor tmax)) /\
  (forall h,
      In h (hours_range (index f)) <->
      exists t t', In t (index f) /\ In t' (index f) /\
                   hour_floor t <= h <= hour_floor t') /\
  (forall i h h',
      nth_error (hours_range (index f)) i = Some h ->
      nth_error (hours_range (index f)) (S i) = Some h' -> h' = h + 1) /\
  (forall label column j h,
      In (label, column) (columns (resample_H_mean f)) ->
      nth_error (hours_range (index f)) j = Some h ->
      (forall t, In t (index f) -> hour_floor t <> h) ->
      nth_error column j = Some nan).
Proof.
  split; [reflexivity |]. split; [intros ->; reflexivity |].
  split; [| split; [| split]].
  - intros Hne.
    destruct (hours_range_ends (index f) Hne)
      as (tmin & tmax & Hmin & Hmax & Hb & Heq).
    exists tmin, tmax. pose proof (Hb _ Hmin) as Hle.
    repeat split; try assumption; try apply Hb; try assumption.
    + rewrite Heq, length_map, length_seq. reflexivity.
    + rewrite Heq.
      replace (Z.to_nat (hour_floor tmax - hour_floor tmin + 1))
        with (S (Z.to_nat (hour_floor tmax - hour_floor tmin))) by lia.
      cbn. f_equal. lia.
    + rewrite Heq, length_map, length_seq, nth_error_range by lia.
      f_equal. lia.
  - intros h. destruct (index f) as [| t0 rest] eqn:Hidx.
    + split; [intros [] | intros (t & _ & [] & _)].
    + assert (Hne : t0 :: rest <> []) by discriminate.
      destruct (hours_range_ends (t0 :: rest) Hne)
        as (tmin & tmax & Hmin & Hmax & Hb & Heq).
      rewrite Heq, in_map_iff. split.
      * intros (k & <- & Hk). apply in_seq in Hk.
        exists tmin, tmax. repeat split; try assumption; lia.
      * intros (t & t' & Ht & Ht' & Hh).
        pose proof (Hb _ Ht). pose proof (Hb _ Ht').
        exists (Z.to_nat (h - hour_floor tmin)). split; [lia |].
        apply in_seq. lia.
  - intros i h h' Hi Hi'.
    destruct (hours_range_affine _ _ _ Hi) as (lo & Hlo).
    rewrite (Hlo _ _ Hi), (Hlo _ _ Hi'). lia.
  - intros label column j h Hin Hj Hnone.
    unfold resample_H_mean in Hin. cbn [columns] in Hin.
    apply in_map_iff in Hin. destruct Hin as (c & Heq & _).
    injection Heq as _ <-.
    rewrite nth_error_map, Hj. cbn [option_map]. f_equal.
    assert (Hempty : hour_values (index f) (snd c) h = []).
    { unfold hour_values.
      assert (Hf : filter (fun tc : Z * cell => hour_floor (fst tc) =? h)
                          (combine (index f) (snd c)) = []).
      { apply filter_none. intros [t v] Hin. cbn [fst].
        apply in_combine_l in Hin. apply Z.eqb_neq, Hnone, Hin. }
      rewrite Hf. reflexivity. }
    rewrite Hempty. reflexivity.
Qed.

(** ** The catalog builder *)

Section CatalogFacts.

Variable states : string -> option (list Qc * list Qc).
Variable str_float : Qc -> string.
Variable get_3tiersites_from_wkt : string -> list nrel_site.

Local Abbreviation polygon := (state_polygon states str_float).
Local Abbreviation sites_of :=
  (state_sites states str_float get_3tiersites_from_wkt).
Local Abbreviation step :=
  (catalog_step states str_float get_3tiersites_from_wkt).

Lemma catalog_step_ok (acc : option (list nrel_site)) (state : string) :
  polygon state <> None ->
  step acc state =
  Some (Some (match acc with
              | Some sites => sites ++ sites_of state
              | None => sites_of state
              end)).
Proof.
  unfold catalog_step, state_sites. intros Hok.
  destruct (state_polygon states str_float state); [| congruence].
  cbn [bind]. destruct acc; reflexivity.
Qed.

Lemma catalog_loop_from (states_list : list string) (sites : list nrel_site) :
  (forall state, In state states_list -> polygon state <> None) ->
  for_each step states_list (Some sites) =
  Some (Some (sites ++ flat_map sites_of states_list)).
Proof.
  revert sites. induction states_list as [| s l IH]; intros sites Hok.
  - cbn. rewrite app_nil_r. reflexivity.
  - cbn [for_each flat_map].
    rewrite catalog_step_ok by (apply Hok; left; reflexivity).
    cbn [bind]. rewrite IH by (intros; apply Hok; right; assumption).
    rewrite app_assoc. reflexivity.
Qed.

Lemma catalog_loop_fails (states_list : list string)
  (acc : option (list nrel_site)) :
  for_each step states_list acc = None <->
  exists state, In state states_list /\ polygon state = None.
Proof.
  revert acc. induction states_list as [| s l IH]; intros acc.
  - cbn. split; [discriminate | intros (s & [] & _)].
  - cbn [for_each]. destruct (polygon s) as [poly |] eqn:Hp.
    + rewrite catalog_step_ok by congruence. cbn [bind]. rewrite IH. split.
      * intros (q & Hq & Hf). exists q. split; [right; exact Hq | exact Hf].
      * intros (q & [<- | Hq] & Hf); [congruence |]. exists q. split; assumption.
    + unfold catalog_step. rewrite Hp. cbn [bind]. split; [intros _ | reflexivity].
      exists s. split; [left; reflexivity | exact Hp].
Qed.

Lemma state_polygon_fails (state : string) :
  polygon state = None <->
  states state = None \/
  exists lons lats,
    states state = Some (lons, lats) /\
    (List.length lons <> List.length lats \/ lons = []).
Proof.
  unfold state_polygon. destruct (states state) as [[lons lats] |].
  - cbn [bind fst snd]. unfold column_stack.
    destruct (List.length lons =? List.length lats)%nat eqn:Hlen.
    + apply Nat.eqb_eq in Hlen. cbn [bind]. unfold wkt_polygon.
      destruct lons as [| x lons].
      * cbn. split; [intros _ | reflexivity].
        right. exists [], lats. split; [reflexivity | right; reflexivity].
      * destruct lats as [| y lats]; [discriminate |]. cbn. split; [discriminate |].
        intros [H | (a & b & [= <- <-] & [H | H])]; [discriminate | | discriminate].
        exfalso. apply H. exact Hlen.
    + apply Nat.eqb_neq in Hlen. cbn [bind]. split; [intros _ | reflexivity].
      right. exists lons, lats. split; [reflexivity | left; exact Hlen].
  - cbn [bind]. split; [intros _; left; reflexivity | reflexivity].
Qed.

End CatalogFacts.

(** X12: when every state of the list has a boundary, the catalog is the
    registry's answers for the states' polygons put end to end in the order
    of the list, without removing duplicates: a state listed twice
    contributes its sites twice.  For an empty list the result is Python's
    None, not an empty catalog. *)
Theorem catalog_is_concatenation
  (states : string -> option (list Qc * list Qc)) (str_float : Qc -> string)
  (get_3tiersites_from_wkt : string -> list nrel_site)
  (states_list : list string) :
  (forall state, In state states_list ->
                 state_polygon states str_float state <> None) ->
  get_all_NREL_siteID_for_states states str_float get_3tiersites_from_wkt
                                 states_list =
  Some (match states_list with
        | [] => None
        | _ :: _ =>
            Some (flat_map (state_sites states str_float get_3tiersites_from_wkt)
                           states_list)
        end).
Proof.
  intros Hok. unfold get_all_NREL_siteID_for_states.
  destruct states_list as [| s l]; [reflexivity |].
  cbn [for_each flat_map].
  rewrite catalog_step_ok by (apply Hok; left; reflexivity).
  cbn [bind]. apply catalog_loop_from.
  intros state Hin. apply Hok. right; exact Hin.
Qed.

Lemma catalog_is_concatenation_witness :
  get_all_NREL_siteID_for_states sample_states sample_str_float sample_registry
                                 ["WA"%string; "WA"%string] =
  Some (Some (flat_map (state_sites sample_states sample_str_float sample_registry)
                       ["WA"%string; "WA"%string])).
Proof.
  apply (catalog_is_concatenation sample_states sample_str_float sample_registry
                                  ["WA"%string; "WA"%string]).
  intros state [<- | [<- | []]]; vm_compute; discriminate.
Defined.

(** X13: the catalog builder raises exactly when some state of the list is
    unknown, or has boundary lists of different lengths, or has an empty
    boundary. *)
Theorem catalog_fails_on_bad_state
  (states : string -> option (list Qc * list Qc)) (str_float : Qc -> string)
  (get_3tiersites_from_wkt : string -> list nrel_site)
  (states_list : list string) :
  get_all_NREL_siteID_for_states states str_float get_3tiersites_from_wkt
                                 states_list = None <->
  exists state,
    In state states_list /\
    (states state = None \/
     exists lons lats,
       states state = Some (lons, lats) /\
       (List.length lons <> List.length lats \/ lons = [])).
Proof.
  unfold get_all_NREL_siteID_for_states. rewrite catalog_loop_fails.
  split; intros (state & Hin & H); exists state; (split; [exact Hin |]);
    apply (state_polygon_fails states str_float); exact H.
Qed.

(** ** The polygon literal *)

Lemma string_app_assoc (a b c : string) :
  ((a ++ b) ++ c)%string = (a ++ (b ++ c))%string.
Proof.
  induction a as [| ch a IH]; cbn; [reflexivity | rewrite IH; reflexivity].
Qed.

Lemma concat_commas (v : Qc * Qc -> string) (l : list (Qc * Qc)) (z : string) :
  String.concat EmptyString (map (fun i => (v i ++ ",")%string) l ++ [z]) =
  String.concat "," (map v l ++ [z]).
Proof.
  induction l as [| x l IH]; [reflexivity |].
  destruct l as [| y l].
  - cbn. rewrite string_app_assoc. reflexivity.
  - change (String.concat EmptyString
              (map (fun i => (v i ++ ",")%string) (x :: y :: l) ++ [z]))
      with ((v x ++ ",") ++ EmptyString ++
            String.concat EmptyString
              (map (fun i => (v i ++ ",")%string) (y :: l) ++ [z]))%string.
    change (String.concat "," (map v (x :: y :: l) ++ [z]))
      with (v x ++ "," ++ String.concat "," (map v (y :: l) ++ [z]))%string.
    rewrite IH. cbn [append]. rewrite string_app_assoc. reflexivity.
Qed.

(** X14: the polygon literal of a boundary is POLYGON((...)) around the
    comma-separated texts of its vertices, longitude first, in order,
    followed by the first vertex again: the ring is closed. *)
Theorem polygon_ring_is_closed (str_float : Qc -> string)
  (first : Qc * Qc) (rest : list (Qc * Qc)) :
  wkt_polygon str_float (first :: rest) =
  Some ("POLYGON((" ++
        String.concat "," (map (vertex str_float) ((first :: rest) ++ [first]))
        ++ "))")%string.
Proof.
  unfold wkt_polygon. cbn [values0 hd_error bind].
  rewrite concat_commas. rewrite map_app. reflexivity.
Qed.

End TeWindMore.

(** * Further properties of naive.py *)

Module NaiveMore.

Import Naive NaiveProps.

Local Open Scope Z_scope.

(** ** The locations of the plants *)

Lemma key_eqb_eq (a b : key) : key_eqb a b = true <-> a = b.
Proof.
  unfold key_eqb. rewrite andb_true_iff, !Qc_eqb_eq.
  destruct a, b; cbn. split; [intros [-> ->]; reflexivity | intros [= -> ->]; auto].
Qed.

Lemma coord_loop_get (solar_plant : list solar_plant_row)
  (acc : list (key * list (Z * Qc))) (k : key) :
  dict_get key_eqb
    (fold_left
       (fun coord p =>
          let k := (lon p, lat p) in
          match dict_get key_eqb coord k with
          | None => dict_set key_eqb coord k [(plant_index p, Pmax p)]
          | Some plants =>
              dict_set key_eqb coord k (plants ++ [(plant_index p, Pmax p)])
          end) solar_plant acc) k =
  group_after (dict_get key_eqb acc k) (plants_at solar_plant k).
Proof.
  revert acc. induction solar_plant as [| p l IH]; intros acc.
  - unfold plants_at. cbn [fold_left filter map].
    destruct (dict_get key_eqb acc k); cbn [group_after];
      [rewrite app_nil_r |]; reflexivity.
  - cbn [fold_left]. rewrite IH. unfold plants_at. cbn [filter].
    destruct (dict_get key_eqb acc (lon p, lat p)) as [a |] eqn:Hget;
      rewrite (TeWindMore.dict_get_set key_eqb key_eqb_eq);
      destruct (key_eqb (lon p, lat p) k) eqn:Hk.
    + apply key_eqb_eq in Hk. subst k. rewrite Hget. cbn [map group_after].
      rewrite <- app_assoc. reflexivity.
    + reflexivity.
    + apply key_eqb_eq in Hk. subst k. rewrite Hget. reflexivity.
    + reflexivity.
Qed.

Lemma coord_keys_NoDup (solar_plant : list solar_plant_row) :
  NoDup (map fst (coord_of solar_plant)).
Proof.
  unfold coord_of.
  assert (Hgen : forall l (acc : list (key * list (Z * Qc))),
             NoDup (map fst acc) ->
             NoDup (map fst
                      (fold_left
                         (fun coord p =>
                            let k := (lon p, lat p) in
                            match dict_get key_eqb coord k with
                            | None =>
                                dict_set key_eqb coord k [(plant_index p, Pmax p)]
                            | Some plants =>
                                dict_set key_eqb coord k
                                         (plants ++ [(plant_index p, Pmax p)])
                            end) l acc))).
  { induction l as [| p l IH]; intros acc Hacc; [exact Hacc |].
    cbn [fold_left]. apply IH.
    destruct (dict_get key_eqb acc (lon p, lat p));
      apply (TeWindMore.dict_set_keys_NoDup key_eqb key_eqb_eq), Hacc. }
  apply Hgen. constructor.
Qed.

(** X15: [coord] has one key per distinct pair of coordinates: its keys are
    distinct, and the entry of a location lists exactly the plants that have
    these coordinates, with their capacities, in the order of the plant
    table; a location without a plant has no entry. *)
Theorem coord_groups_plants_by_location (solar_plant : list solar_plant_row) :
  NoDup (map fst (coord_of solar_plant)) /\
  (forall k,
      dict_get key_eqb (coord_of solar_plant) k =
      match plants_at solar_plant k with
      | [] => None
      | plants => Some plants
      end) /\
  (forall p, In p solar_plant ->
             exists plants,
               dict_get key_eqb (coord_of solar_plant) (lon p, lat p) =
               Some plants /\
               In (plant_index p, Pmax p) plants).
Proof.
  split; [apply coord_keys_NoDup |].
  assert (Hget : forall k,
             dict_get key_eqb (coord_of solar_plant) k =
             match plants_at solar_plant k with
             | [] => None
             | plants => Some plants
             end).
  { intros k. unfold coord_of. rewrite coord_loop_get. cbn [dict_get].
    unfold group_after. destruct (plants_at solar_plant k); reflexivity. }
  split; [exact Hget |].
  intros p Hp. rewrite Hget.
  assert (Hin : In (plant_index p, Pmax p) (plants_at solar_plant (lon p, lat p))).
  { unfold plants_at.
    apply (in_map (fun q => (plant_index q, Pmax q))).
    apply filter_In. split; [exact Hp |]. apply key_eqb_eq. reflexivity. }
  destruct (plants_at solar_plant (lon p, lat p)) as [| x l]; [destruct Hin |].
  exists (x :: l). split; [reflexivity | exact Hin].
Qed.

Lemma coord_groups_plants_by_location_witness :
  exists plants,
    dict_get key_eqb (coord_of two_plants)
             (Q2Qc (-1224056 # 10000), Q2Qc (45584722 # 1000000)) =
    Some plants /\
    In (102, Q2Qc 20) plants.
Proof.
  apply (proj2 (proj2 (coord_groups_plants_by_location two_plants))
               {| plant_index := 102; lon := Q2Qc (-1224056 # 10000);
                  lat := Q2Qc (45584722 # 1000000); Pmax := Q2Qc 20 |}).
  right; left; reflexivity.
Defined.

(** ** Errors of the estimation loop *)

Lemma location_pass_fails (read_csv_GHI : key -> list Qc)
  (coord : list (key * list (Z * Qc))) (data : list row) (k : key) :
  location_pass read_csv_GHI coord data k = None <->
  dict_get key_eqb coord k = None.
Proof.
  unfold location_pass. destruct (dict_get key_eqb coord k); cbn [bind].
  - split; discriminate.
  - split; reflexivity.
Qed.

(** X16: the estimation loop raises exactly when one of the locations it is
    run over has no entry in [coord]; over the keys of [coord] it never
    raises. *)
Theorem estimate_fails_on_unknown_location (read_csv_GHI : key -> list Qc)
  (coord : list (key * list (Z * Qc))) (keys : list key) :
  (estimate read_csv_GHI coord keys = None <->
   exists k, In k keys /\ dict_get key_eqb coord k = None) /\
  (NoDup (map fst coord) ->
   estimate read_csv_GHI coord (map fst coord) <> None).
Proof.
  assert (Hiff : forall ks data,
             for_each (location_pass read_csv_GHI coord) ks data = None <->
             exists k, In k ks /\ dict_get key_eqb coord k = None).
  { induction ks as [| k ks IH]; intros data.
    - cbn. split; [discriminate | intros (k & [] & _)].
    - cbn [for_each].
      destruct (location_pass read_csv_GHI coord data k) as [d |] eqn:Hk.
      + cbn [bind]. rewrite IH. split.
        * intros (q & Hq & Hf). exists q. split; [right; exact Hq | exact Hf].
        * intros (q & [<- | Hq] & Hf).
          -- apply location_pass_fails with (read_csv_GHI := read_csv_GHI)
                                           (data := data) in Hf. congruence.
          -- exists q. split; assumption.
      + cbn [bind]. split; [intros _ | reflexivity].
        exists k. split; [left; reflexivity |].
        eapply location_pass_fails, Hk. }
  split; [apply Hiff |].
  intros Hnd Hnone. apply Hiff in Hnone. destruct Hnone as (k & Hin & Hget).
  apply in_map_iff in Hin. destruct Hin as ([k' v] & Hk & Hin). cbn in Hk. subst k'.
  rewrite (TeWindMore.dict_In_get key_eqb key_eqb_eq _ _ _ Hnd Hin) in Hget.
  discriminate.
Qed.

Lemma estimate_fails_on_unknown_location_witness :
  estimate ghi_0_50_100 (coord_of two_plants) (map fst (coord_of two_plants))
  <> None.
Proof.
  apply (proj2 (estimate_fails_on_unknown_location ghi_0_50_100
                  (coord_of two_plants) [])).
  apply coord_keys_NoDup.
Defined.

(** ** An entirely zero series *)

Lemma rows_of_Pout_in (idx : list Z) (pout : list cell) (ids : list Z) (r : row) :
  In r (rows_of idx pout ids) -> In (Pout r) pout.
Proof.
  revert pout ids. induction idx as [| t idx IH]; intros pout ids Hin;
    [destruct Hin |].
  destruct pout as [| p pout]; [destruct Hin |].
  destruct ids as [| i ids]; [destruct Hin |].
  cbn in Hin. destruct Hin as [<- | Hin]; [left; reflexivity |].
  right. eapply IH, Hin.
Qed.

Lemma plant_loop_nan (plants : list (Z * Qc)) (state : loc_frame * list row) :
  Forall (fun c => c = nan) (loc_Pout (fst state)) ->
  exists rows,
    snd (fold_left plant_pass plants state) = snd state ++ rows /\
    Forall (fun r => Pout r = nan) rows.
Proof.
  revert state. induction plants as [| i plants IH]; intros state Hnan.
  - exists []. cbn. rewrite app_nil_r. split; [reflexivity | constructor].
  - cbn [fold_left].
    assert (Hnan' : Forall (fun c => c = nan) (loc_Pout (fst (plant_pass state i)))).
    { cbn. unfold series_mul_int, series_mul_list1. rewrite map_map.
      apply Forall_forall. intros c Hc. apply in_map_iff in Hc.
      destruct Hc as (c0 & <- & Hc0). rewrite Forall_forall in Hnan.
      rewrite (Hnan _ Hc0). reflexivity. }
    destruct (IH _ Hnan') as (rows & Hdata & Hrows).
    set (block := rows_of (loc_index (fst (plant_pass state i)))
                          (loc_Pout (fst (plant_pass state i)))
                          (loc_id (fst (plant_pass state i)))).
    exists (block ++ rows). split.
    + rewrite Hdata. unfold plant_pass at 1. cbn [snd].
      rewrite accumulate_append, <- app_assoc. reflexivity.
    + apply Forall_app. split; [| exact Hrows].
      apply Forall_forall. intros r Hr. apply rows_of_Pout_in in Hr.
      rewrite Forall_forall in Hnan'. apply Hnan', Hr.
Qed.

Lemma normalize_zero (ghi : list Qc) :
  Forall (fun x => x = Q2Qc 0) ghi ->
  loc_Pout (normalize ghi) = repeat nan (List.length ghi).
Proof.
  intros Hz. unfold normalize. cbn [loc_Pout]. rewrite map_map.
  destruct ghi as [| x l]; [reflexivity |].
  destruct (series_max_spec (x :: l)) as (m & Hmax & Hin & _); [discriminate |].
  rewrite Hmax. rewrite Forall_forall in Hz. rewrite (Hz m Hin).
  clear. induction (x :: l) as [| y l' IH]; [reflexivity |].
  cbn [map repeat List.length]. rewrite IH. reflexivity.
Qed.

(** X17: an entirely zero GHI series raises nothing: the normalized series is
    nan in every row (0/0), and every row the location contributes to the
    table has a nan power, whatever the capacities of its plants. *)
Theorem zero_series_gives_nan (read_csv_GHI : key -> list Qc)
  (coord : list (key * list (Z * Qc))) (data data' : list row) (k : key) :
  Forall (fun x => x = Q2Qc 0) (read_csv_GHI k) ->
  location_pass read_csv_GHI coord data k = Some data' ->
  loc_Pout (normalize (read_csv_GHI k)) =
  repeat nan (List.length (read_csv_GHI k)) /\
  exists rows, data' = data ++ rows /\ Forall (fun r => Pout r = nan) rows.
Proof.
  intros Hz Hrun. pose proof (normalize_zero _ Hz) as Hn.
  split; [exact Hn |].
  unfold location_pass in Hrun.
  destruct (dict_get key_eqb coord k) as [plants |]; [| discriminate].
  cbn [bind] in Hrun. injection Hrun as <-.
  apply (plant_loop_nan plants (normalize (read_csv_GHI k), data)).
  cbn [fst]. rewrite Hn. apply Forall_forall. intros c Hc.
  apply repeat_spec in Hc. exact Hc.
Qed.

Lemma zero_series_gives_nan_witness :
  exists data',
    location_pass (fun _ => [Q2Qc 0; Q2Qc 0]) (coord_of two_plants) []
                  (hd (Q2Qc 0, Q2Qc 0) toto) = Some data' /\
    exists rows, data' = [] ++ rows /\ Forall (fun r => Pout r = nan) rows.
Proof.
  destruct (location_pass (fun _ => [Q2Qc 0; Q2Qc 0]) (coord_of two_plants) []
                          (hd (Q2Qc 0, Q2Qc 0) toto)) as [data' |] eqn:Hrun;
    [| exfalso; discriminate Hrun].
  exists data'. split; [reflexivity |].
  apply (zero_series_gives_nan (fun _ => [Q2Qc 0; Q2Qc 0]) (coord_of two_plants)
                               [] data' (hd (Q2Qc 0, Q2Qc 0) toto)).
  - repeat constructor.
  - exact Hrun.
Defined.

(** ** The unit of the irradiance *)

Lemma Qc_pos_neq (k : Qc) : (0 < k)%Qc -> k <> Q2Qc 0.
Proof.
  intros Hk ->. exact (Qclt_not_eq _ _ Hk eq_refl).
Qed.

Lemma Qc_leb_scale (k a b : Qc) :
  (0 < k)%Qc -> Qc_leb (k * a) (k * b) = Qc_leb a b.
Proof.
  intros Hk. apply eq_true_iff_eq. rewrite !Qc_leb_le.
  rewrite !(Qcmult_comm k). split.
  - apply Qcmult_lt_0_le_reg_r, Hk.
  - intros H. apply Qcmult_le_compat_r; [exact H | apply Qclt_le_weak, Hk].
Qed.

Lemma series_max_scale (k : Qc) (l : list Qc) :
  (0 < k)%Qc ->
  series_max (map Some (map (Qcmult k) l)) =
  option_map (Qcmult k) (series_max (map Some l)).
Proof.
  intros Hk. induction l as [| x l IH]; [reflexivity |].
  cbn [map series_max]. rewrite IH.
  destruct (series_max (map Some l)) as [m |]; cbn [option_map]; [| reflexivity].
  rewrite Qc_leb_scale by exact Hk. destruct (Qc_leb x m); reflexivity.
Qed.

Lemma cell_div_scale (k x m : Qc) :
  (0 < k)%Qc ->
  cell_div (Some (k * x)%Qc) (Some (k * m)%Qc) = cell_div (Some x) (Some m).
Proof.
  intros Hk. pose proof (Qc_pos_neq k Hk) as Hk0. cbn.
  destruct (Qc_eqb m (Q2Qc 0)) eqn:Hm.
  - apply Qc_eqb_eq in Hm. subst m. rewrite Qcmult_0_r.
    replace (Qc_eqb (Q2Qc 0) (Q2Qc 0)) with true; [reflexivity |].
    symmetry. apply Qc_eqb_eq. reflexivity.
  - assert (Hm0 : m <> Q2Qc 0).
    { intros H. apply Qc_eqb_eq in H. congruence. }
    destruct (Qc_eqb (k * m) (Q2Qc 0)) eqn:Hkm.
    + apply Qc_eqb_eq in Hkm. apply Qcmult_integral in Hkm.
      destruct Hkm; contradiction.
    + f_equal. field. split; assumption.
Qed.

Lemma normalize_scale (k : Qc) (ghi : list Qc) :
  (0 < k)%Qc -> normalize (map (Qcmult k) ghi) = normalize ghi.
Proof.
  intros Hk. unfold normalize. rewrite length_map. f_equal.
  rewrite series_max_scale by exact Hk. rewrite !map_map.
  destruct (series_max (map Some ghi)) as [m |]; cbn [option_map].
  - apply map_ext. intros x. apply cell_div_scale, Hk.
  - apply map_ext. intros x. reflexivity.
Qed.

(** X18: the estimate does not depend on the unit of the irradiance:
    multiplying every GHI value of every location by the same positive
    factor leaves the accumulated table unchanged. *)
Theorem estimate_ignores_irradiance_unit (k : Qc)
  (read_csv_GHI : key -> list Qc) (coord : list (key * list (Z * Qc)))
  (keys : list key) :
  (0 < k)%Qc ->
  estimate (fun location => map (Qcmult k) (read_csv_GHI location)) coord keys =
  estimate read_csv_GHI coord keys.
Proof.
  intros Hk. unfold estimate. generalize (@nil row).
  induction keys as [| location keys IH]; intros data; [reflexivity |].
  cbn [for_each]. unfold location_pass at 1 3.
  rewrite normalize_scale by exact Hk.
  destruct (dict_get key_eqb coord location); cbn [bind]; [apply IH | reflexivity].
Qed.

Lemma estimate_ignores_irradiance_unit_witness :
  estimate (fun location => map (Qcmult (Q2Qc 1000)) (ghi_0_50_100 location))
           (coord_of two_plants) [hd (Q2Qc 0, Q2Qc 0) toto] =
  estimate ghi_0_50_100 (coord_of two_plants) [hd (Q2Qc 0, Q2Qc 0) toto].
Proof.
  apply (estimate_ignores_irradiance_unit (Q2Qc 1000)). reflexivity.
Defined.

(** ** What the passes multiply *)

Lemma cell_mul_mul (c : cell) (a b : Qc) :
  cell_mul (cell_mul c a) b = cell_mul c (a * b).
Proof.
  destruct c as [q |]; [| reflexivity]. cbn. f_equal. ring.
Qed.

Lemma cell_mul_one (c : cell) : cell_mul c (Q2Qc 1) = c.
Proof.
  destruct c as [q |]; [| reflexivity]. cbn. f_equal. ring.
Qed.

Lemma plant_loop_factors (base : list cell) (plants : list (Z * Qc))
  (state : loc_frame * list row) (F : Qc) :
  List.length base = List.length (loc_index (fst state)) ->
  loc_Pout (fst state) = map (fun c => cell_mul c F) base ->
  exists blocks,
    snd (fold_left plant_pass plants state) = snd state ++ List.concat blocks /\
    List.length blocks = List.length plants /\
    forall j i block,
      nth_error plants j = Some i ->
      nth_error blocks j = Some block ->
      map id block = repeat (fst i) (List.length base) /\
      map time_index block = loc_index (fst state) /\
      map Pout block =
      map (fun c =>
             cell_mul c
               (fold_left
                  (fun acc p => (acc * (snd p * Qc_of_nat (List.length base)))%Qc)
                  (firstn (S j) plants) F))
          base.
Proof.
  revert state F. induction plants as [| p plants IH]; intros state F Hlen Hpout.
  - exists []. cbn. rewrite app_nil_r. repeat split.
    all: destruct j; discriminate.
  - cbn [fold_left].
    set (n := List.length base) in *.
    set (F' := (F * (snd p * Qc_of_nat n))%Qc).
    assert (Hpout' : loc_Pout (fst (plant_pass state p)) =
                     map (fun c => cell_mul c F') base).
    { cbn. unfold series_mul_int, series_mul_list1. rewrite Hpout, !map_map.
      rewrite <- Hlen. fold n. apply map_ext. intros c.
      rewrite !cell_mul_mul. unfold F'. f_equal; ring. }
    destruct (IH (plant_pass state p) F') as (blocks & Hdata & Hcount & Hblocks);
      [exact Hlen | exact Hpout' |].
    set (block0 := rows_of (loc_index (fst (plant_pass state p)))
                           (loc_Pout (fst (plant_pass state p)))
                           (loc_id (fst (plant_pass state p)))).
    exists (block0 :: blocks). split; [| split].
    + rewrite Hdata. unfold plant_pass at 1. cbn [snd].
      rewrite accumulate_append. cbn [List.concat].
      rewrite <- app_assoc. reflexivity.
    + cbn. rewrite Hcount. reflexivity.
    + intros j i block Hj Hb. destruct j as [| j].
      * cbn [nth_error] in Hj, Hb. injection Hj as <-. injection Hb as <-.
        destruct (rows_of_columns (loc_index (fst (plant_pass state p)))
                                  (loc_Pout (fst (plant_pass state p)))
                                  (loc_id (fst (plant_pass state p))))
          as (H1 & H2 & H3).
        { rewrite Hpout', length_map. exact Hlen. }
        { cbn. apply repeat_length. }
        unfold block0. rewrite H1, H2, H3. repeat split.
        -- cbn. rewrite <- Hlen. reflexivity.
        -- exact Hpout'.
      * cbn [nth_error] in Hj, Hb.
        destruct (Hblocks j i block Hj Hb) as (Hid & Ht & Hp).
        repeat split; [exact Hid | exact Ht |].
        rewrite Hp. reflexivity.
Qed.

(** X19: within one location the passes accumulate: the series written for
    the j-th plant is the normalized series multiplied by the capacity and
    by the number of rows of every plant up to and including the j-th, since
    each pass multiplies the shared frame in place. *)
Theorem plant_series_accumulate_factors (read_csv_GHI : key -> list Qc)
  (coord : list (key * list (Z * Qc))) (data data' : list row) (k : key)
  (plants : list (Z * Qc)) :
  dict_get key_eqb coord k = Some plants ->
  location_pass read_csv_GHI coord data k = Some data' ->
  exists blocks,
    data' = data ++ List.concat blocks /\
    List.length blocks = List.length plants /\
    forall j i block,
      nth_error plants j = Some i ->
      nth_error blocks j = Some block ->
      map id block = repeat (fst i) (List.length (read_csv_GHI k)) /\
      map time_index block = range1 (List.length (read_csv_GHI k)) /\
      map Pout block =
      map (fun c =>
             cell_mul c (cumulative_factor (List.length (read_csv_GHI k))
                                           (firstn (S j) plants)))
          (loc_Pout (normalize (read_csv_GHI k))).
Proof.
  intros Hget Hrun. unfold location_pass in Hrun. rewrite Hget in Hrun.
  cbn [bind] in Hrun. injection Hrun as <-.
  set (ghi := read_csv_GHI k).
  assert (Hbase : List.length (loc_Pout (normalize ghi)) = List.length ghi).
  { cbn. rewrite !length_map. reflexivity. }
  destruct (plant_loop_factors (loc_Pout (normalize ghi)) plants
                               (normalize ghi, data) (Q2Qc 1))
    as (blocks & Hdata & Hcount & Hblocks).
  - cbn. rewrite !length_map, range1_length. reflexivity.
  - cbn [fst]. symmetry. rewrite <- (map_id (loc_Pout (normalize ghi))) at 2.
    apply map_ext. intros c. apply cell_mul_one.
  - exists blocks. split; [exact Hdata |]. split; [exact Hcount |].
    intros j i block Hj Hb. destruct (Hblocks j i block Hj Hb) as (Hid & Ht & Hp).
    rewrite Hbase in Hid, Hp. repeat split; assumption.
Qed.

Lemma plant_series_accumulate_factors_witness :
  exists data' blocks,
    location_pass ghi_0_50_100 (coord_of two_plants) []
                  (hd (Q2Qc 0, Q2Qc 0) toto) = Some data' /\
    data' = [] ++ List.concat blocks /\
    List.length blocks = 2%nat.
Proof.
  destruct (location_pass ghi_0_50_100 (coord_of two_plants) []
                          (hd (Q2Qc 0, Q2Qc 0) toto)) as [data' |] eqn:Hrun;
    [| exfalso; discriminate Hrun].
  destruct (plant_series_accumulate_factors ghi_0_50_100 (coord_of two_plants)
              [] data' (hd (Q2Qc 0, Q2Qc 0) toto)
              [(101, Q2Qc 10); (102, Q2Qc 20)] eq_refl Hrun)
    as (blocks & Hd & Hn & _).
  exists data', blocks. repeat split; assumption.
Defined.

(** ** Sorting a table that is in order *)



End NaiveMore.
